(** * MyLinker: a shallow embedding of [src/Linker.cpp] and its properties

    The linker loads relocatable object files, keeps the ones reachable from
    the entry symbol, lays their sections out in one flat address space, binds
    the needed symbols, patches the relocation sites and writes the image.

    Conventions of the embedding:
    - [uint32_t] values are [Z] with the wrap-around [wrap32] written out;
    - byte buffers ([std::vector<uint8_t>]) are [list byte];
    - the name field of a packed record ([char name[64]]) is held as the
      [std::string] that the code converts it to, see [decode_symbol];
    - [std::set<std::string>] is [gset string], [std::map<std::string,
      uint32_t>] is [gmap string Z];
    - a function that returns [false] after printing a diagnostic returns
      [Err e], where [e] records which diagnostic was printed;
    - 32-bit words are read from and written to byte buffers in little-endian
      order, as the object format assumes. *)

From Stdlib Require Import ZArith Lia Strings.String Strings.Ascii Strings.Byte.
From stdpp Require Import base gmap sets list strings sorting.

Local Open Scope Z_scope.

(** ** Machine integers *)

Definition wrap32 (z : Z) : Z := z mod 2 ^ 32.

(** Conversion of a [uint32_t] bit pattern to [int32_t] (two's complement). *)
Definition to_int32 (z : Z) : Z :=
  if wrap32 z <? 2 ^ 31 then wrap32 z else wrap32 z - 2 ^ 32.

Definition byte_to_Z (b : byte) : Z := Z.of_N (Byte.to_N b).

Definition byte_of_Z (z : Z) : byte :=
  match Byte.of_N (Z.to_N (z mod 256)) with
  | Some b => b
  | None => x00
  end.

(** Little-endian decoding of the first four bytes of a buffer. *)
Definition le32 (bs : list byte) : Z :=
  match bs with
  | b0 :: b1 :: b2 :: b3 :: _ =>
      byte_to_Z b0 + 2 ^ 8 * byte_to_Z b1 + 2 ^ 16 * byte_to_Z b2
      + 2 ^ 24 * byte_to_Z b3
  | _ => 0
  end.

Definition bytes32 (v : Z) : list byte :=
  [byte_of_Z v; byte_of_Z (v / 2 ^ 8); byte_of_Z (v / 2 ^ 16);
   byte_of_Z (v / 2 ^ 24)].

(** ** The object format ([inc/ObjectFormat.h]) *)

Definition LINKER_MAGIC : Z := 0x4C4E4B31.

Definition SECTION_TEXT : Z := 0.
Definition SECTION_DATA : Z := 1.

Definition SYMBOL_UNDEFINED : Z := 0.
Definition SYMBOL_DEFINED : Z := 1.

Definition RELOC_ABSOLUTE : Z := 0.
Definition RELOC_RELATIVE : Z := 1.

Record FileHeader := {
  magic : Z;
  text_size : Z;
  data_size : Z;
  symtable_count : Z;
  reloc_count : Z
}.

(** [sym_name] is the C string held in the 64-byte [name] field. *)
Record SymbolEntry := {
  sym_name : string;
  sym_type : Z;
  sym_section : Z;
  sym_offset : Z
}.

Record RelocEntry := {
  reloc_offset : Z;
  reloc_symbol_name : string;
  reloc_type : Z
}.

Definition sizeof_FileHeader : nat := 20.
Definition sizeof_SymbolEntry : nat := 76.
Definition sizeof_RelocEntry : nat := 72.

(** ** Loaded objects ([inc/Linker.h]) *)

Record LoadedObject := {
  filename : string;
  header : FileHeader;
  text_section : list byte;
  data_section : list byte;
  symbols : list SymbolEntry;
  relocs : list RelocEntry;
  text_base_addr : Z;
  data_base_addr : Z
}.

(** ** Diagnostics and outcomes *)

Inductive LinkError :=
  | CouldNotOpen (path : string)
  | InvalidFormat (path : string)
  | DuplicateSymbol (name : string)
  | UndefinedSymbol (name : string)
  | RelocationOutOfBounds (file : string)
  | OutputWriteError (path : string).

(** [Undef] marks an execution whose behaviour the language leaves undefined
    (an access outside a buffer); [NoFuel] marks a loop cut short by the
    fuel of the model. *)
Inductive outcome (A : Type) :=
  | Ok (a : A)
  | Err (e : LinkError)
  | Undef
  | NoFuel.
Arguments Ok {A} a.
Arguments Err {A} e.
Arguments Undef {A}.
Arguments NoFuel {A}.

#[global] Instance outcome_bind : MBind outcome := λ A B f m,
  match m with
  | Ok a => f a
  | Err e => Err e
  | Undef => Undef
  | NoFuel => NoFuel
  end.

(** ** Reachability resolver ([layout_and_define_symbols], first half) *)

Definition ENTRY_SYMBOL : string := "__START__".

(** The inner loop of pass 1: does the object define a needed symbol? *)
Definition provides (needed_symbols : gset string) (obj : LoadedObject) : bool :=
  existsb
    (λ sym, (sym_type sym =? SYMBOL_DEFINED)
            && bool_decide (sym_name sym ∈ needed_symbols))
    (symbols obj).

(** Pass 1: activate objects that provide needed symbols. *)
Fixpoint activate_pass (needed_symbols : gset string)
    (objects : list LoadedObject) (object_active : list bool) (changed : bool)
    : list bool * bool :=
  match objects, object_active with
  | obj :: objects', a :: active' =>
      if a then
        let '(rest, c) := activate_pass needed_symbols objects' active' changed in
        (true :: rest, c)
      else if provides needed_symbols obj then
        let '(rest, c) := activate_pass needed_symbols objects' active' true in
        (true :: rest, c)
      else
        let '(rest, c) := activate_pass needed_symbols objects' active' changed in
        (false :: rest, c)
  | _, _ => (object_active, changed)
  end.

(** Pass 2, inner loop: add the relocation names of one object. *)
Fixpoint demand_relocs (rs : list RelocEntry) (needed_symbols : gset string)
    (changed : bool) : gset string * bool :=
  match rs with
  | [] => (needed_symbols, changed)
  | reloc :: rs' =>
      if bool_decide (reloc_symbol_name reloc ∈ needed_symbols) then
        demand_relocs rs' needed_symbols changed
      else
        demand_relocs rs' ({[reloc_symbol_name reloc]} ∪ needed_symbols) true
  end.

(** Pass 2: collect new needs from active objects. *)
Fixpoint demand_pass (objects : list LoadedObject) (object_active : list bool)
    (needed_symbols : gset string) (changed : bool) : gset string * bool :=
  match objects, object_active with
  | obj :: objects', a :: active' =>
      if a then
        let '(needed', c) := demand_relocs (relocs obj) needed_symbols changed in
        demand_pass objects' active' needed' c
      else demand_pass objects' active' needed_symbols changed
  | _, _ => (needed_symbols, changed)
  end.

(** The [while (changed)] loop; [fuel] bounds the number of iterations. *)
Fixpoint resolve_loop (fuel : nat) (objects : list LoadedObject)
    (needed_symbols : gset string) (object_active : list bool)
    : option (gset string * list bool) :=
  match fuel with
  | O => None
  | S fuel' =>
      let '(active1, changed1) :=
        activate_pass needed_symbols objects object_active false in
      let '(needed1, changed2) :=
        demand_pass objects active1 needed_symbols changed1 in
      if changed2 then resolve_loop fuel' objects needed1 active1
      else Some (needed1, active1)
  end.

Definition total_relocs (objects : list LoadedObject) : nat :=
  sum_list (map (λ obj, length (relocs obj)) objects).

(** Enough iterations for any input: every iteration but the last activates
    an object or adds a relocation name. *)
Definition resolve_fuel (objects : list LoadedObject) : nat :=
  S (length objects + total_relocs objects).

Definition resolve (objects : list LoadedObject)
    : option (gset string * list bool) :=
  resolve_loop (resolve_fuel objects) objects {[ENTRY_SYMBOL]}
    (replicate (length objects) false).

(** "Filter objects to keep only active ones". *)
Fixpoint filter_active (objects : list LoadedObject) (object_active : list bool)
    : list LoadedObject :=
  match objects, object_active with
  | obj :: objects', a :: active' =>
      if a then obj :: filter_active objects' active'
      else filter_active objects' active'
  | _, _ => []
  end.

(** ** Layout and symbol definition ([layout_and_define_symbols], second half) *)

(** [total += size] over all objects, in [uint32_t] arithmetic. *)
Definition total_size (size : LoadedObject → Z) (objects : list LoadedObject)
    : Z :=
  foldl (λ total obj, wrap32 (total + size obj)) 0 objects.

Definition set_base_addrs (obj : LoadedObject) (text_base data_base : Z)
    : LoadedObject :=
  {| filename := filename obj; header := header obj;
     text_section := text_section obj; data_section := data_section obj;
     symbols := symbols obj; relocs := relocs obj;
     text_base_addr := text_base; data_base_addr := data_base |}.

Definition final_addr (obj : LoadedObject) (sym : SymbolEntry) : Z :=
  if sym_section sym =? SECTION_TEXT then
    wrap32 (text_base_addr obj + sym_offset sym)
  else if sym_section sym =? SECTION_DATA then
    wrap32 (data_base_addr obj + sym_offset sym)
  else 0.

(** The loop over [obj.symbols]: register the defined symbols that are
    needed, rejecting a name that is already in the table. *)
Fixpoint define_symbols (needed_symbols : gset string) (obj : LoadedObject)
    (syms : list SymbolEntry) (global_symbol_table : gmap string Z)
    : outcome (gmap string Z) :=
  match syms with
  | [] => Ok global_symbol_table
  | sym :: syms' =>
      if (sym_type sym =? SYMBOL_DEFINED)
         && bool_decide (sym_name sym ∈ needed_symbols) then
        match global_symbol_table !! sym_name sym with
        | Some _ => Err (DuplicateSymbol (sym_name sym))
        | None =>
            define_symbols needed_symbols obj syms'
              (<[sym_name sym := final_addr obj sym]> global_symbol_table)
        end
      else define_symbols needed_symbols obj syms' global_symbol_table
  end.

(** The loop over the active objects: assign the base addresses, advance the
    two running addresses, define the symbols. *)
Fixpoint layout_loop (needed_symbols : gset string)
    (objects : list LoadedObject) (current_text_addr current_data_addr : Z)
    (global_symbol_table : gmap string Z)
    : outcome (list LoadedObject * gmap string Z) :=
  match objects with
  | [] => Ok ([], global_symbol_table)
  | obj :: objects' =>
      let obj1 := set_base_addrs obj current_text_addr current_data_addr in
      gst1 ← define_symbols needed_symbols obj1 (symbols obj1)
                global_symbol_table;
      '(rest, gst2) ← layout_loop needed_symbols objects'
                        (wrap32 (current_text_addr + text_size (header obj)))
                        (wrap32 (current_data_addr + data_size (header obj)))
                        gst1;
      Ok (obj1 :: rest, gst2)
  end.

(** [std::string] ordering, the iteration order of [std::set]. *)
Definition string_le (a b : string) : Prop := String.leb a b = true.

#[global] Instance string_le_dec a b : Decision (string_le a b).
Proof. unfold string_le. apply _. Defined.

(** "verify all needed symbols are found": the first missing name, in the
    order of the set, is reported. *)
Definition verify_needed (needed_symbols : gset string)
    (global_symbol_table : gmap string Z) : outcome unit :=
  match
    find (λ name, bool_decide (global_symbol_table !! name = None))
      (merge_sort string_le (elements needed_symbols))
  with
  | Some name => Err (UndefinedSymbol name)
  | None => Ok tt
  end.

(** The result holds the active objects with their base addresses, the
    global symbol table, [total_text_size] and [total_data_size]. *)
Definition layout_and_define_symbols (objects : list LoadedObject)
    (global_symbol_table : gmap string Z)
    : outcome (list LoadedObject * gmap string Z * Z * Z) :=
  match resolve objects with
  | None => NoFuel
  | Some (needed_symbols, object_active) =>
      let objects := filter_active objects object_active in
      let total_text_size := total_size (λ obj, text_size (header obj)) objects in
      let total_data_size := total_size (λ obj, data_size (header obj)) objects in
      '(objects, gst) ← layout_loop needed_symbols objects 0 total_text_size
                           global_symbol_table;
      _ ← verify_needed needed_symbols gst;
      Ok (objects, gst, total_text_size, total_data_size)
  end.

(** ** Relocation engine ([apply_relocations]) *)

(** The word addressed by [&buf[off]]; [None] when one of its four bytes lies
    outside the buffer. *)
Definition read32 (buf : list byte) (off : Z) : option Z :=
  if (0 <=? off) && (off + 4 <=? Z.of_nat (length buf)) then
    Some (le32 (drop (Z.to_nat off) buf))
  else None.

Definition write32 (buf : list byte) (off : Z) (v : Z) : list byte :=
  take (Z.to_nat off) buf ++ bytes32 v ++ drop (Z.to_nat off + 4) buf.

Definition set_text_section (obj : LoadedObject) (text : list byte)
    : LoadedObject :=
  {| filename := filename obj; header := header obj;
     text_section := text; data_section := data_section obj;
     symbols := symbols obj; relocs := relocs obj;
     text_base_addr := text_base_addr obj;
     data_base_addr := data_base_addr obj |}.

(** The value computed before the patch ("Calculate value to write"). *)
Definition value_to_write (obj : LoadedObject) (reloc : RelocEntry)
    (target_addr : Z) : Z :=
  let patch_offset := reloc_offset reloc in
  let instruction_addr := wrap32 (text_base_addr obj + patch_offset) in
  if reloc_type reloc =? RELOC_ABSOLUTE then target_addr
  else if reloc_type reloc =? RELOC_RELATIVE then
    let offset := to_int32 (target_addr - instruction_addr) in
    wrap32 offset
  else 0.

(** The word stored by "Apply patch": a relative relocation keeps the top
    6 bits of the existing word and replaces the low 26; any other type
    overwrites the whole word. *)
Definition patch_word (reloc : RelocEntry) (existing value : Z) : Z :=
  if reloc_type reloc =? RELOC_RELATIVE then
    Z.lor (Z.land existing 0xFC000000) (Z.land value 0x03FFFFFF)
  else value.

(** The body of the inner loop: one relocation of one object.  The bounds
    check adds in [uint32_t]; the access [&obj.text_section[patch_offset]]
    is undefined when the word does not lie within the buffer. *)
Definition apply_reloc (global_symbol_table : gmap string Z)
    (obj : LoadedObject) (reloc : RelocEntry) : outcome LoadedObject :=
  match global_symbol_table !! reloc_symbol_name reloc with
  | None => Err (UndefinedSymbol (reloc_symbol_name reloc))
  | Some target_addr =>
      let patch_offset := reloc_offset reloc in
      if wrap32 (patch_offset + 4) >? Z.of_nat (length (text_section obj)) then
        Err (RelocationOutOfBounds (filename obj))
      else
        let value := value_to_write obj reloc target_addr in
        match read32 (text_section obj) patch_offset with
        | None => Undef
        | Some existing =>
            Ok (set_text_section obj
                  (write32 (text_section obj) patch_offset
                     (patch_word reloc existing value)))
        end
  end.

Fixpoint apply_relocs (global_symbol_table : gmap string Z)
    (obj : LoadedObject) (rs : list RelocEntry) : outcome LoadedObject :=
  match rs with
  | [] => Ok obj
  | reloc :: rs' =>
      obj1 ← apply_reloc global_symbol_table obj reloc;
      apply_relocs global_symbol_table obj1 rs'
  end.

Fixpoint apply_relocations (objects : list LoadedObject)
    (global_symbol_table : gmap string Z) : outcome (list LoadedObject) :=
  match objects with
  | [] => Ok []
  | obj :: objects' =>
      obj1 ← apply_relocs global_symbol_table obj (relocs obj);
      rest ← apply_relocations objects' global_symbol_table;
      Ok (obj1 :: rest)
  end.

(** ** Files *)

(** The file system as the linker sees it: the contents of the files that
    exist, and the paths that cannot be opened for writing. *)
Record World := {
  files : gmap string (list byte);
  unwritable : gset string
}.

(** An input stream: the bytes not yet read and the state of the stream.
    Once a read has come up short the stream is no longer good and every
    later read stores nothing. *)
Record istream := {
  remaining : list byte;
  good : bool
}.

(** [file.read(dst, n)]: the first [n] bytes of [dst] are replaced by the
    bytes read; on a short read only the bytes that were available are. *)
Definition read (n : nat) (dst : list byte) (s : istream)
    : list byte * istream :=
  if good s then
    if (n <=? length (remaining s))%nat then
      (take n (remaining s) ++ drop n dst,
       {| remaining := drop n (remaining s); good := true |})
    else
      (remaining s ++ drop (length (remaining s)) dst,
       {| remaining := []; good := false |})
  else (dst, s).

(** ** Object loader ([load_object_file]) *)

Definition ascii_of_byte (b : byte) : ascii := Ascii.ascii_of_byte b.

(** The C string that starts at the head of a byte sequence: the
    characters before the first NUL, as the constructor of [std::string]
    collects them from a character pointer. *)
Fixpoint cstring (bs : list byte) : string :=
  match bs with
  | [] => EmptyString
  | b :: bs' =>
      if Byte.eqb b x00 then EmptyString
      else String (ascii_of_byte b) (cstring bs')
  end.

Definition decode_header (bs : list byte) : FileHeader :=
  {| magic := le32 bs;
     text_size := le32 (drop 4 bs);
     data_size := le32 (drop 8 bs);
     symtable_count := le32 (drop 12 bs);
     reloc_count := le32 (drop 16 bs) |}.

(** A record of one of the two tables, decoded where it lies in its
    vector: [bs] is the storage of the vector from the first byte of the
    record on.  The numeric fields are the packed 32-bit members.  The name
    is the string that [sym.name] and [reloc.symbol_name] become where the
    code uses them as a [std::string]: the conversion takes the characters
    from the start of the field up to the first NUL, so that a 64-byte
    field holding no NUL is continued by the bytes of the packed members
    behind it (the type, then the next record).  The name of a symbol is
    converted only where its type is [SYMBOL_DEFINED], whose second byte
    is a NUL.  The name of a relocation ends within the vector unless no
    NUL follows in it at all; the string is then cut where the storage
    of the vector ends. *)
Definition decode_symbol (bs : list byte) : SymbolEntry :=
  {| sym_name := cstring bs;
     sym_type := le32 (drop 64 bs);
     sym_section := le32 (drop 68 bs);
     sym_offset := le32 (drop 72 bs) |}.

Definition decode_reloc (bs : list byte) : RelocEntry :=
  {| reloc_offset := le32 bs;
     reloc_symbol_name := cstring (drop 4 bs);
     reloc_type := le32 (drop 68 bs) |}.

(** An array of [count] records of [size] bytes each, laid over a buffer:
    the positions of the records, each as the buffer from its first byte
    on. *)
Fixpoint records (count size : nat) (bs : list byte) : list (list byte) :=
  match count with
  | O => []
  | S count' => bs :: records count' size (drop size bs)
  end.

(** [v.resize(n)] on an empty vector followed by [file.read(v.data(), n)]
    when [n > 0]. *)
Definition read_vector (n : nat) (s : istream) : list byte * istream :=
  if (0 <? n)%nat then read n (replicate n x00) s else ([], s).

(** [obj.header] is not initialised before the header is read, so a file
    that ends inside a field that is then used leaves the behaviour
    undefined. *)
Definition load_object_file (path : string) (w : World)
    : outcome LoadedObject :=
  match files w !! path with
  | None => Err (CouldNotOpen path)
  | Some contents =>
      let file := {| remaining := contents; good := true |} in
      if (length contents <? 4)%nat then Undef
      else
        let '(hdr, file) := read sizeof_FileHeader
                              (replicate sizeof_FileHeader x00) file in
        if negb (le32 hdr =? LINKER_MAGIC) then Err (InvalidFormat path)
        else if (length contents <? sizeof_FileHeader)%nat then Undef
        else
          let header := decode_header hdr in
          let '(text, file) := read_vector (Z.to_nat (text_size header)) file in
          let '(data, file) := read_vector (Z.to_nat (data_size header)) file in
          let nsyms := Z.to_nat (symtable_count header) in
          let '(syms, file) :=
            read_vector (nsyms * sizeof_SymbolEntry) file in
          let nrelocs := Z.to_nat (reloc_count header) in
          let '(rels, file) :=
            read_vector (nrelocs * sizeof_RelocEntry) file in
          Ok {| filename := path; header := header;
                text_section := text; data_section := data;
                symbols :=
                  decode_symbol <$> records nsyms sizeof_SymbolEntry syms;
                relocs :=
                  decode_reloc <$> records nrelocs sizeof_RelocEntry rels;
                text_base_addr := 0; data_base_addr := 0 |}
  end.

(** ** Image writer ([write_output]) *)

(** The bytes written to the stream by the two loops. *)
Definition image (objects : list LoadedObject) : list byte :=
  let out := foldl (λ out obj, out ++ text_section obj) [] objects in
  foldl (λ out obj, out ++ data_section obj) out objects.

(** On success the result is the summary printed on the standard output:
    [total_text_size] and [total_data_size]. *)
Definition write_output (output_path : string) (objects : list LoadedObject)
    (total_text_size total_data_size : Z) (w : World)
    : outcome (Z * Z) * World :=
  if bool_decide (output_path ∈ unwritable w) then
    (Err (OutputWriteError output_path), w)
  else
    (Ok (total_text_size, total_data_size),
     {| files := <[output_path := image objects]> (files w);
        unwritable := unwritable w |}).

(** ** The driver ([link_objects]) *)

(** "Pass 0: Load all files". *)
Fixpoint load_objects (input_files : list string) (w : World)
    : outcome (list LoadedObject) :=
  match input_files with
  | [] => Ok []
  | path :: input_files' =>
      obj ← load_object_file path w;
      rest ← load_objects input_files' w;
      Ok (obj :: rest)
  end.

(** A stage of the pipeline: its failure ends the run and leaves the files
    as they are. *)
Definition stage {A B} (m : outcome A) (w : World)
    (k : A → outcome B * World) : outcome B * World :=
  match m with
  | Ok a => k a
  | Err e => (Err e, w)
  | Undef => (Undef, w)
  | NoFuel => (NoFuel, w)
  end.

Definition link_objects (input_files : list string) (output_path : string)
    (w : World) : outcome (Z * Z) * World :=
  stage (load_objects input_files w) w (λ objects,
  stage (layout_and_define_symbols objects ∅) w
    (λ '(objects, global_symbol_table, total_text_size, total_data_size),
  stage (apply_relocations objects global_symbol_table) w (λ objects,
  write_output output_path objects total_text_size total_data_size w))).

(** * Specification-side definitions *)

(** ** Reachability, as the specification words it

    The needed set is the least set that contains the entry symbol and the
    relocation names of every module exporting a needed symbol; a module is
    reachable when it exports a needed symbol. *)

Inductive reachable_symbol (objects : list LoadedObject) : string → Prop :=
  | reachable_entry : reachable_symbol objects ENTRY_SYMBOL
  | reachable_reloc obj sym reloc :
      obj ∈ objects →
      sym ∈ symbols obj →
      sym_type sym = SYMBOL_DEFINED →
      reachable_symbol objects (sym_name sym) →
      reloc ∈ relocs obj →
      reachable_symbol objects (reloc_symbol_name reloc).

Definition reachable_module (objects : list LoadedObject) (obj : LoadedObject)
    : Prop :=
  ∃ sym, sym ∈ symbols obj ∧ sym_type sym = SYMBOL_DEFINED
         ∧ reachable_symbol objects (sym_name sym).

(** ** The measure of the resolution loop *)

(** The symbol names that relocations of the inputs mention. *)
Definition reloc_names (objects : list LoadedObject) : gset string :=
  ⋃ ((λ obj, list_to_set (reloc_symbol_name <$> relocs obj)) <$> objects).

(** The number of objects not yet active. *)
Definition inactive (object_active : list bool) : nat :=
  length (filter (λ a, a = false) object_active).

(** What the loop can still do: activate an inactive object or add a
    relocation name that is not needed yet. *)
Definition resolve_measure (objects : list LoadedObject)
    (needed_symbols : gset string) (object_active : list bool) : nat :=
  (inactive object_active + size (reloc_names objects ∖ needed_symbols))%nat.

(** An active object stays active. *)
Definition active_le (active active' : list bool) : Prop :=
  Forall2 (λ a a', a = true → a' = true) active active'.

(** ** Invariants of the resolution loop *)

(** Everything the loop has marked so far is reachable. *)
Definition marks_sound (objects : list LoadedObject) (needed : gset string)
    (active : list bool) : Prop :=
  length active = length objects
  ∧ ENTRY_SYMBOL ∈ needed
  ∧ (∀ n, n ∈ needed → reachable_symbol objects n)
  ∧ (∀ i obj, objects !! i = Some obj → active !! i = Some true →
       reachable_module objects obj).

(** Nothing is left to mark: the two passes would change nothing. *)
Definition marks_closed (objects : list LoadedObject) (needed : gset string)
    (active : list bool) : Prop :=
  (∀ i obj, objects !! i = Some obj → active !! i = Some false →
     provides needed obj = false)
  ∧ (∀ i obj reloc, objects !! i = Some obj → active !! i = Some true →
       reloc ∈ relocs obj → reloc_symbol_name reloc ∈ needed).

(** ** Sizes and well-formed objects *)

(** The sum of a size over a list of objects, as a mathematical integer. *)
Definition sum_sizes (size : LoadedObject → Z) (objects : list LoadedObject)
    : Z :=
  foldr (λ obj acc, size obj + acc) 0 objects.

Definition code_size (obj : LoadedObject) : Z := text_size (header obj).
Definition data_size_of (obj : LoadedObject) : Z := data_size (header obj).

(** An object as the loader builds it: the sections have the sizes the
    header declares. *)
Definition well_formed (obj : LoadedObject) : Prop :=
  text_size (header obj) = Z.of_nat (length (text_section obj))
  ∧ data_size (header obj) = Z.of_nat (length (data_section obj)).

(** The names among [syms] that the binder inserts into the table: those of
    the defined symbols that are needed, in symbol-table order. *)
Definition needed_names (needed_symbols : gset string)
    (syms : list SymbolEntry) : list string :=
  sym_name <$>
    filter (λ sym, sym_type sym = SYMBOL_DEFINED
                   ∧ sym_name sym ∈ needed_symbols) syms.

(** ** Layout by concatenation, as the specification words it for the
    32-bit address space

    The live modules are the active ones in input order; the i-th live
    module's code base is the sum of the code sizes before it and its data
    base is the total code size plus the sum of the data sizes before it,
    all modulo 2^32; for well-formed modules whose code and data total
    less than 2^32 bytes these are the plain sums. *)
Definition concatenation_layout (objects live : list LoadedObject)
    (total_text_size total_data_size : Z) : Prop :=
  ∃ needed active,
    let kept := filter_active objects active in
    resolve objects = Some (needed, active)
    ∧ sublist kept objects
    ∧ length live = length kept
    ∧ total_text_size = wrap32 (sum_sizes code_size kept)
    ∧ total_data_size = wrap32 (sum_sizes data_size_of kept)
    ∧ (∀ i obj, kept !! i = Some obj →
         ∃ obj', live !! i = Some obj'
           ∧ obj' = set_base_addrs obj (text_base_addr obj')
                      (data_base_addr obj')
           ∧ text_base_addr obj'
             = wrap32 (sum_sizes code_size (take i kept))
           ∧ data_base_addr obj'
             = wrap32 (wrap32 (sum_sizes code_size kept)
                       + sum_sizes data_size_of (take i kept))
           ∧ (Forall well_formed objects →
              sum_sizes code_size kept + sum_sizes data_size_of kept < 2 ^ 32 →
              total_text_size = sum_sizes code_size kept
              ∧ text_base_addr obj' = sum_sizes code_size (take i kept)
              ∧ data_base_addr obj'
                = sum_sizes code_size kept
                  + sum_sizes data_size_of (take i kept))).

(** ** Example objects *)

Definition mk_header (ts ds : Z) (nsyms nrelocs : nat) : FileHeader :=
  {| magic := LINKER_MAGIC; text_size := ts; data_size := ds;
     symtable_count := Z.of_nat nsyms; reloc_count := Z.of_nat nrelocs |}.

(** An object as loaded from a file whose header declares [ts] bytes of
    code and [ds] bytes of data. *)
Definition mk_object (name : string) (ts : Z) (text : list byte) (ds : Z)
    (data : list byte) (syms : list SymbolEntry) (rels : list RelocEntry)
    : LoadedObject :=
  {| filename := name; header := mk_header ts ds (length syms) (length rels);
     text_section := text; data_section := data;
     symbols := syms; relocs := rels;
     text_base_addr := 0; data_base_addr := 0 |}.

Definition export (name : string) (section offset : Z) : SymbolEntry :=
  {| sym_name := name; sym_type := SYMBOL_DEFINED;
     sym_section := section; sym_offset := offset |}.

Definition import (name : string) : SymbolEntry :=
  {| sym_name := name; sym_type := SYMBOL_UNDEFINED;
     sym_section := SECTION_TEXT; sym_offset := 0 |}.

Definition reloc (offset : Z) (name : string) (type : Z) : RelocEntry :=
  {| reloc_offset := offset; reloc_symbol_name := name; reloc_type := type |}.

Definition zeros (n : nat) : list byte := replicate n x00.

(** The two modules of the specification's scenario, and a third one that
    nothing refers to. *)
Definition scenario_A : LoadedObject :=
  mk_object "a.o" 4 (zeros 4) 0 []
    [export "__START__" SECTION_TEXT 0; import "helper"]
    [reloc 0 "helper" RELOC_RELATIVE].

Definition scenario_B : LoadedObject :=
  mk_object "b.o" 4 (zeros 4) 0 [] [export "helper" SECTION_TEXT 0] [].

Definition scenario_C : LoadedObject :=
  mk_object "c.o" 4 (zeros 4) 2 (zeros 2) [export "other" SECTION_DATA 0] [].

(** Modules whose code adds up to more than the 32-bit address space: two
    modules of 2 GiB of code each, and a small entry module that calls
    both. *)
Definition big_module (name symbol : string) (text : list byte)
    : LoadedObject :=
  mk_object name 2147483648 text 0 [] [export symbol SECTION_TEXT 0] [].

Definition big_main : LoadedObject :=
  mk_object "main.o" 8 (zeros 8) 0 []
    [export "__START__" SECTION_TEXT 0]
    [reloc 0 "f" RELOC_ABSOLUTE; reloc 4 "g" RELOC_ABSOLUTE].

Definition big_text : list byte := replicate (Z.to_nat 2147483648) x00.

(** The three modules, for any contents of the two big ones; the live
    modules after layout; the modules after relocation. *)
Definition big_inputs (text : list byte) : list LoadedObject :=
  [big_module "f.o" "f" text; big_module "g.o" "g" text; big_main].

Definition big_live (text : list byte) : list LoadedObject :=
  [set_base_addrs (big_module "f.o" "f" text) 0 8;
   set_base_addrs (big_module "g.o" "g" text) 2147483648 8;
   set_base_addrs big_main 0 8].

Definition big_patched (text : list byte) : list LoadedObject :=
  [set_base_addrs (big_module "f.o" "f" text) 0 8;
   set_base_addrs (big_module "g.o" "g" text) 2147483648 8;
   set_text_section (set_base_addrs big_main 0 8)
     [x00; x00; x00; x00; x00; x00; x00; x80]].

Definition big_objects : list LoadedObject := big_inputs big_text.

(** Two live modules that export the same name, [shared], which nothing
    needs; and two that both export the entry symbol. *)
Definition dup_A : LoadedObject :=
  mk_object "a.o" 4 (zeros 4) 0 []
    [export "__START__" SECTION_TEXT 0; export "shared" SECTION_TEXT 0]
    [reloc 0 "helper" RELOC_ABSOLUTE].

Definition dup_B : LoadedObject :=
  mk_object "b.o" 4 (zeros 4) 0 []
    [export "helper" SECTION_TEXT 0; export "shared" SECTION_TEXT 0] [].

Definition dup_entry : LoadedObject :=
  mk_object "e.o" 4 (zeros 4) 0 [] [export "__START__" SECTION_TEXT 0] [].

(** ** Object files for the examples *)

(** A name field: the characters of the name, NUL-padded to 64 bytes. *)
Definition encode_name (s : string) : list byte :=
  take 64 (list_byte_of_string s ++ replicate 64 x00).

Definition encode_header (h : FileHeader) : list byte :=
  bytes32 (magic h) ++ bytes32 (text_size h) ++ bytes32 (data_size h)
  ++ bytes32 (symtable_count h) ++ bytes32 (reloc_count h).

Definition encode_symbol (sym : SymbolEntry) : list byte :=
  encode_name (sym_name sym) ++ bytes32 (sym_type sym)
  ++ bytes32 (sym_section sym) ++ bytes32 (sym_offset sym).

Definition encode_reloc (r : RelocEntry) : list byte :=
  bytes32 (reloc_offset r) ++ encode_name (reloc_symbol_name r)
  ++ bytes32 (reloc_type r).

(** The tables that follow the two sections in an object file. *)
Definition encode_tables (obj : LoadedObject) : list byte :=
  concat (encode_symbol <$> symbols obj) ++ concat (encode_reloc <$> relocs obj).

Definition encode_object (obj : LoadedObject) : list byte :=
  encode_header (header obj) ++ text_section obj ++ data_section obj
  ++ encode_tables obj.

(** A file system holding the files of the given objects, each under its
    file name, in which every path can be written. *)
Definition world_of (objects : list LoadedObject) : World :=
  {| files := list_to_map ((λ obj, (filename obj, encode_object obj))
                             <$> objects);
     unwritable := ∅ |}.

(** ** What the relocation engine may change *)

(** Two objects that differ at most in the contents of their code bytes. *)
Definition same_but_code (obj obj' : LoadedObject) : Prop :=
  filename obj' = filename obj
  ∧ header obj' = header obj
  ∧ data_section obj' = data_section obj
  ∧ symbols obj' = symbols obj
  ∧ relocs obj' = relocs obj
  ∧ text_base_addr obj' = text_base_addr obj
  ∧ data_base_addr obj' = data_base_addr obj
  ∧ length (text_section obj') = length (text_section obj).

(** The byte at index [k] lies outside the 4-byte window of [reloc]. *)
Definition outside_window (k : nat) (reloc : RelocEntry) : Prop :=
  Z.of_nat k < reloc_offset reloc ∨ reloc_offset reloc + 4 ≤ Z.of_nat k.

(** The windows of two relocations do not overlap. *)
Definition disjoint_windows (r r' : RelocEntry) : Prop :=
  reloc_offset r' + 4 ≤ reloc_offset r ∨ reloc_offset r + 4 ≤ reloc_offset r'.

(** A module with two relocations on the same word. *)
Definition overlap_module : LoadedObject :=
  mk_object "m.o" 8 (zeros 8) 0 []
    [export "__START__" SECTION_TEXT 0; export "x" SECTION_TEXT 4]
    [reloc 0 "x" RELOC_ABSOLUTE; reloc 0 "__START__" RELOC_ABSOLUTE].

(** A module with a relocation whose offset is four bytes below 2^32. *)
Definition wrap_module : LoadedObject :=
  mk_object "w.o" 4 (zeros 4) 0 []
    [export "__START__" SECTION_TEXT 0]
    [reloc 4294967292 "__START__" RELOC_ABSOLUTE].

(** The word at the site of relocation [r] after the engine has turned
    [obj] into [obj'], as the specification gives it for the two kinds. *)
Definition patched_site (gst : gmap string Z) (obj obj' : LoadedObject)
    (r : RelocEntry) : Prop :=
  ∃ target existing,
    gst !! reloc_symbol_name r = Some target
    ∧ read32 (text_section obj) (reloc_offset r) = Some existing
    ∧ (reloc_type r = RELOC_ABSOLUTE →
       read32 (text_section obj') (reloc_offset r) = Some target)
    ∧ (reloc_type r = RELOC_RELATIVE →
       read32 (text_section obj') (reloc_offset r)
       = Some (Z.lor (Z.land existing 0xFC000000)
                 (Z.land (target - (text_base_addr obj + reloc_offset r))
                    0x03FFFFFF))).

(** ** Short reads *)

(** The contents of a zero-initialised buffer of [n] bytes after reading
    into it from a stream that holds [bs]: the bytes that were there,
    zeros where the stream ran out. *)
Definition padded (n : nat) (bs : list byte) : list byte :=
  take n (bs ++ replicate n x00).

(** A file that declares 4 bytes of code and holds 2. *)
Definition truncated_file : list byte :=
  encode_header (mk_header 4 0 0 0) ++ [x01; x02].

Definition truncated_world : World :=
  {| files := {["t.o" := truncated_file]}; unwritable := ∅ |}.

(** What the loader makes of the contents of a file with a complete
    header: the declared number of bytes and records, read in the fixed
    order, from what the file holds. *)
Definition loaded_from (contents : list byte) (obj : LoadedObject) : Prop :=
  let h := decode_header contents in
  let ts := Z.to_nat (text_size h) in
  let ds := Z.to_nat (data_size h) in
  let ns := Z.to_nat (symtable_count h) in
  let nr := Z.to_nat (reloc_count h) in
  let rest := drop sizeof_FileHeader contents in
  header obj = h
  ∧ text_section obj = padded ts rest
  ∧ data_section obj = padded ds (drop ts rest)
  ∧ symbols obj
    = decode_symbol <$>
        records ns sizeof_SymbolEntry
          (padded (ns * sizeof_SymbolEntry) (drop ds (drop ts rest)))
  ∧ relocs obj
    = decode_reloc <$>
        records nr sizeof_RelocEntry
          (padded (nr * sizeof_RelocEntry)
             (drop (ns * sizeof_SymbolEntry) (drop ds (drop ts rest))))
  ∧ length (text_section obj) = ts
  ∧ length (data_section obj) = ds
  ∧ length (symbols obj) = ns
  ∧ length (relocs obj) = nr.

(** The fields of a header are 32-bit values. *)
Definition header_in_range (h : FileHeader) : Prop :=
  0 ≤ magic h < 2 ^ 32 ∧ 0 ≤ text_size h < 2 ^ 32
  ∧ 0 ≤ data_size h < 2 ^ 32 ∧ 0 ≤ symtable_count h < 2 ^ 32
  ∧ 0 ≤ reloc_count h < 2 ^ 32.

(** ** The output image, as the specification words it

    After a successful link the output file holds the code bytes of the
    patched live modules in load order followed by their data bytes, and
    nothing else; its length is the sum of the live modules' code and data
    sizes; the two 32-bit totals are these sums modulo 2^32, so that the
    length is their sum whenever the sums are below 2^32. *)
Definition flat_image (w' : World) (output_path : string)
    (live patched : list LoadedObject) (total_text_size total_data_size : Z)
    : Prop :=
  ∃ output,
    files w' !! output_path = Some output
    ∧ output = concat (text_section <$> patched)
               ++ concat (data_section <$> patched)
    ∧ Z.of_nat (length output)
      = sum_sizes code_size live + sum_sizes data_size_of live
    ∧ total_text_size = wrap32 (sum_sizes code_size live)
    ∧ total_data_size = wrap32 (sum_sizes data_size_of live)
    ∧ (sum_sizes code_size live < 2 ^ 32 →
       sum_sizes data_size_of live < 2 ^ 32 →
       Z.of_nat (length output) = total_text_size + total_data_size).

(** ** The command line ([src/main.cpp]) *)

(** [argv] holds the program name, the output path and the input paths;
    the result is the exit status.  An undefined or cut-short run of the
    linker has no exit status. *)
Definition main (argv : list string) (w : World) : outcome Z * World :=
  match argv with
  | _ :: output_path :: input1 :: inputs =>
      match link_objects (input1 :: inputs) output_path w with
      | (Ok _, w') => (Ok 0, w')
      | (Err _, w') => (Ok 1, w')
      | (Undef, w') => (Undef, w')
      | (NoFuel, w') => (NoFuel, w')
      end
  | _ => (Ok 1, w)
  end.

(** The window of a relocation lies within the code of its object. *)
Definition window_in_code (obj : LoadedObject) (r : RelocEntry) : Prop :=
  0 ≤ reloc_offset r
  ∧ reloc_offset r + 4 ≤ Z.of_nat (length (text_section obj)).

(** A module whose only relocation has a type the format does not define;
    its code is not zero to begin with. *)
Definition unknown_type_module : LoadedObject :=
  mk_object "u.o" 4 [xff; xff; xff; xff] 0 []
    [export "__START__" SECTION_TEXT 0] [reloc 0 "__START__" 7].

(** The windows of the relocations of a table are pairwise disjoint. *)
Fixpoint pairwise_disjoint (rs : list RelocEntry) : Prop :=
  match rs with
  | [] => True
  | r :: rs' => Forall (disjoint_windows r) rs' ∧ pairwise_disjoint rs'
  end.

(** A module with three relocations on three different words. *)
Definition three_relocs : LoadedObject :=
  set_base_addrs
    (mk_object "t.o" 12 (zeros 12) 0 []
       [export "__START__" SECTION_TEXT 0; export "x" SECTION_TEXT 8]
       [reloc 0 "x" RELOC_ABSOLUTE; reloc 4 "x" RELOC_RELATIVE;
        reloc 8 "__START__" RELOC_ABSOLUTE])
    16 0.

(** ** Objects that an object file can hold *)

(** A name fits a 64-byte field with its terminator and has no NUL
    character. *)
Definition encodable_name (s : string) : Prop :=
  (String.length s < 64)%nat
  ∧ Forall (λ a, a ≠ Ascii.zero) (list_ascii_of_string s).

Definition uint32 (z : Z) : Prop := 0 ≤ z < 2 ^ 32.

Definition encodable_symbol (sym : SymbolEntry) : Prop :=
  encodable_name (sym_name sym) ∧ uint32 (sym_type sym)
  ∧ uint32 (sym_section sym) ∧ uint32 (sym_offset sym).

Definition encodable_reloc (r : RelocEntry) : Prop :=
  uint32 (reloc_offset r) ∧ encodable_name (reloc_symbol_name r)
  ∧ uint32 (reloc_type r).

(** The header carries the magic number and describes the sections and
    tables of the object; all fields and names fit the format. *)
Definition encodable (obj : LoadedObject) : Prop :=
  magic (header obj) = LINKER_MAGIC
  ∧ header_in_range (header obj)
  ∧ well_formed obj
  ∧ symtable_count (header obj) = Z.of_nat (length (symbols obj))
  ∧ reloc_count (header obj) = Z.of_nat (length (relocs obj))
  ∧ Forall encodable_symbol (symbols obj)
  ∧ Forall encodable_reloc (relocs obj).

(** ** A module in the output

    [p] is the module [obj] as the linker hands it on and writes it out:
    the same file name, header, data, symbols and relocations, and as many
    code bytes; the base addresses are assigned by the layout and the code
    bytes in the relocation windows are patched. *)
Definition kept_as (obj p : LoadedObject) : Prop :=
  filename p = filename obj
  ∧ header p = header obj
  ∧ length (text_section p) = length (text_section obj)
  ∧ data_section p = data_section obj
  ∧ symbols p = symbols obj
  ∧ relocs p = relocs obj.

(** * Properties *)

(** ** Machine integers and byte buffers *)

Lemma wrap32_range z : 0 ≤ wrap32 z < 2 ^ 32.
Proof. unfold wrap32. apply Z.mod_pos_bound. lia. Qed.

Lemma wrap32_small z : 0 ≤ z < 2 ^ 32 → wrap32 z = z.
Proof. intros. unfold wrap32. by apply Z.mod_small. Qed.

Lemma wrap32_idemp z : wrap32 (wrap32 z) = wrap32 z.
Proof. apply wrap32_small, wrap32_range. Qed.

Lemma wrap32_add_l a b : wrap32 (wrap32 a + b) = wrap32 (a + b).
Proof. unfold wrap32. by rewrite Zplus_mod_idemp_l. Qed.

Lemma wrap32_to_int32 z : wrap32 (to_int32 z) = wrap32 z.
Proof.
  unfold to_int32. destruct (wrap32 z <? 2 ^ 31); [apply wrap32_idemp|].
  unfold wrap32. rewrite <- (Z.mod_add _ 1) by lia.
  replace (z mod 2 ^ 32 - 2 ^ 32 + 1 * 2 ^ 32) with (z mod 2 ^ 32) by lia.
  apply Z.mod_mod. lia.
Qed.

Lemma byte_to_Z_range b : 0 ≤ byte_to_Z b < 256.
Proof.
  unfold byte_to_Z. pose proof (Byte.to_N_bounded b). lia.
Qed.

Lemma byte_to_of_Z z : byte_to_Z (byte_of_Z z) = z mod 256.
Proof.
  unfold byte_to_Z, byte_of_Z.
  pose proof (Z.mod_pos_bound z 256 eq_refl) as Hr.
  destruct (Byte.of_N (Z.to_N (z mod 256))) as [b|] eqn:Hb.
  - apply Byte.to_of_N in Hb. rewrite Hb. lia.
  - apply Byte.of_N_None_iff in Hb. lia.
Qed.

Lemma le32_range bs : 0 ≤ le32 bs < 2 ^ 32.
Proof.
  unfold le32. destruct bs as [|b0 [|b1 [|b2 [|b3 ?]]]]; try lia.
  pose proof (byte_to_Z_range b0). pose proof (byte_to_Z_range b1).
  pose proof (byte_to_Z_range b2). pose proof (byte_to_Z_range b3). lia.
Qed.

Lemma le32_bytes32 v rest : le32 (bytes32 v ++ rest) = wrap32 v.
Proof.
  unfold le32, bytes32, wrap32. cbn [app]. rewrite !byte_to_of_Z.
  pose proof (Z.mod_pos_bound v 256 eq_refl).
  pose proof (Z.mod_pos_bound (v / 2 ^ 8) 256 eq_refl).
  pose proof (Z.mod_pos_bound (v / 2 ^ 16) 256 eq_refl).
  pose proof (Z.mod_pos_bound (v / 2 ^ 24) 256 eq_refl).
  pose proof (Z.mod_pos_bound v (2 ^ 32) eq_refl).
  pose proof (Z.div_mod v 256 ltac:(lia)).
  pose proof (Z.div_mod (v / 2 ^ 8) 256 ltac:(lia)).
  pose proof (Z.div_mod (v / 2 ^ 16) 256 ltac:(lia)).
  pose proof (Z.div_mod (v / 2 ^ 24) 256 ltac:(lia)).
  pose proof (Z.div_mod v (2 ^ 32) ltac:(lia)).
  replace (v / 2 ^ 16) with (v / 2 ^ 8 / 256) in *
    by (rewrite Z.div_div by lia; f_equal).
  replace (v / 2 ^ 24) with (v / 2 ^ 8 / 256 / 256) in *
    by (rewrite !Z.div_div by lia; f_equal).
  replace (v / 2 ^ 32) with (v / 2 ^ 8 / 256 / 256 / 256) in *
    by (rewrite !Z.div_div by lia; f_equal).
  change (2 ^ 8) with 256 in *. lia.
Qed.

Lemma length_bytes32 v : length (bytes32 v) = 4%nat.
Proof. reflexivity. Qed.

Lemma length_write32 buf off v :
  0 ≤ off → off + 4 ≤ Z.of_nat (length buf) →
  length (write32 buf off v) = length buf.
Proof.
  intros. unfold write32.
  rewrite !length_app, length_take, length_drop, length_bytes32. lia.
Qed.

Lemma read32_Some buf off w :
  read32 buf off = Some w →
  0 ≤ off ∧ off + 4 ≤ Z.of_nat (length buf)
  ∧ w = le32 (drop (Z.to_nat off) buf).
Proof.
  unfold read32. intros H.
  destruct (0 <=? off) eqn:E0; [|done].
  destruct (off + 4 <=? Z.of_nat (length buf)) eqn:E1; [|done].
  simplify_eq/=. lia.
Qed.

Lemma read32_in_bounds buf off :
  0 ≤ off → off + 4 ≤ Z.of_nat (length buf) →
  read32 buf off = Some (le32 (drop (Z.to_nat off) buf)).
Proof.
  intros Hlo Hhi. unfold read32.
  destruct (0 <=? off) eqn:E0; [|lia].
  destruct (off + 4 <=? Z.of_nat (length buf)) eqn:E1; [done|lia].
Qed.

(** Reading back the word that was just written. *)
Lemma read32_write32 buf off v :
  0 ≤ off → off + 4 ≤ Z.of_nat (length buf) →
  read32 (write32 buf off v) off = Some (wrap32 v).
Proof.
  intros. rewrite read32_in_bounds by (rewrite ?length_write32; lia).
  f_equal. unfold write32.
  rewrite drop_app_length' by (rewrite length_take; lia).
  apply le32_bytes32.
Qed.

(** A byte outside the window keeps its value. *)
Lemma write32_lookup_other buf off v (k : nat) :
  0 ≤ off → off + 4 ≤ Z.of_nat (length buf) →
  Z.of_nat k < off ∨ off + 4 ≤ Z.of_nat k →
  write32 buf off v !! k = buf !! k.
Proof.
  intros ? ? Hk. unfold write32. destruct Hk.
  - rewrite lookup_app_l by (rewrite length_take; lia).
    apply lookup_take_lt. lia.
  - rewrite lookup_app_r by (rewrite length_take; lia).
    rewrite lookup_app_r by (rewrite length_take, length_bytes32; lia).
    rewrite lookup_drop, length_take, length_bytes32. f_equal. lia.
Qed.

Lemma le32_ext (bs bs' : list byte) :
  (∀ k, (k < 4)%nat → bs !! k = bs' !! k) → le32 bs = le32 bs'.
Proof.
  intros H.
  pose proof (H 0%nat ltac:(lia)) as H0. pose proof (H 1%nat ltac:(lia)) as H1.
  pose proof (H 2%nat ltac:(lia)) as H2. pose proof (H 3%nat ltac:(lia)) as H3.
  destruct bs as [|a0 [|a1 [|a2 [|a3 ?]]]], bs' as [|c0 [|c1 [|c2 [|c3 ?]]]];
    simplify_eq/=; done.
Qed.

(** A word whose window is disjoint from the written one keeps its value. *)
Lemma read32_write32_other buf off v off' :
  0 ≤ off → off + 4 ≤ Z.of_nat (length buf) →
  off' + 4 ≤ off ∨ off + 4 ≤ off' →
  read32 (write32 buf off v) off' = read32 buf off'.
Proof.
  intros Hlo Hhi Hd. unfold read32. rewrite length_write32 by lia.
  destruct (0 <=? off') eqn:E0; [|done].
  destruct (off' + 4 <=? Z.of_nat (length buf)) eqn:E1; [|done].
  cbn. f_equal. apply le32_ext. intros k Hk.
  rewrite !lookup_drop. apply write32_lookup_other; lia.
Qed.

(** ** The resolution loop: monotonicity, bound, termination *)

Lemma provides_true needed_symbols obj :
  provides needed_symbols obj = true ↔
  ∃ sym, sym ∈ symbols obj ∧ sym_type sym = SYMBOL_DEFINED
         ∧ sym_name sym ∈ needed_symbols.
Proof.
  unfold provides. rewrite existsb_exists. split.
  - intros (sym & Hin & H). apply andb_true_iff in H as [Ht Hn].
    exists sym. rewrite list_elem_of_In.
    apply Z.eqb_eq in Ht. apply bool_decide_eq_true in Hn. done.
  - intros (sym & Hin & Ht & Hn). exists sym.
    rewrite <- list_elem_of_In. split; [done|].
    apply andb_true_iff. split; [by apply Z.eqb_eq|by apply bool_decide_eq_true].
Qed.

Lemma provides_mono needed needed' obj :
  needed ⊆ needed' → provides needed obj = true → provides needed' obj = true.
Proof.
  rewrite !provides_true. intros Hsub (sym & ? & ? & ?).
  exists sym. set_solver.
Qed.

Lemma inactive_cons a active :
  inactive (a :: active) = ((if a then 0 else 1) + inactive active)%nat.
Proof.
  unfold inactive. rewrite filter_cons. destruct a; case_decide; done.
Qed.

Lemma inactive_replicate n : inactive (replicate n false) = n.
Proof.
  induction n as [|n IH]; [done|]. cbn [replicate].
  rewrite inactive_cons, IH. done.
Qed.

(** Pass 1 only activates; it reports a change exactly when it activated. *)
Lemma activate_pass_spec needed objects : ∀ active changed active1 changed1,
  activate_pass needed objects active changed = (active1, changed1) →
  active_le active active1
  ∧ (inactive active1 ≤ inactive active)%nat
  ∧ (changed = true → changed1 = true)
  ∧ (changed1 = true → changed = true ∨ (inactive active1 < inactive active)%nat)
  ∧ (changed1 = false → active1 = active).
Proof.
  assert (Hrefl : ∀ l, active_le l l).
  { intros l. apply Forall2_same_length_lookup_2; [done|naive_solver]. }
  induction objects as [|obj objects IH]; intros active changed active1 changed1 H.
  - assert (active1 = active ∧ changed1 = changed) as [-> ->]
      by (destruct active; simplify_eq/=; done).
    split_and!; auto.
  - destruct active as [|a active].
    { simplify_eq/=. split_and!; auto. }
    cbn [activate_pass] in H.
    destruct a; [|destruct (provides needed obj)];
      match type of H with
      | context [activate_pass ?n ?o ?a ?c] =>
          destruct (activate_pass n o a c) as [rest c1] eqn:E
      end; simplify_eq;
      destruct (IH _ _ _ _ E) as (Hle & Hin & Hc & Hd & He);
      rewrite !inactive_cons.
    + split_and!; [by constructor|lia|auto| |].
      * intros Hc1. destruct (Hd Hc1); [auto|right; lia].
      * intros Hc1. by rewrite (He Hc1).
    + split_and!; [by constructor|lia|auto| |].
      * intros _. right. lia.
      * intros Hc1. rewrite Hc in Hc1; done.
    + split_and!; [by constructor|lia|auto| |].
      * intros Hc1. destruct (Hd Hc1); [auto|right; lia].
      * intros Hc1. by rewrite (He Hc1).
Qed.

(** The inner loop of pass 2 only adds names of the relocations it visits. *)
Lemma demand_relocs_spec rs : ∀ needed changed needed1 changed1,
  demand_relocs rs needed changed = (needed1, changed1) →
  needed1 = needed ∪ list_to_set (reloc_symbol_name <$> rs)
  ∧ (changed = true → changed1 = true)
  ∧ (changed1 = true → changed = true ∨ ∃ x, x ∈ needed1 ∧ x ∉ needed)
  ∧ (changed1 = false → needed1 = needed).
Proof.
  induction rs as [|r rs IH]; intros needed changed needed1 changed1 H.
  - simplify_eq/=. split_and!; [|auto..].
    by rewrite (right_id_L ∅ (∪)).
  - cbn [demand_relocs] in H. rewrite fmap_cons, list_to_set_cons.
    set (names := list_to_set (reloc_symbol_name <$> rs)) in *.
    clearbody names. case_bool_decide as Hin.
    + destruct (IH _ _ _ _ H) as (-> & Hc & Hd & He).
      split_and!; [clear -Hin; set_solver|auto..].
    + destruct (IH _ _ _ _ H) as (-> & Hc & Hd & He).
      split_and!; [clear; set_solver|auto| |].
      * intros _. right. exists (reloc_symbol_name r).
        split; [clear; set_solver|done].
      * intros Hc1. rewrite Hc in Hc1; done.
Qed.

Lemma demand_pass_spec objects : ∀ active needed changed needed1 changed1,
  demand_pass objects active needed changed = (needed1, changed1) →
  needed ⊆ needed1
  ∧ needed1 ⊆ needed ∪ reloc_names objects
  ∧ (changed = true → changed1 = true)
  ∧ (changed1 = true → changed = true ∨ ∃ x, x ∈ needed1 ∧ x ∉ needed)
  ∧ (changed1 = false → needed1 = needed).
Proof.
  induction objects as [|obj objects IH];
    intros active needed changed needed1 changed1 H.
  - assert (needed1 = needed ∧ changed1 = changed) as [-> ->]
      by (destruct active; simplify_eq/=; done).
    split_and!; [done|apply union_subseteq_l|auto..].
  - destruct active as [|a active].
    { simplify_eq/=. split_and!; [done|apply union_subseteq_l|auto..]. }
    cbn [demand_pass] in H. unfold reloc_names. rewrite fmap_cons, union_list_cons.
    fold (reloc_names objects).
    set (names := reloc_names objects) in *. clearbody names.
    destruct a.
    + destruct (demand_relocs (relocs obj) needed changed) as [n c] eqn:E.
      destruct (demand_relocs_spec _ _ _ _ _ E) as (-> & Hc & Hd & He).
      set (names0 := list_to_set (reloc_symbol_name <$> relocs obj)) in *.
      clearbody names0.
      destruct (IH _ _ _ _ _ H) as (Hs1 & Hs2 & Hc' & Hd' & He').
      split_and!.
      * clear -Hs1. set_solver.
      * clear -Hs2. set_solver.
      * auto.
      * intros Hc1. destruct (Hd' Hc1) as [Hx|(x & Hx1 & Hx2)].
        -- destruct (Hd Hx) as [?|(x & Hx1 & Hx2)]; [auto|].
           right. exists x. split; [|done]. by apply Hs1.
        -- right. exists x. split; [done|]. clear -Hx2. set_solver.
      * intros Hc1. rewrite (He' Hc1). apply He.
        destruct c; [by rewrite Hc' in Hc1|done].
    + destruct (IH _ _ _ _ _ H) as (Hs1 & Hs2 & Hc' & Hd' & He').
      split_and!; [done|clear -Hs2; set_solver|auto..].
Qed.

(** One iteration of the loop: both sets grow, stay within their bounds, and
    a reported change strictly decreases the measure. *)
Lemma iteration_spec objects needed active active1 changed1 needed1 changed2 :
  activate_pass needed objects active false = (active1, changed1) →
  demand_pass objects active1 needed changed1 = (needed1, changed2) →
  active_le active active1
  ∧ needed ⊆ needed1
  ∧ needed1 ⊆ needed ∪ reloc_names objects
  ∧ (changed2 = true →
     (resolve_measure objects needed1 active1
      < resolve_measure objects needed active)%nat)
  ∧ (changed2 = false → changed1 = false ∧ needed1 = needed ∧ active1 = active).
Proof.
  intros H1 H2.
  destruct (activate_pass_spec _ _ _ _ _ _ H1) as (Hle & Hin & _ & Hd & He).
  destruct (demand_pass_spec _ _ _ _ _ _ H2) as (Hs1 & Hs2 & Hc' & Hd' & He').
  split_and!; [done..| |].
  - intros Hc2. unfold resolve_measure.
    set (names := reloc_names objects) in *. clearbody names.
    assert (names ∖ needed1 ⊆ names ∖ needed) as Hsub
      by (clear -Hs1; set_solver).
    pose proof (subseteq_size _ _ Hsub) as Hsz.
    destruct (Hd' Hc2) as [Hc1|(x & Hx1 & Hx2)].
    + destruct (Hd Hc1) as [?|?]; [done|lia].
    + assert (size (names ∖ needed1) < size (names ∖ needed))%nat; [|lia].
      apply subset_size. split; [done|]. intros Hsup.
      assert (x ∈ names ∖ needed) as Hx by (clear -Hx1 Hx2 Hs2; set_solver).
      apply Hsup in Hx. clear -Hx Hx1. set_solver.
  - intros Hc2. destruct changed1; [by rewrite Hc' in Hc2|]. auto.
Qed.

Lemma resolve_loop_fuel_mono objects fuel : ∀ fuel' needed active r,
  resolve_loop fuel objects needed active = Some r →
  (fuel ≤ fuel')%nat →
  resolve_loop fuel' objects needed active = Some r.
Proof.
  induction fuel as [|fuel IH]; intros fuel' needed active r H Hle; [done|].
  destruct fuel' as [|fuel']; [lia|]. cbn [resolve_loop] in *.
  destruct (activate_pass needed objects active false) as [active1 changed1].
  destruct (demand_pass objects active1 needed changed1) as [needed1 changed2].
  destruct changed2; [|done]. apply IH; [done|lia].
Qed.

Lemma resolve_loop_enough objects fuel : ∀ needed active,
  (resolve_measure objects needed active < fuel)%nat →
  is_Some (resolve_loop fuel objects needed active).
Proof.
  induction fuel as [|fuel IH]; intros needed active Hm; [lia|].
  cbn [resolve_loop].
  destruct (activate_pass needed objects active false)
    as [active1 changed1] eqn:E1.
  destruct (demand_pass objects active1 needed changed1)
    as [needed1 changed2] eqn:E2.
  destruct (iteration_spec _ _ _ _ _ _ _ E1 E2) as (_ & _ & _ & Hdec & _).
  destruct changed2; [|done]. apply IH. specialize (Hdec eq_refl). lia.
Qed.

Lemma size_union_le (X Y : gset string) :
  (size (X ∪ Y) ≤ size X + size Y)%nat.
Proof.
  rewrite size_union_alt.
  assert (size (Y ∖ X) ≤ size Y)%nat by (apply subseteq_size; set_solver).
  lia.
Qed.

Lemma size_list_to_set_le (l : list string) :
  (size (list_to_set l : gset string) ≤ length l)%nat.
Proof.
  induction l as [|x l IH]; [done|]. rewrite list_to_set_cons.
  etrans; [apply size_union_le|]. rewrite size_singleton. cbn. lia.
Qed.

Lemma size_reloc_names objects :
  (size (reloc_names objects) ≤ total_relocs objects)%nat.
Proof.
  unfold reloc_names, total_relocs.
  induction objects as [|obj objects IH]; [done|].
  rewrite fmap_cons, union_list_cons. cbn [map sum_list].
  etrans; [apply size_union_le|].
  pose proof (size_list_to_set_le (reloc_symbol_name <$> relocs obj)) as H1.
  rewrite length_fmap in H1. apply Nat.add_le_mono; [exact H1|exact IH].
Qed.

Lemma resolve_measure_initial objects :
  (resolve_measure objects {[ENTRY_SYMBOL]} (replicate (length objects) false)
   < resolve_fuel objects)%nat.
Proof.
  unfold resolve_measure, resolve_fuel. rewrite inactive_replicate.
  pose proof (size_reloc_names objects).
  assert (size (reloc_names objects ∖ {[ENTRY_SYMBOL]})
          ≤ size (reloc_names objects))%nat
    by (apply subseteq_size; set_solver).
  lia.
Qed.

Lemma resolve_is_Some objects : is_Some (resolve objects).
Proof. apply resolve_loop_enough, resolve_measure_initial. Qed.

(** ** The resolution loop computes the reachable closure *)

(** After pass 1 an object is active iff it was active or provides a needed
    symbol. *)
Lemma activate_pass_lookup needed objects : ∀ active changed active1 changed1,
  length active = length objects →
  activate_pass needed objects active changed = (active1, changed1) →
  length active1 = length objects
  ∧ ∀ i obj a, objects !! i = Some obj → active !! i = Some a →
      active1 !! i = Some (a || provides needed obj).
Proof.
  induction objects as [|obj objects IH];
    intros active changed active1 changed1 Hlen H.
  - destruct active; simplify_eq/=. done.
  - destruct active as [|a active]; [done|]. cbn [activate_pass] in H.
    cbn [length] in Hlen. apply Nat.succ_inj in Hlen.
    destruct a; [|destruct (provides needed obj) eqn:Hp];
      match type of H with
      | context [activate_pass ?n ?o ?a ?c] =>
          destruct (activate_pass n o a c) as [rest c1] eqn:E
      end; simplify_eq;
      destruct (IH _ _ _ _ Hlen E) as (Hl & Hlk);
      (split; [cbn; by rewrite Hl|]);
      intros [|i] obj' a' Ho Ha; simplify_eq/=; eauto;
      by rewrite ?Hp.
Qed.

Lemma demand_relocs_union rs needed changed :
  (demand_relocs rs needed changed).1
  = needed ∪ list_to_set (reloc_symbol_name <$> rs).
Proof.
  destruct (demand_relocs rs needed changed) as [n c] eqn:E.
  by destruct (demand_relocs_spec _ _ _ _ _ E) as (-> & _).
Qed.

(** After pass 2 the needed set holds what it held and the relocation names
    of the active objects, and nothing else. *)
Lemma demand_pass_lookup objects : ∀ active needed changed needed1 changed1,
  length active = length objects →
  demand_pass objects active needed changed = (needed1, changed1) →
  ∀ n, n ∈ needed1 ↔
    n ∈ needed ∨ ∃ i obj reloc, objects !! i = Some obj
      ∧ active !! i = Some true ∧ reloc ∈ relocs obj
      ∧ n = reloc_symbol_name reloc.
Proof.
  induction objects as [|obj objects IH];
    intros active needed changed needed1 changed1 Hlen H n.
  - destruct active; simplify_eq/=. split; [auto|].
    intros [?|(i & ? & ? & ? & _)]; done.
  - destruct active as [|a active]; [done|]. cbn [demand_pass] in H.
    cbn [length] in Hlen. apply Nat.succ_inj in Hlen. destruct a.
    + destruct (demand_relocs (relocs obj) needed changed) as [n0 c0] eqn:E.
      pose proof (demand_relocs_union (relocs obj) needed changed) as Hu.
      rewrite E in Hu. cbn in Hu. subst n0.
      rewrite (IH _ _ _ _ _ Hlen H n). split.
      * intros [Hn|(i & o & r & ? & ? & ? & ?)].
        -- apply elem_of_union in Hn as [?|Hn]; [auto|].
           apply elem_of_list_to_set, list_elem_of_fmap in Hn as (r & -> & Hr).
           right. exists 0%nat, obj, r. done.
        -- right. exists (S i), o, r. done.
      * intros [Hn|(i & o & r & Ho & Ha & Hr & ->)]; [left; set_solver|].
        destruct i as [|i]; simplify_eq/=.
        -- left. apply elem_of_union_r, elem_of_list_to_set, list_elem_of_fmap.
           eauto.
        -- right. exists i, o, r. done.
    + rewrite (IH _ _ _ _ _ Hlen H n). split.
      * intros [?|(i & o & r & ? & ? & ? & ?)]; [auto|].
        right. exists (S i), o, r. done.
      * intros [?|(i & o & r & Ho & Ha & Hr & ->)]; [auto|].
        destruct i as [|i]; simplify_eq/=. right. exists i, o, r. done.
Qed.

Section closure.
Variable objects : list LoadedObject.

Lemma marks_sound_initial :
  marks_sound objects {[ENTRY_SYMBOL]} (replicate (length objects) false).
Proof.
  split_and!.
  - apply length_replicate.
  - set_solver.
  - intros n ->%elem_of_singleton. constructor.
  - intros i obj _ [? _]%lookup_replicate. done.
Qed.

Lemma iteration_sound needed active active1 changed1 needed1 changed2 :
  marks_sound objects needed active →
  activate_pass needed objects active false = (active1, changed1) →
  demand_pass objects active1 needed changed1 = (needed1, changed2) →
  marks_sound objects needed1 active1
  ∧ (changed2 = false → marks_closed objects needed1 active1).
Proof.
  intros (Hlen & Hentry & Hn & Ha) E1 E2.
  destruct (activate_pass_lookup _ _ _ _ _ _ Hlen E1) as (Hlen1 & Hlk).
  pose proof (demand_pass_lookup _ _ _ _ _ _ Hlen1 E2) as Hdem.
  assert (Hact : ∀ i obj, objects !! i = Some obj →
            active1 !! i = Some true → reachable_module objects obj).
  { intros i obj Ho Ha1.
    destruct (lookup_lt_is_Some_2 active i) as [a Hai].
    { rewrite Hlen. by eapply lookup_lt_Some. }
    rewrite (Hlk _ _ _ Ho Hai) in Ha1. simplify_eq.
    destruct a; [by eapply Ha|]. cbn in *.
    match goal with H : provides _ _ = true |- _ =>
      apply provides_true in H as (sym & ? & ? & ?) end.
    exists sym. auto. }
  split.
  - split_and!; [done|apply Hdem; auto| |done].
    intros n [?|(i & obj & r & Ho & Ha1 & Hr & ->)]%Hdem; [auto|].
    destruct (Hact _ _ Ho Ha1) as (sym & ? & ? & ?).
    eapply reachable_reloc; eauto. by eapply list_elem_of_lookup_2.
  - intros Hc2.
    destruct (iteration_spec _ _ _ _ _ _ _ E1 E2) as (_ & _ & _ & _ & Hfix).
    destruct (Hfix Hc2) as (-> & -> & ->). split.
    + intros i obj Ho Hai. specialize (Hlk _ _ _ Ho Hai).
      rewrite Hai in Hlk. by simplify_eq/=.
    + intros i obj r Ho Hai Hr. apply Hdem. right. by exists i, obj, r.
Qed.

Lemma resolve_loop_sound fuel : ∀ needed active needed' active',
  marks_sound objects needed active →
  resolve_loop fuel objects needed active = Some (needed', active') →
  marks_sound objects needed' active' ∧ marks_closed objects needed' active'.
Proof.
  induction fuel as [|fuel IH]; intros needed active needed' active' Hs H;
    [done|].
  cbn [resolve_loop] in H.
  destruct (activate_pass needed objects active false)
    as [active1 changed1] eqn:E1.
  destruct (demand_pass objects active1 needed changed1)
    as [needed1 changed2] eqn:E2.
  destruct (iteration_sound _ _ _ _ _ _ Hs E1 E2) as (Hs1 & Hc1).
  destruct changed2; [by eapply IH|]. simplify_eq. auto.
Qed.

(** A closed marking holds every reachable symbol. *)
Lemma marks_closed_complete needed active n :
  marks_sound objects needed active → marks_closed objects needed active →
  reachable_symbol objects n → n ∈ needed.
Proof.
  intros (Hlen & Hentry & _ & _) (Hprov & Hrel).
  induction 1 as [|obj sym reloc Hobj Hsym Hty _ IH Hr]; [done|].
  apply list_elem_of_lookup in Hobj as (i & Ho).
  destruct (lookup_lt_is_Some_2 active i) as [a Hai].
  { rewrite Hlen. by eapply lookup_lt_Some. }
  destruct a; [by eapply Hrel|].
  specialize (Hprov _ _ Ho Hai).
  assert (provides needed obj = true) by (apply provides_true; eauto).
  congruence.
Qed.
End closure.

Lemma filter_active_elem objects : ∀ active obj,
  length active = length objects →
  obj ∈ filter_active objects active ↔
  ∃ i, objects !! i = Some obj ∧ active !! i = Some true.
Proof.
  induction objects as [|o objects IH]; intros active obj Hlen.
  - destruct active; cbn; split; try by intros ?%elem_of_nil.
    all: by intros (i & ? & ?).
  - destruct active as [|a active]; [done|].
    cbn [length] in Hlen. apply Nat.succ_inj in Hlen.
    cbn [filter_active]. destruct a.
    + rewrite elem_of_cons, (IH _ _ Hlen). split.
      * intros [->|(i & ? & ?)]; [by exists 0%nat|by exists (S i)].
      * intros ([|i] & ? & ?); simplify_eq/=; [by left|right; by exists i].
    + rewrite (IH _ _ Hlen). split.
      * intros (i & ? & ?). by exists (S i).
      * intros ([|i] & ? & ?); simplify_eq/=. by exists i.
Qed.

Lemma filter_active_sublist objects : ∀ active,
  sublist (filter_active objects active) objects.
Proof.
  induction objects as [|o objects IH]; intros [|[] active]; cbn;
    try constructor; auto using sublist_nil_l.
Qed.

(** The state the loop stops in is one that a further iteration leaves as it
    is. *)
Lemma resolve_loop_fixed objects fuel : ∀ needed active needed' active',
  resolve_loop fuel objects needed active = Some (needed', active') →
  activate_pass needed' objects active' false = (active', false)
  ∧ demand_pass objects active' needed' false = (needed', false).
Proof.
  induction fuel as [|fuel IH]; intros needed active needed' active' H; [done|].
  cbn [resolve_loop] in H.
  destruct (activate_pass needed objects active false)
    as [active1 changed1] eqn:E1.
  destruct (demand_pass objects active1 needed changed1)
    as [needed1 changed2] eqn:E2.
  destruct changed2; [by eapply IH|]. simplify_eq.
  destruct (iteration_spec _ _ _ _ _ _ _ E1 E2) as (_ & _ & _ & _ & Hfix).
  destruct (Hfix eq_refl) as (-> & -> & ->). done.
Qed.

(** C9: the fixed-point resolution loop terminates.  In every iteration the
    needed set and the active set only grow, the needed set stays within the
    entry symbol and the relocation names of the inputs, the active flags stay
    one per module, and an iteration that reports a change strictly decreases
    a measure that starts below [resolve_fuel]; so from the initial state the
    loop returns, for every fuel from [resolve_fuel objects] on, one and the
    same state, and a further pass over that state changes nothing. *)
Theorem resolve_loop_terminates (objects : list LoadedObject) :
  (∀ needed active active1 changed1 needed1 changed2,
     activate_pass needed objects active false = (active1, changed1) →
     demand_pass objects active1 needed changed1 = (needed1, changed2) →
     needed ⊆ needed1
     ∧ needed1 ⊆ needed ∪ reloc_names objects
     ∧ active_le active active1
     ∧ length active1 = length active
     ∧ (changed2 = true →
        (resolve_measure objects needed1 active1
         < resolve_measure objects needed active)%nat))
  ∧ (resolve_measure objects {[ENTRY_SYMBOL]}
       (replicate (length objects) false) < resolve_fuel objects)%nat
  ∧ ∃ needed active,
      (∀ fuel, (resolve_fuel objects ≤ fuel)%nat →
         resolve_loop fuel objects {[ENTRY_SYMBOL]}
           (replicate (length objects) false) = Some (needed, active))
      ∧ activate_pass needed objects active false = (active, false)
      ∧ demand_pass objects active needed false = (needed, false).
Proof.
  split_and!.
  - intros needed active active1 changed1 needed1 changed2 E1 E2.
    destruct (iteration_spec _ _ _ _ _ _ _ E1 E2) as (Hle & ? & ? & ? & _).
    split_and!; try done. symmetry. by eapply Forall2_length.
  - apply resolve_measure_initial.
  - destruct (resolve_is_Some objects) as [[needed active] Hr].
    exists needed, active. split.
    + intros fuel Hf. by eapply resolve_loop_fuel_mono.
    + by eapply resolve_loop_fixed.
Qed.

(** What the resolver returns: the reachable closure and its modules. *)
Lemma resolve_closure (objects : list LoadedObject) :
  ∃ needed active,
    resolve objects = Some (needed, active)
    ∧ length active = length objects
    ∧ (∀ n, n ∈ needed ↔ reachable_symbol objects n)
    ∧ (∀ i obj, objects !! i = Some obj →
         (active !! i = Some true ↔
          ∃ sym, sym ∈ symbols obj ∧ sym_type sym = SYMBOL_DEFINED
                 ∧ sym_name sym ∈ needed))
    ∧ (∀ i obj, objects !! i = Some obj →
         (active !! i = Some true ↔ reachable_module objects obj))
    ∧ (∀ obj, obj ∈ filter_active objects active ↔
         obj ∈ objects ∧ reachable_module objects obj)
    ∧ (∀ obj,
         (∀ sym, sym ∈ symbols obj → sym_type sym = SYMBOL_DEFINED →
            ¬ reachable_symbol objects (sym_name sym)) →
         obj ∉ filter_active objects active).
Proof.
  destruct (resolve_is_Some objects) as [[needed active] Hr].
  exists needed, active.
  destruct (resolve_loop_sound objects _ _ _ _ _
              (marks_sound_initial objects) Hr) as (Hs & Hc).
  pose proof Hs as (Hlen & Hentry & Hn & Ha).
  pose proof Hc as (Hprov & Hrel).
  assert (Hneeded : ∀ n, n ∈ needed ↔ reachable_symbol objects n).
  { intros n. split; [apply Hn|]. by eapply marks_closed_complete. }
  assert (Hlive : ∀ i obj, objects !! i = Some obj →
            (active !! i = Some true ↔ reachable_module objects obj)).
  { intros i obj Ho. split; [by eapply Ha|].
    intros (sym & Hsym & Hty & Hreach).
    destruct (lookup_lt_is_Some_2 active i) as [a Hai].
    { rewrite Hlen. by eapply lookup_lt_Some. }
    destruct a; [done|]. specialize (Hprov _ _ Ho Hai).
    assert (provides needed obj = true)
      by (apply provides_true; exists sym; by rewrite Hneeded).
    congruence. }
  assert (Hkept : ∀ obj, obj ∈ filter_active objects active ↔
            obj ∈ objects ∧ reachable_module objects obj).
  { intros obj. rewrite filter_active_elem by done. split.
    - intros (i & Ho & Hai). split; [by eapply list_elem_of_lookup_2|].
      by eapply Hlive.
    - intros [(i & Ho)%list_elem_of_lookup Hreach]. exists i.
      split; [done|]. by eapply Hlive. }
  split_and!; try done.
  - intros i obj Ho. rewrite (Hlive _ _ Ho). unfold reachable_module.
    by setoid_rewrite Hneeded.
  - intros obj Hnone [_ (sym & Hsym & Hty & Hreach)]%Hkept.
    by eapply Hnone.
Qed.

(** ** Layout *)

Lemma total_size_acc size objects : ∀ acc,
  wrap32 acc = acc →
  foldl (λ total obj, wrap32 (total + size obj)) acc objects
  = wrap32 (acc + sum_sizes size objects).
Proof.
  induction objects as [|obj objects IH]; intros acc Hacc; cbn.
  - by rewrite Z.add_0_r.
  - rewrite IH by apply wrap32_idemp. rewrite wrap32_add_l. f_equal.
    fold (sum_sizes size objects). lia.
Qed.

Lemma total_size_sum size objects :
  total_size size objects = wrap32 (sum_sizes size objects).
Proof. unfold total_size. by rewrite total_size_acc. Qed.

Lemma sum_sizes_app size l1 l2 :
  sum_sizes size (l1 ++ l2) = sum_sizes size l1 + sum_sizes size l2.
Proof.
  unfold sum_sizes. induction l1 as [|o l1 IH]; cbn; [done|]. rewrite IH. lia.
Qed.

Lemma sum_sizes_nonneg size objects :
  Forall (λ obj, 0 ≤ size obj) objects → 0 ≤ sum_sizes size objects.
Proof.
  unfold sum_sizes. induction 1 as [|o l Ho _ IH]; cbn; lia.
Qed.

Lemma sum_sizes_take_le size objects i :
  Forall (λ obj, 0 ≤ size obj) objects →
  0 ≤ sum_sizes size (take i objects) ≤ sum_sizes size objects.
Proof.
  intros Hnn. rewrite <- (take_drop i objects) at 3. rewrite sum_sizes_app.
  pose proof (sum_sizes_nonneg size (take i objects)
                (Forall_take _ _ _ Hnn)).
  pose proof (sum_sizes_nonneg size (drop i objects)
                (Forall_drop _ _ _ Hnn)).
  lia.
Qed.

(** The test the binder applies to a symbol. *)
Lemma registers_true (needed : gset string) sym :
  (sym_type sym =? SYMBOL_DEFINED) && bool_decide (sym_name sym ∈ needed) = true
  ↔ sym_type sym = SYMBOL_DEFINED ∧ sym_name sym ∈ needed.
Proof.
  rewrite andb_true_iff, Z.eqb_eq, bool_decide_eq_true. done.
Qed.

(** [define_symbols] either succeeds or reports a duplicate. *)
Lemma define_symbols_cases (needed : gset string) obj syms : ∀ gst,
  (∃ gst', define_symbols needed obj syms gst = Ok gst')
  ∨ (∃ n, define_symbols needed obj syms gst = Err (DuplicateSymbol n)).
Proof.
  induction syms as [|sym syms IH]; intros gst; cbn [define_symbols]; [eauto|].
  destruct (_ && _); [|apply IH].
  destruct (gst !! sym_name sym); [eauto|apply IH].
Qed.

(** On success the names inserted were new and pairwise different, and the
    table holds what it held plus the final address of each. *)
Lemma define_symbols_spec (needed : gset string) obj syms : ∀ gst gst',
  define_symbols needed obj syms gst = Ok gst' →
  NoDup (needed_names needed syms)
  ∧ (∀ n, n ∈ needed_names needed syms → gst !! n = None)
  ∧ (∀ n a, gst' !! n = Some a ↔
       gst !! n = Some a
       ∨ ∃ sym, sym ∈ syms ∧ sym_type sym = SYMBOL_DEFINED
           ∧ sym_name sym ∈ needed ∧ sym_name sym = n
           ∧ a = final_addr obj sym).
Proof.
  induction syms as [|sym syms IH]; intros gst gst' H.
  - simplify_eq/=. split_and!; [constructor|by intros ? ?%elem_of_nil|].
    intros n a. split; [auto|]. by intros [?|(? & ?%elem_of_nil & _)].
  - cbn [define_symbols] in H. unfold needed_names in *.
    rewrite filter_cons.
    destruct (_ && _) eqn:Ht.
    + apply registers_true in Ht. rewrite decide_True by done.
      destruct (gst !! sym_name sym) eqn:Hg; [done|].
      destruct (IH _ _ H) as (Hnd & Hnew & Htab).
      rewrite fmap_cons. split_and!.
      * constructor; [|done]. intros Hin. specialize (Hnew _ Hin).
        by rewrite lookup_insert_eq in Hnew.
      * intros n [->|Hin]%elem_of_cons; [done|].
        specialize (Hnew _ Hin).
        destruct (decide (sym_name sym = n)) as [<-|Hne].
        -- by rewrite lookup_insert_eq in Hnew.
        -- by rewrite lookup_insert_ne in Hnew.
      * intros n a. rewrite Htab. split.
        -- intros [Hi|(s & Hs & ? & ? & ? & ?)].
           ++ destruct (decide (sym_name sym = n)) as [<-|Hne].
              ** rewrite lookup_insert_eq in Hi. simplify_eq.
                 right. exists sym. split_and!; try done. apply elem_of_cons; auto.
                 all: tauto.
              ** rewrite lookup_insert_ne in Hi by done. auto.
           ++ right. exists s. split_and!; try done. apply elem_of_cons; auto.
        -- intros [Hi|(s & [->|Hs]%elem_of_cons & ? & ? & ? & ?)].
           ++ left. rewrite lookup_insert_ne; [done|]. intros <-. congruence.
           ++ left. subst. by rewrite lookup_insert_eq.
           ++ right. exists s. done.
    + assert (¬ (sym_type sym = SYMBOL_DEFINED ∧ sym_name sym ∈ needed)) as Hf.
      { intros Hp%registers_true. congruence. }
      rewrite decide_False by done.
      destruct (IH _ _ H) as (Hnd & Hnew & Htab). split_and!; [done..|].
      intros n a. rewrite Htab. split.
      * intros [?|(s & Hs & ? & ? & ? & ?)]; [auto|].
        right. exists s. split_and!; try done. apply elem_of_cons; auto.
      * intros [?|(s & [->|Hs]%elem_of_cons & ? & ? & ? & ?)]; [auto|tauto|].
        right. exists s. done.
Qed.

Lemma needed_names_elem (needed : gset string) syms n :
  n ∈ needed_names needed syms ↔
  ∃ sym, sym ∈ syms ∧ sym_type sym = SYMBOL_DEFINED
         ∧ sym_name sym ∈ needed ∧ sym_name sym = n.
Proof.
  unfold needed_names. rewrite list_elem_of_fmap. split.
  - intros (sym & -> & (Hp & Hin)%list_elem_of_filter).
    exists sym. tauto.
  - intros (sym & Hin & Ht & Hn & <-). exists sym. split; [done|].
    by apply list_elem_of_filter.
Qed.

(** The loop over the active objects either succeeds or reports a
    duplicate. *)
Lemma layout_loop_cases (needed : gset string) objects : ∀ cta cda gst,
  (∃ r, layout_loop needed objects cta cda gst = Ok r)
  ∨ (∃ n, layout_loop needed objects cta cda gst = Err (DuplicateSymbol n)).
Proof.
  induction objects as [|obj objects IH]; intros cta cda gst;
    cbn [layout_loop]; [eauto|].
  destruct (define_symbols_cases needed
              (set_base_addrs obj cta cda)
              (symbols (set_base_addrs obj cta cda)) gst)
    as [(gst1 & ->)|(n & ->)]; [|eauto]. cbn.
  destruct (IH (wrap32 (cta + text_size (header obj)))
              (wrap32 (cda + data_size (header obj))) gst1)
    as [([rest gst2] & ->)|(n & ->)]; cbn; eauto.
Qed.

(** On success: the base addresses are the running sums, the names defined
    are new and pairwise different, and the table holds what it held plus
    the final address of every needed symbol the objects define. *)
Lemma layout_loop_spec (needed : gset string) objects :
  ∀ cta cda gst objects' gst',
  wrap32 cta = cta → wrap32 cda = cda →
  layout_loop needed objects cta cda gst = Ok (objects', gst') →
  length objects' = length objects
  ∧ (∀ i obj, objects !! i = Some obj →
       objects' !! i = Some
         (set_base_addrs obj
            (wrap32 (cta + sum_sizes code_size (take i objects)))
            (wrap32 (cda + sum_sizes data_size_of (take i objects)))))
  ∧ NoDup (concat ((λ obj, needed_names needed (symbols obj)) <$> objects))
  ∧ (∀ n, n ∈ concat ((λ obj, needed_names needed (symbols obj)) <$> objects)
       → gst !! n = None)
  ∧ (∀ n a, gst' !! n = Some a ↔
       gst !! n = Some a
       ∨ ∃ i obj' sym, objects' !! i = Some obj' ∧ sym ∈ symbols obj'
           ∧ sym_type sym = SYMBOL_DEFINED ∧ sym_name sym ∈ needed
           ∧ sym_name sym = n ∧ a = final_addr obj' sym).
Proof.
  induction objects as [|obj objects IH];
    intros cta cda gst objects' gst' Hcta Hcda H.
  - simplify_eq/=. split_and!; [done|done|constructor| |].
    + by intros ? ?%elem_of_nil.
    + intros n a. split; [auto|]. by intros [?|(? & ? & ? & ? & _)].
  - cbn [layout_loop] in H.
    destruct (define_symbols needed _ _ gst) as [gst1| | |] eqn:E1;
      try done. cbn in H.
    destruct (layout_loop needed objects _ _ gst1) as [[rest gst2]| | |] eqn:E2;
      try done. cbn in H. simplify_eq.
    destruct (IH _ _ _ _ _ (wrap32_idemp _) (wrap32_idemp _) E2)
      as (Hlen & Hlk & Hnd & Hnew & Htab).
    destruct (define_symbols_spec _ _ _ _ _ E1) as (Hnd1 & Hnew1 & Htab1).
    cbn [symbols set_base_addrs] in Hnd1, Hnew1, Htab1.
    rewrite fmap_cons. cbn [concat].
    split_and!.
    + cbn. by rewrite Hlen.
    + intros [|i] o Ho; simplify_eq/=.
      * by rewrite !Z.add_0_r, Hcta, Hcda.
      * rewrite (Hlk _ _ Ho). do 2 f_equal.
        -- rewrite wrap32_add_l. f_equal.
           fold (sum_sizes code_size (take i objects)). unfold code_size. lia.
        -- rewrite wrap32_add_l. f_equal.
           fold (sum_sizes data_size_of (take i objects)).
           unfold data_size_of. lia.
    + apply NoDup_app. split_and!; [done| |done].
      intros n Hn1 Hn2. specialize (Hnew _ Hn2).
      apply needed_names_elem in Hn1 as (sym & ? & ? & ? & ?).
      assert (gst1 !! n = Some (final_addr (set_base_addrs obj cta cda) sym))
        as Hs by (apply Htab1; right; exists sym; done).
      congruence.
    + intros n [Hn|Hn]%elem_of_app; [by apply Hnew1|].
      specialize (Hnew _ Hn). destruct (gst !! n) as [a|] eqn:Hg; [|done].
      assert (gst1 !! n = Some a) by (apply Htab1; auto). congruence.
    + intros n a. rewrite Htab, Htab1. split.
      * intros [[?|(sym & ? & ? & ? & ? & ?)]|(i & o & sym & ? & ?)]; [auto| |].
        -- right. exists 0%nat, (set_base_addrs obj cta cda), sym. done.
        -- right. exists (S i), o, sym. done.
      * intros [?|([|i] & o & sym & Ho & Hs & ? & ? & ? & ?)]; [auto| |].
        -- simplify_eq/=. left. right. exists sym. done.
        -- right. exists i, o, sym. done.
Qed.

(** ** Verification of the needed symbols *)

Lemma verify_needed_cases (needed : gset string) (gst : gmap string Z) :
  (verify_needed needed gst = Ok ()
   ∧ ∀ n, n ∈ needed → is_Some (gst !! n))
  ∨ (∃ n, verify_needed needed gst = Err (UndefinedSymbol n)
          ∧ n ∈ needed ∧ gst !! n = None).
Proof.
  unfold verify_needed.
  destruct (find _ _) as [n|] eqn:E.
  - right. exists n. apply find_some in E as [Hin Hb].
    apply bool_decide_eq_true in Hb. split_and!; [done| |done].
    apply list_elem_of_In in Hin. rewrite merge_sort_Permutation in Hin.
    by apply elem_of_elements in Hin.
  - left. split; [done|]. intros n Hn.
    assert (n ∈ merge_sort string_le (elements needed)) as Hin.
    { rewrite merge_sort_Permutation. by apply elem_of_elements. }
    apply list_elem_of_In in Hin.
    pose proof (find_none _ _ E _ Hin) as Hb. cbn in Hb.
    apply bool_decide_eq_false in Hb.
    destruct (gst !! n); [eauto|done].
Qed.

(** ** [layout_and_define_symbols] as a whole *)

Lemma layout_and_define_symbols_Ok objects gst0 live gst tts tds :
  layout_and_define_symbols objects gst0 = Ok (live, gst, tts, tds) →
  ∃ needed active,
    resolve objects = Some (needed, active)
    ∧ tts = total_size code_size (filter_active objects active)
    ∧ tds = total_size data_size_of (filter_active objects active)
    ∧ layout_loop needed (filter_active objects active) 0 tts gst0
      = Ok (live, gst)
    ∧ ∀ n, n ∈ needed → is_Some (gst !! n).
Proof.
  unfold layout_and_define_symbols. intros H.
  destruct (resolve objects) as [[needed active]|]; [|done].
  exists needed, active.
  fold code_size data_size_of in H.
  change (λ obj, text_size (header obj)) with code_size in H.
  change (λ obj, data_size (header obj)) with data_size_of in H.
  destruct (layout_loop _ _ _ _ _) as [[live1 gst1]| | |] eqn:E; try done.
  cbn in H.
  destruct (verify_needed_cases needed gst1) as [[Hv Hall]|(n & Hv & _)];
    rewrite Hv in H; [|done].
  cbn in H. simplify_eq. done.
Qed.

(** ** Layout by concatenation (C3) *)

Lemma Forall_filter_active (P : LoadedObject → Prop) objects : ∀ active,
  Forall P objects → Forall P (filter_active objects active).
Proof.
  induction objects as [|o objects IH]; intros [|[] active] H; cbn;
    try constructor; inversion_clear H; auto.
Qed.

Lemma well_formed_sizes objects :
  Forall well_formed objects →
  Forall (λ obj, 0 ≤ code_size obj) objects
  ∧ Forall (λ obj, 0 ≤ data_size_of obj) objects.
Proof.
  intros H. split; eapply Forall_impl; try exact H;
    intros obj [Ht Hd]; unfold code_size, data_size_of; lia.
Qed.

(** What a successful [layout_and_define_symbols] returns: the active
    objects in input order, with base addresses given by the running sums
    in 32-bit arithmetic. *)
Lemma layout_spec objects gst0 live gst tts tds :
  layout_and_define_symbols objects gst0 = Ok (live, gst, tts, tds) →
  ∃ needed active,
    resolve objects = Some (needed, active)
    ∧ sublist (filter_active objects active) objects
    ∧ length live = length (filter_active objects active)
    ∧ tts = wrap32 (sum_sizes code_size (filter_active objects active))
    ∧ tds = wrap32 (sum_sizes data_size_of (filter_active objects active))
    ∧ (∀ i obj, filter_active objects active !! i = Some obj →
         live !! i = Some
           (set_base_addrs obj
              (wrap32 (sum_sizes code_size
                         (take i (filter_active objects active))))
              (wrap32 (tts + sum_sizes data_size_of
                               (take i (filter_active objects active)))))).
Proof.
  intros H.
  destruct (layout_and_define_symbols_Ok _ _ _ _ _ _ H)
    as (needed & active & Hr & Htts & Htds & Hl & _).
  exists needed, active. rewrite total_size_sum in Htts, Htds.
  assert (wrap32 tts = tts) as Hw by (rewrite Htts; apply wrap32_idemp).
  destruct (layout_loop_spec _ _ _ _ _ _ _ eq_refl Hw Hl) as (Hlen & Hlk & _).
  split_and!; [done|apply filter_active_sublist|done..|].
  intros i obj Ho. rewrite (Hlk _ _ Ho). by rewrite Z.add_0_l.
Qed.

(** C3 (as amended): on success the live modules are the active ones in
    input order; the i-th live module's [code_base] is the sum of the code
    sizes of the live modules before it and its [data_base] is
    [total_code_size] plus the sum of the data sizes before it, all taken
    modulo 2^32; when the code and data of well-formed live modules total
    less than 2^32 bytes these are the plain sums. *)
Theorem layout_by_concatenation objects live gst tts tds :
  layout_and_define_symbols objects ∅ = Ok (live, gst, tts, tds) →
  concatenation_layout objects live tts tds.
Proof.
  intros H.
  destruct (layout_spec _ _ _ _ _ _ H)
    as (needed & active & Hr & Hsub & Hlen & Htts & Htds & Hlk).
  exists needed, active. cbn zeta. split_and!; try done.
  intros i obj Ho. eexists. split; [by apply Hlk|]. cbn.
  split_and!; [done|done|by rewrite Htts|].
  intros Hwf Hsmall.
  destruct (well_formed_sizes _ (Forall_filter_active _ _ active Hwf))
    as [Hc Hd].
  pose proof (sum_sizes_take_le _ _ i Hc).
  pose proof (sum_sizes_take_le _ _ i Hd).
  rewrite Htts. rewrite !wrap32_small; [done|lia..].
Qed.

(** The amended C3 at the scenario of the specification, with an unused
    module between the two: A at 0, B at 4, data at 8. *)
Lemma layout_by_concatenation_witness :
  layout_and_define_symbols [scenario_A; scenario_C; scenario_B] ∅
  = Ok ([set_base_addrs scenario_A 0 8; set_base_addrs scenario_B 4 8],
        {["__START__" := 0; "helper" := 4]}, 8, 0)
  ∧ concatenation_layout [scenario_A; scenario_C; scenario_B]
      [set_base_addrs scenario_A 0 8; set_base_addrs scenario_B 4 8] 8 0.
Proof.
  assert (layout_and_define_symbols [scenario_A; scenario_C; scenario_B] ∅
          = Ok ([set_base_addrs scenario_A 0 8; set_base_addrs scenario_B 4 8],
                {["__START__" := 0; "helper" := 4]}, 8, 0)) as H
    by (vm_compute; reflexivity).
  split; [exact H|]. exact (layout_by_concatenation _ _ _ _ _ H).
Defined.

(** ** Duplicate definitions (C5) *)

Lemma elem_of_concat_lookup {A} (ls : list (list A)) : ∀ k l x,
  ls !! k = Some l → x ∈ l → x ∈ concat ls.
Proof.
  induction ls as [|l0 ls IH]; intros [|k] l x Hk Hx; simplify_eq/=;
    apply elem_of_app; eauto.
Qed.

Lemma NoDup_concat_lookup {A} (ls : list (list A)) : ∀ i j l1 l2 x,
  NoDup (concat ls) → ls !! i = Some l1 → ls !! j = Some l2 → i ≠ j →
  x ∈ l1 → x ∈ l2 → False.
Proof.
  induction ls as [|l ls IH]; intros i j l1 l2 x Hnd Hi Hj Hne H1 H2; [done|].
  cbn [concat] in Hnd. apply NoDup_app in Hnd as (_ & Hdisj & Hnd).
  destruct i as [|i], j as [|j]; [done| | |].
  - simplify_eq/=. eapply Hdisj; eauto using elem_of_concat_lookup.
  - simplify_eq/=. eapply Hdisj; eauto using elem_of_concat_lookup.
  - cbn in Hi, Hj. eapply (IH i j); eauto.
Qed.

(** A failure of the loop over the active objects is the failure of
    [layout_and_define_symbols]. *)
Lemma layout_and_define_symbols_Err objects gst0 needed active e :
  resolve objects = Some (needed, active) →
  layout_loop needed (filter_active objects active) 0
    (total_size code_size (filter_active objects active)) gst0 = Err e →
  layout_and_define_symbols objects gst0 = Err e.
Proof.
  intros Hr Hl. unfold layout_and_define_symbols. rewrite Hr.
  change (λ obj, text_size (header obj)) with code_size.
  by rewrite Hl.
Qed.

(** C5 (as amended): when two live modules each contain an Exported symbol
    with the same name and that name is needed, binding fails with a
    DuplicateSymbol error; names that are not needed are not inserted and
    not checked.  On success the needed names the live modules define are
    pairwise different and the table maps exactly those names, each to the
    final address of its defining symbol. *)
Theorem duplicate_needed_symbol objects needed active :
  resolve objects = Some (needed, active) →
  (∀ i j obj1 obj2 sym1 sym2,
     filter_active objects active !! i = Some obj1 →
     filter_active objects active !! j = Some obj2 →
     i ≠ j →
     sym1 ∈ symbols obj1 → sym2 ∈ symbols obj2 →
     sym_type sym1 = SYMBOL_DEFINED → sym_type sym2 = SYMBOL_DEFINED →
     sym_name sym1 = sym_name sym2 →
     sym_name sym1 ∈ needed →
     ∃ n, layout_and_define_symbols objects ∅ = Err (DuplicateSymbol n))
  ∧ (∀ live gst tts tds,
       layout_and_define_symbols objects ∅ = Ok (live, gst, tts, tds) →
       NoDup (concat ((λ obj, needed_names needed (symbols obj))
                        <$> filter_active objects active))
       ∧ ∀ n a, gst !! n = Some a ↔
           ∃ i obj' sym, live !! i = Some obj' ∧ sym ∈ symbols obj'
             ∧ sym_type sym = SYMBOL_DEFINED ∧ sym_name sym ∈ needed
             ∧ sym_name sym = n ∧ a = final_addr obj' sym).
Proof.
  intros Hr. split.
  - intros i j obj1 obj2 sym1 sym2 Hi Hj Hne Hs1 Hs2 Ht1 Ht2 Heq Hn.
    destruct (layout_loop_cases needed (filter_active objects active) 0
                (total_size code_size (filter_active objects active)) ∅)
      as [([live gst] & Hl)|(n & Hl)].
    + exfalso.
      assert (wrap32 (total_size code_size (filter_active objects active))
              = total_size code_size (filter_active objects active)) as Hw
        by (rewrite total_size_sum; apply wrap32_idemp).
      destruct (layout_loop_spec _ _ _ _ _ _ _ eq_refl Hw Hl)
        as (_ & _ & Hnd & _).
      eapply (NoDup_concat_lookup _ i j _ _ (sym_name sym1) Hnd).
      * rewrite list_lookup_fmap, Hi. done.
      * rewrite list_lookup_fmap, Hj. done.
      * done.
      * apply needed_names_elem. exists sym1. done.
      * apply needed_names_elem. exists sym2. rewrite <- Heq. done.
    + exists n. by eapply layout_and_define_symbols_Err.
  - intros live gst tts tds H.
    destruct (layout_and_define_symbols_Ok _ _ _ _ _ _ H)
      as (needed' & active' & Hr' & Htts & _ & Hl & _).
    rewrite Hr in Hr'. simplify_eq.
    assert (wrap32 (total_size code_size (filter_active objects active'))
            = total_size code_size (filter_active objects active')) as Hw
      by (rewrite total_size_sum; apply wrap32_idemp).
    destruct (layout_loop_spec _ _ _ _ _ _ _ eq_refl Hw Hl)
      as (_ & _ & Hnd & _ & Htab).
    split; [done|]. intros n a. rewrite Htab, lookup_empty. naive_solver.
Qed.

(** The amended C5 where two live modules both export the needed entry
    symbol. *)
Lemma duplicate_needed_symbol_witness :
  resolve [scenario_A; dup_entry]
  = Some ({["__START__"; "helper"]}, [true; true])
  ∧ ∃ n, layout_and_define_symbols [scenario_A; dup_entry] ∅
         = Err (DuplicateSymbol n).
Proof.
  assert (resolve [scenario_A; dup_entry]
          = Some ({["__START__"; "helper"]}, [true; true])) as H
    by (vm_compute; reflexivity).
  split; [exact H|].
  apply (proj1 (duplicate_needed_symbol _ _ _ H) 0%nat 1%nat
           scenario_A dup_entry
           (export "__START__" SECTION_TEXT 0)
           (export "__START__" SECTION_TEXT 0)).
  - reflexivity.
  - reflexivity.
  - discriminate.
  - apply list_elem_of_In. cbn. auto.
  - apply list_elem_of_In. cbn. auto.
  - reflexivity.
  - reflexivity.
  - reflexivity.
  - apply elem_of_union_l, elem_of_singleton. reflexivity.
Defined.

(** C5, counterexample: two live modules both export [shared]; the name is
    not needed, binding succeeds and the table has no entry for it. *)
Lemma duplicate_unneeded_counterexample :
  ∃ needed active live gst,
    resolve [dup_A; dup_B] = Some (needed, active)
    ∧ filter_active [dup_A; dup_B] active = [dup_A; dup_B]
    ∧ export "shared" SECTION_TEXT 0 ∈ symbols dup_A
    ∧ export "shared" SECTION_TEXT 0 ∈ symbols dup_B
    ∧ layout_and_define_symbols [dup_A; dup_B] ∅ = Ok (live, gst, 8, 0)
    ∧ gst !! "shared" = None.
Proof.
  eexists _, _, _, _. split_and!.
  - vm_compute. reflexivity.
  - reflexivity.
  - apply list_elem_of_In. cbn. auto.
  - apply list_elem_of_In. cbn. auto.
  - vm_compute. reflexivity.
  - vm_compute. reflexivity.
Qed.

(** ** Undefined symbols (C6) *)

(** A run that does not succeed leaves the files as they were. *)
Lemma link_objects_failure input_files output_path w r w' :
  link_objects input_files output_path w = (r, w') →
  (∀ s, r ≠ Ok s) → w' = w.
Proof.
  unfold link_objects, stage, write_output. intros H Hr.
  destruct (load_objects input_files w) as [objects| | |];
    [|by simplify_eq..].
  destruct (layout_and_define_symbols objects ∅)
    as [[[[live gst] tts] tds]| | |]; [|by simplify_eq..].
  destruct (apply_relocations live gst) as [patched| | |];
    [|by simplify_eq..].
  case_bool_decide; simplify_eq; [done|]. by destruct (Hr (tts, tds)).
Qed.

Lemma link_objects_layout_Err input_files output_path w objects e :
  load_objects input_files w = Ok objects →
  layout_and_define_symbols objects ∅ = Err e →
  link_objects input_files output_path w = (Err e, w).
Proof. intros Hl He. unfold link_objects, stage. by rewrite Hl, He. Qed.

(** Without a module exporting the entry symbol nothing but the entry
    symbol is reachable. *)
Lemma reachable_without_entry objects :
  (∀ obj sym, obj ∈ objects → sym ∈ symbols obj →
     sym_type sym = SYMBOL_DEFINED → sym_name sym ≠ ENTRY_SYMBOL) →
  ∀ n, reachable_symbol objects n → n = ENTRY_SYMBOL.
Proof.
  intros Hno n. induction 1 as [|obj sym r Hobj Hsym Hty _ IH Hr]; [done|].
  by destruct (Hno _ _ Hobj Hsym Hty).
Qed.

Lemma layout_without_entry objects :
  (∀ obj sym, obj ∈ objects → sym ∈ symbols obj →
     sym_type sym = SYMBOL_DEFINED → sym_name sym ≠ ENTRY_SYMBOL) →
  layout_and_define_symbols objects ∅ = Err (UndefinedSymbol ENTRY_SYMBOL).
Proof.
  intros Hno.
  destruct (resolve_closure objects)
    as (needed & active & Hr & _ & Hneeded & _ & _ & Hkept & _).
  assert (filter_active objects active = []) as Hnil.
  { apply elem_of_nil_inv. intros obj [Hobj (sym & Hsym & Hty & Hre)]%Hkept.
    apply (Hno _ _ Hobj Hsym Hty).
    by apply (reachable_without_entry objects Hno). }
  unfold layout_and_define_symbols. rewrite Hr, Hnil. cbn.
  destruct (verify_needed_cases needed ∅) as [[_ Hall]|(n & -> & Hn & _)].
  - destruct (Hall ENTRY_SYMBOL) as [? Hx]; [|by rewrite lookup_empty in Hx].
    apply Hneeded. constructor.
  - cbn. do 2 f_equal. apply (reachable_without_entry objects Hno).
    by apply Hneeded.
Qed.

(** C6: when, after the live modules have been processed, some needed name
    has no entry in the global symbol table, the link fails with an
    UndefinedSymbol error naming a needed name that is missing, and the
    files are left as they were; a run that fails never writes; in
    particular, when no module exports [__START__] the link fails with
    UndefinedSymbol naming [__START__] and writes no output. *)
Theorem undefined_symbol_no_output input_files output_path w objects :
  load_objects input_files w = Ok objects →
  (∀ needed active live gst,
     resolve objects = Some (needed, active) →
     layout_loop needed (filter_active objects active) 0
       (total_size code_size (filter_active objects active)) ∅
     = Ok (live, gst) →
     (∃ n, n ∈ needed ∧ gst !! n = None) →
     ∃ n, n ∈ needed ∧ gst !! n = None
          ∧ link_objects input_files output_path w
            = (Err (UndefinedSymbol n), w))
  ∧ (∀ r w', link_objects input_files output_path w = (r, w') →
       (∀ s, r ≠ Ok s) → w' = w)
  ∧ ((∀ obj sym, obj ∈ objects → sym ∈ symbols obj →
        sym_type sym = SYMBOL_DEFINED → sym_name sym ≠ ENTRY_SYMBOL) →
     link_objects input_files output_path w
     = (Err (UndefinedSymbol ENTRY_SYMBOL), w)).
Proof.
  intros Hload. split_and!.
  - intros needed active live gst Hr Hl (n0 & Hn0 & Hmiss).
    destruct (verify_needed_cases needed gst) as [[_ Hall]|(n & Hv & Hn & Hg)].
    { destruct (Hall _ Hn0) as [? Hx]. congruence. }
    exists n. split_and!; [done..|].
    apply link_objects_layout_Err with objects; [done|].
    unfold layout_and_define_symbols. rewrite Hr.
    change (λ obj, text_size (header obj)) with code_size.
    rewrite Hl. cbn. by rewrite Hv.
  - apply link_objects_failure.
  - intros Hno. apply link_objects_layout_Err with objects; [done|].
    by apply layout_without_entry.
Qed.

(** C6 at a file system whose only input exports [other]: the link fails
    on [__START__] and writes nothing. *)
Lemma undefined_symbol_no_output_witness :
  load_objects ["c.o"] (world_of [scenario_C])
  = Ok [mk_object "c.o" 4 (zeros 4) 2 (zeros 2)
          [export "other" SECTION_DATA 0] []]
  ∧ link_objects ["c.o"] "out.bin" (world_of [scenario_C])
    = (Err (UndefinedSymbol ENTRY_SYMBOL), world_of [scenario_C]).
Proof.
  assert (load_objects ["c.o"] (world_of [scenario_C])
          = Ok [mk_object "c.o" 4 (zeros 4) 2 (zeros 2)
                  [export "other" SECTION_DATA 0] []]) as H
    by (vm_compute; reflexivity).
  split; [exact H|].
  apply (proj2 (proj2 (undefined_symbol_no_output _ "out.bin" _ _ H))).
  intros obj sym ->%list_elem_of_singleton ->%list_elem_of_singleton _.
  discriminate.
Defined.

(** ** The relocation engine *)

Lemma lor_range a b n :
  0 ≤ n → 0 ≤ a < 2 ^ n → 0 ≤ b < 2 ^ n → 0 ≤ Z.lor a b < 2 ^ n.
Proof.
  intros Hn Ha Hb. split; [apply Z.lor_nonneg; lia|].
  destruct (decide (Z.lor a b = 0)) as [->|Hne]; [lia|].
  apply Z.log2_lt_pow2; [pose proof (proj2 (Z.lor_nonneg a b)); lia|].
  rewrite Z.log2_lor by lia.
  destruct (decide (a = 0)) as [->|Ha0]; destruct (decide (b = 0)) as [->|Hb0].
  - done.
  - cbn [Z.log2]. rewrite Z.max_r by apply Z.log2_nonneg.
    apply Z.log2_lt_pow2; lia.
  - cbn [Z.log2]. rewrite Z.max_l by apply Z.log2_nonneg.
    apply Z.log2_lt_pow2; lia.
  - apply Z.max_lub_lt; apply Z.log2_lt_pow2; lia.
Qed.

Lemma land_range a m : 0 ≤ m → 0 ≤ Z.land a m ≤ m.
Proof.
  intros Hm. split; [apply Z.land_nonneg; auto|].
  destruct (decide (Z.land a m = 0)) as [->|Hne]; [done|].
  assert (0 ≤ Z.land a m) by (apply Z.land_nonneg; auto).
  assert (Z.ldiff m (Z.land a m) = m - Z.land a m) as Hsub.
  { rewrite Z.sub_nocarry_ldiff; [done|].
    apply Z.bits_inj'. intros k Hk.
    rewrite Z.ldiff_spec, Z.land_spec, Z.bits_0.
    destruct (Z.testbit a k), (Z.testbit m k); done. }
  assert (0 ≤ Z.ldiff m (Z.land a m)) by (apply Z.ldiff_nonneg; lia).
  lia.
Qed.

(** The low 26 bits of a value are those of any value congruent to it
    modulo 2^32. *)
Lemma land_low26_wrap32 z : Z.land (wrap32 z) 0x03FFFFFF = Z.land z 0x03FFFFFF.
Proof.
  change 0x03FFFFFF with (Z.ones 26). rewrite !Z.land_ones by lia.
  unfold wrap32. apply Z.mod_mod_divide. exists (2 ^ 6). reflexivity.
Qed.

Lemma value_to_write_absolute obj r target :
  reloc_type r = RELOC_ABSOLUTE → value_to_write obj r target = target.
Proof. intros Ht. unfold value_to_write. by rewrite Ht. Qed.

Lemma value_to_write_relative obj r target :
  reloc_type r = RELOC_RELATIVE →
  value_to_write obj r target
  = wrap32 (target - wrap32 (text_base_addr obj + reloc_offset r)).
Proof.
  intros Ht. unfold value_to_write. rewrite Ht. cbn. apply wrap32_to_int32.
Qed.

(** The word an Absolute relocation stores is the target address. *)
Lemma patch_word_absolute obj r existing target :
  reloc_type r = RELOC_ABSOLUTE →
  patch_word r existing (value_to_write obj r target) = target.
Proof.
  intros Ht. rewrite value_to_write_absolute by done.
  unfold patch_word. by rewrite Ht.
Qed.

(** The word a RelativeBranch relocation stores: the top 6 bits of the
    existing word, the low 26 bits of the byte distance. *)
Lemma patch_word_relative obj r existing target :
  reloc_type r = RELOC_RELATIVE →
  0 ≤ existing < 2 ^ 32 →
  patch_word r existing (value_to_write obj r target)
  = Z.lor (Z.land existing 0xFC000000)
      (Z.land (target - (text_base_addr obj + reloc_offset r)) 0x03FFFFFF)
  ∧ 0 ≤ patch_word r existing (value_to_write obj r target) < 2 ^ 32.
Proof.
  intros Ht He. rewrite value_to_write_relative by done.
  unfold patch_word. rewrite Ht. cbn [Z.eqb RELOC_RELATIVE Pos.eqb].
  rewrite land_low26_wrap32.
  assert (Z.land (target - wrap32 (text_base_addr obj + reloc_offset r))
            0x03FFFFFF
          = Z.land (target - (text_base_addr obj + reloc_offset r))
              0x03FFFFFF) as ->.
  { rewrite <- land_low26_wrap32. symmetry. rewrite <- land_low26_wrap32.
    f_equal. unfold wrap32. rewrite Zminus_mod_idemp_r. done. }
  split; [done|].
  apply (lor_range _ _ 32); [lia| |].
  - pose proof (land_range existing 0xFC000000 ltac:(lia)). lia.
  - pose proof (land_range (target - (text_base_addr obj + reloc_offset r))
                  0x03FFFFFF ltac:(lia)). lia.
Qed.

(** A relocation that is applied reads its symbol from the table and
    rewrites one word that lies within the code. *)
Lemma apply_reloc_Ok gst obj r obj' :
  apply_reloc gst obj r = Ok obj' →
  ∃ target existing,
    gst !! reloc_symbol_name r = Some target
    ∧ read32 (text_section obj) (reloc_offset r) = Some existing
    ∧ obj' = set_text_section obj
               (write32 (text_section obj) (reloc_offset r)
                  (patch_word r existing (value_to_write obj r target))).
Proof.
  unfold apply_reloc. intros H.
  destruct (gst !! reloc_symbol_name r) as [target|]; [|done].
  destruct (_ >? _); [done|].
  destruct (read32 _ _) as [existing|]; [|done].
  simplify_eq. eauto.
Qed.

Lemma same_but_code_refl obj : same_but_code obj obj.
Proof. by repeat split. Qed.

Lemma same_but_code_trans o1 o2 o3 :
  same_but_code o1 o2 → same_but_code o2 o3 → same_but_code o1 o3.
Proof.
  unfold same_but_code. intros (?&?&?&?&?&?&?&?) (?&?&?&?&?&?&?&?).
  split_and!; congruence.
Qed.

Lemma apply_reloc_frame gst obj r obj' :
  apply_reloc gst obj r = Ok obj' →
  same_but_code obj obj'
  ∧ (∀ k, outside_window k r →
       text_section obj' !! k = text_section obj !! k)
  ∧ (∀ off, reloc_offset r + 4 ≤ off ∨ off + 4 ≤ reloc_offset r →
       read32 (text_section obj') off = read32 (text_section obj) off).
Proof.
  intros (target & existing & _ & Hrd & ->)%apply_reloc_Ok.
  apply read32_Some in Hrd as (Hlo & Hhi & _). cbn [text_section set_text_section].
  split_and!.
  - unfold same_but_code. cbn. split_and!; try done.
    by apply length_write32.
  - intros k Hk. by apply write32_lookup_other.
  - intros off Hoff. apply read32_write32_other; [done..|]. lia.
Qed.

(** All the relocations of one object: everything but the code bytes in
    the windows is as before. *)
Lemma apply_relocs_frame gst rs : ∀ obj obj',
  apply_relocs gst obj rs = Ok obj' →
  same_but_code obj obj'
  ∧ (∀ k, (∀ r, r ∈ rs → outside_window k r) →
       text_section obj' !! k = text_section obj !! k)
  ∧ (∀ off, (∀ r, r ∈ rs →
               reloc_offset r + 4 ≤ off ∨ off + 4 ≤ reloc_offset r) →
       read32 (text_section obj') off = read32 (text_section obj) off).
Proof.
  induction rs as [|r rs IH]; intros obj obj' H.
  - simplify_eq/=. split_and!; [apply same_but_code_refl|done..].
  - cbn [apply_relocs] in H.
    destruct (apply_reloc gst obj r) as [obj1| | |] eqn:E; try done.
    cbn in H. destruct (apply_reloc_frame _ _ _ _ E) as (Hs1 & Hk1 & Hw1).
    destruct (IH _ _ H) as (Hs2 & Hk2 & Hw2). split_and!.
    + by eapply same_but_code_trans.
    + intros k Hk. rewrite Hk2, Hk1; [done| |].
      * apply Hk. by left.
      * intros r' Hr'. apply Hk. by right.
    + intros off Hoff. rewrite Hw2, Hw1; [done| |].
      * apply Hoff. by left.
      * intros r' Hr'. apply Hoff. by right.
Qed.

(** The word at the site of a relocation whose window no other relocation
    of the object overlaps. *)
Lemma apply_relocs_site gst rs : ∀ obj obj' j r,
  apply_relocs gst obj rs = Ok obj' →
  rs !! j = Some r →
  (∀ j' r', rs !! j' = Some r' → j' ≠ j → disjoint_windows r r') →
  ∃ target existing,
    gst !! reloc_symbol_name r = Some target
    ∧ read32 (text_section obj) (reloc_offset r) = Some existing
    ∧ read32 (text_section obj') (reloc_offset r)
      = Some (wrap32 (patch_word r existing (value_to_write obj r target))).
Proof.
  induction rs as [|r0 rs IH]; intros obj obj' j r H Hj Hdis; [done|].
  cbn [apply_relocs] in H.
  destruct (apply_reloc gst obj r0) as [obj1| | |] eqn:E; try done.
  cbn in H. destruct j as [|j]; simplify_eq/=.
  - destruct (apply_reloc_Ok _ _ _ _ E) as (target & existing & Hg & Hrd & ->).
    exists target, existing. split_and!; [done..|].
    destruct (apply_relocs_frame _ _ _ _ H) as (_ & _ & Hw).
    rewrite Hw.
    + cbn [text_section set_text_section].
      apply read32_Some in Hrd as (? & ? & _). by apply read32_write32.
    + intros r' [j' Hr']%list_elem_of_lookup.
      destruct (Hdis (S j') r' Hr' ltac:(lia)) as [?|?]; lia.
  - destruct (apply_reloc_frame _ _ _ _ E) as (Hs & _ & Hw).
    destruct (IH _ _ _ _ H Hj) as (target & existing & Hg & Hrd & Hrd').
    { intros j' r' Hr' Hne. apply (Hdis (S j') r' Hr'). lia. }
    exists target, existing. split_and!; [done| |].
    + rewrite <- Hrd. symmetry. apply Hw.
      destruct (Hdis 0%nat r0 eq_refl ltac:(lia)) as [?|?]; lia.
    + rewrite Hrd'. do 3 f_equal. unfold value_to_write.
      destruct Hs as (_ & _ & _ & _ & _ & -> & _). done.
Qed.

(** The engine treats the objects one by one. *)
Lemma apply_relocations_Forall2 gst objects : ∀ objects',
  apply_relocations objects gst = Ok objects' →
  Forall2 (λ obj obj', apply_relocs gst obj (relocs obj) = Ok obj')
    objects objects'.
Proof.
  induction objects as [|obj objects IH]; intros objects' H.
  - simplify_eq/=. constructor.
  - cbn [apply_relocations] in H.
    destruct (apply_relocs gst obj (relocs obj)) as [obj1| | |] eqn:E;
      try done. cbn in H.
    destruct (apply_relocations objects gst) as [rest| | |]; try done.
    cbn in H. simplify_eq. constructor; auto.
Qed.

(** The addresses the binder puts in the table are 32-bit values. *)
Lemma final_addr_range obj sym : 0 ≤ final_addr obj sym < 2 ^ 32.
Proof.
  unfold final_addr. repeat case_match; try apply wrap32_range. lia.
Qed.

Lemma layout_table_range objects live (gst : gmap string Z) tts tds
    (n : string) (a : Z) :
  layout_and_define_symbols objects ∅ = Ok (live, gst, tts, tds) →
  gst !! n = Some a → 0 ≤ a < 2 ^ 32.
Proof.
  intros H Hn.
  destruct (layout_and_define_symbols_Ok _ _ _ _ _ _ H)
    as (needed & active & _ & Htts & _ & Hl & _).
  assert (wrap32 tts = tts) as Hw
    by (rewrite Htts, total_size_sum; apply wrap32_idemp).
  destruct (layout_loop_spec _ _ _ _ _ _ _ eq_refl Hw Hl)
    as (_ & _ & _ & _ & Htab).
  apply Htab in Hn.
  destruct Hn as [Hn|(i & o & sym & _ & _ & _ & _ & _ & Ha)].
  - by rewrite lookup_empty in Hn.
  - rewrite Ha. apply final_addr_range.
Qed.

(** C10: when the relocation engine succeeds it returns the same modules,
    in the same order, each with the same name, header, data bytes, symbol
    table, relocation table, base addresses and code length; and every
    code byte that lies outside the 4-byte windows of the module's
    relocations is as it was. *)
Theorem apply_relocations_frame objects gst objects' :
  apply_relocations objects gst = Ok objects' →
  length objects' = length objects
  ∧ ∀ i obj obj', objects !! i = Some obj → objects' !! i = Some obj' →
      same_but_code obj obj'
      ∧ ∀ k, (∀ r, r ∈ relocs obj → outside_window k r) →
          text_section obj' !! k = text_section obj !! k.
Proof.
  intros H%apply_relocations_Forall2. split.
  - symmetry. by eapply Forall2_length.
  - intros i obj obj' Ho Ho'.
    pose proof (Forall2_lookup_lr _ _ _ _ _ _ H Ho Ho') as Hrs.
    destruct (apply_relocs_frame _ _ _ _ Hrs) as (Hs & Hk & _). done.
Qed.

(** C10 at the scenario of the specification: only the instruction word of
    A changes. *)
Lemma apply_relocations_frame_witness :
  apply_relocations
    [set_base_addrs scenario_A 0 8; set_base_addrs scenario_B 4 8]
    {["__START__" := 0; "helper" := 4]}
  = Ok [set_text_section (set_base_addrs scenario_A 0 8)
          [x04; x00; x00; x00];
        set_base_addrs scenario_B 4 8]
  ∧ same_but_code (set_base_addrs scenario_B 4 8)
      (set_base_addrs scenario_B 4 8).
Proof.
  assert (apply_relocations
            [set_base_addrs scenario_A 0 8; set_base_addrs scenario_B 4 8]
            {["__START__" := 0; "helper" := 4]}
          = Ok [set_text_section (set_base_addrs scenario_A 0 8)
                  [x04; x00; x00; x00];
                set_base_addrs scenario_B 4 8]) as H
    by (vm_compute; reflexivity).
  split; [exact H|].
  exact (proj1 (proj2 (apply_relocations_frame _ _ _ H) 1%nat _ _
                  eq_refl eq_refl)).
Defined.

(** The engine on a list of relocations cut in two. *)
Lemma apply_relocs_app gst rs1 : ∀ rs2 obj obj',
  apply_relocs gst obj (rs1 ++ rs2) = Ok obj' →
  ∃ mid, apply_relocs gst obj rs1 = Ok mid
         ∧ apply_relocs gst mid rs2 = Ok obj'.
Proof.
  induction rs1 as [|r rs1 IH]; intros rs2 obj obj' H.
  - exists obj. done.
  - cbn [app apply_relocs] in H |- *.
    destruct (apply_reloc gst obj r) as [obj1| | |]; try done.
    cbn in H |- *. by apply IH.
Qed.

(** C2 (as amended): after a successful layout and a successful run of the
    relocation engine, for a relocation whose window no later relocation
    of the same module overlaps, the word at [patch_offset] is: for an
    Absolute relocation the address the table gives for the symbol; for a
    RelativeBranch relocation the existing word's top 6 bits with the low
    26 bits of [target - (code_base + patch_offset)], without any overflow
    check.  The existing word is the one the engine reads when it applies
    the relocation, that is the word of the module [before], patched by the
    relocations that come earlier in the table; when no earlier relocation
    overlaps the window either, it is the word of the module as loaded. *)
Theorem relocation_patch_values inputs objects (gst : gmap string Z) tts tds
    objects' (i : nat) obj obj' (j : nat) r :
  layout_and_define_symbols inputs ∅ = Ok (objects, gst, tts, tds) →
  apply_relocations objects gst = Ok objects' →
  objects !! i = Some obj → objects' !! i = Some obj' →
  relocs obj !! j = Some r →
  (∀ j' r', relocs obj !! j' = Some r' → (j < j')%nat →
            disjoint_windows r r') →
  ∃ before,
    apply_relocs gst obj (take j (relocs obj)) = Ok before
    ∧ text_base_addr before = text_base_addr obj
    ∧ patched_site gst before obj' r
    ∧ ((∀ j' r', relocs obj !! j' = Some r' → (j' < j)%nat →
                 disjoint_windows r r') →
       patched_site gst obj obj' r).
Proof.
  intros Hlay Happ Ho Ho' Hr Hdis.
  pose proof (Forall2_lookup_lr _ _ _ _ _ _
                (apply_relocations_Forall2 _ _ _ Happ) Ho Ho') as Hrs.
  assert (∀ o existing target,
            gst !! reloc_symbol_name r = Some target →
            read32 (text_section o) (reloc_offset r) = Some existing →
            read32 (text_section obj') (reloc_offset r)
            = Some (wrap32 (patch_word r existing (value_to_write o r target))) →
            patched_site gst o obj' r) as Hsite.
  { intros o existing target Hg Hrd Hrd'.
    exists target, existing. split_and!; [done..| |].
    - intros Ht. rewrite Hrd', patch_word_absolute by done.
      rewrite wrap32_small; [done|]. by eapply layout_table_range.
    - intros Ht.
      assert (0 ≤ existing < 2 ^ 32) as He.
      { apply read32_Some in Hrd as (_ & _ & ->). apply le32_range. }
      destruct (patch_word_relative o r existing target Ht He)
        as [Heq Hrange].
      rewrite Hrd', wrap32_small by done. by rewrite Heq. }
  cbv beta in Hrs. pose proof Hrs as Hcut.
  rewrite <- (take_drop_middle _ _ _ Hr) in Hcut.
  apply apply_relocs_app in Hcut as (before & Hbefore & Hrest).
  exists before. split_and!; [done| | |].
  - by destruct (apply_relocs_frame _ _ _ _ Hbefore)
      as ((_ & _ & _ & _ & _ & ? & _) & _).
  - destruct (apply_relocs_site _ _ _ _ 0%nat r Hrest eq_refl)
      as (target & existing & Hg & Hrd & Hrd').
    { intros [|j'] r' Hr' Hne; [done|].
      apply (Hdis (S j + j')%nat); [|lia]. rewrite <- lookup_drop.
      exact Hr'. }
    by eapply Hsite.
  - intros Hearlier.
    destruct (apply_relocs_site _ _ _ _ j r Hrs Hr)
      as (target & existing & Hg & Hrd & Hrd').
    { intros j' r' Hr' Hne.
      destruct (decide (j' < j)%nat); [by eapply Hearlier|].
      apply (Hdis _ _ Hr'). lia. }
    by eapply Hsite.
Qed.

(** The amended C2 at the module with two Absolute relocations on the word
    at offset 0: the second is overlapped by the first and by no later one;
    the engine applies it to the module already patched by the first (the
    word 4, the address of [x]) and leaves its own target, the address 0
    of [__START__]. *)
Lemma relocation_patch_values_witness :
  layout_and_define_symbols [overlap_module] ∅
  = Ok ([set_base_addrs overlap_module 0 8],
        {["__START__" := 0; "x" := 4]}, 8, 0)
  ∧ ∃ before,
      apply_relocs {["__START__" := 0; "x" := 4]}
        (set_base_addrs overlap_module 0 8)
        (take 1 (relocs (set_base_addrs overlap_module 0 8))) = Ok before
      ∧ text_base_addr before = 0
      ∧ patched_site {["__START__" := 0; "x" := 4]} before
          (set_base_addrs overlap_module 0 8)
          (reloc 0 "__START__" RELOC_ABSOLUTE)
      ∧ ((∀ j' r',
            relocs (set_base_addrs overlap_module 0 8) !! j' = Some r' →
            (j' < 1)%nat →
            disjoint_windows (reloc 0 "__START__" RELOC_ABSOLUTE) r') →
         patched_site {["__START__" := 0; "x" := 4]}
           (set_base_addrs overlap_module 0 8)
           (set_base_addrs overlap_module 0 8)
           (reloc 0 "__START__" RELOC_ABSOLUTE)).
Proof.
  assert (layout_and_define_symbols [overlap_module] ∅
          = Ok ([set_base_addrs overlap_module 0 8],
                {["__START__" := 0; "x" := 4]}, 8, 0)) as H
    by (vm_compute; reflexivity).
  assert (apply_relocations [set_base_addrs overlap_module 0 8]
            {["__START__" := 0; "x" := 4]}
          = Ok [set_base_addrs overlap_module 0 8]) as Happ
    by (vm_compute; reflexivity).
  split; [exact H|].
  refine (relocation_patch_values _ _ _ _ _ _ 0%nat _ _ 1%nat _
            H Happ eq_refl eq_refl eq_refl _).
  intros j' r' Hr' Hlt. destruct j' as [|[|j']]; [lia..|].
  cbn in Hr'. destruct j'; discriminate Hr'.
Defined.

(** C2, counterexample: a module with two Absolute relocations on the word
    at offset 0, the first to [x] (address 4), the second to [__START__]
    (address 0).  Both pass the bounds check and the link succeeds; after
    the engine has run the word is 0, not the address of [x]. *)
Lemma overlapping_relocations_counterexample :
  ∃ live gst patched obj',
    layout_and_define_symbols [overlap_module] ∅ = Ok (live, gst, 8, 0)
    ∧ apply_relocations live gst = Ok patched
    ∧ patched !! 0%nat = Some obj'
    ∧ relocs overlap_module !! 0%nat = Some (reloc 0 "x" RELOC_ABSOLUTE)
    ∧ 0 + 4 ≤ Z.of_nat (length (text_section overlap_module))
    ∧ gst !! "x" = Some 4
    ∧ read32 (text_section obj') 0 = Some 0.
Proof.
  eexists _, _, _, _. split_and!.
  - vm_compute. reflexivity.
  - vm_compute. reflexivity.
  - reflexivity.
  - reflexivity.
  - cbn. lia.
  - vm_compute. reflexivity.
  - vm_compute. reflexivity.
Qed.

(** ** The bounds check (C7) *)

(** A window that ends beyond the code, at an offset for which
    [patch_offset + 4] does not wrap, is rejected. *)
Lemma apply_reloc_out_of_bounds gst obj r target :
  gst !! reloc_symbol_name r = Some target →
  0 ≤ reloc_offset r → reloc_offset r + 4 < 2 ^ 32 →
  Z.of_nat (length (text_section obj)) < reloc_offset r + 4 →
  apply_reloc gst obj r = Err (RelocationOutOfBounds (filename obj)).
Proof.
  intros Hg Hlo Hhi Hout. unfold apply_reloc. rewrite Hg.
  rewrite wrap32_small by lia.
  destruct (_ >? _) eqn:E; [done|].
  rewrite Z.gtb_ltb in E. apply Z.ltb_ge in E. lia.
Qed.

(** At offsets from 2^32 - 4 on the sum wraps; when the wrapped sum does
    not exceed the code length the check passes and the access lies outside
    the buffer. *)
Lemma apply_reloc_wraps gst obj r target :
  gst !! reloc_symbol_name r = Some target →
  2 ^ 32 - 4 ≤ reloc_offset r < 2 ^ 32 →
  reloc_offset r + 4 - 2 ^ 32 ≤ Z.of_nat (length (text_section obj)) →
  Z.of_nat (length (text_section obj)) < 2 ^ 32 →
  apply_reloc gst obj r = Undef.
Proof.
  intros Hg Hoff Hpass Hlen. unfold apply_reloc. rewrite Hg.
  assert (wrap32 (reloc_offset r + 4) = reloc_offset r + 4 - 2 ^ 32) as ->.
  { unfold wrap32.
    rewrite <- (Z.mod_add (reloc_offset r + 4) (-1) (2 ^ 32)) by lia.
    rewrite Z.mod_small by lia. lia. }
  destruct (_ >? _) eqn:E.
  { rewrite Z.gtb_ltb in E. apply Z.ltb_lt in E. lia. }
  unfold read32.
  destruct (reloc_offset r + 4 <=? _) eqn:E2.
  { apply Z.leb_le in E2. lia. }
  by rewrite andb_false_r.
Qed.

(** C7, at the failing input: a live module of 4 code bytes with a
    relocation at offset 4294967292.  The window ends 4294967292 bytes
    beyond the code, yet the run does not end in RelocationOutOfBounds:
    the check computes 0 > 4 and the engine goes on to access the word
    outside the buffer. *)
Theorem bounds_check_wraps :
  load_objects ["w.o"] (world_of [wrap_module]) = Ok [wrap_module]
  ∧ Z.of_nat (length (text_section wrap_module)) < 4294967292 + 4
  ∧ wrap32 (4294967292 + 4) = 0
  ∧ layout_and_define_symbols [wrap_module] ∅
    = Ok ([set_base_addrs wrap_module 0 4], {["__START__" := 0]}, 4, 0)
  ∧ apply_relocations [set_base_addrs wrap_module 0 4] {["__START__" := 0]}
    = Undef
  ∧ link_objects ["w.o"] "out.bin" (world_of [wrap_module])
    = (Undef, world_of [wrap_module]).
Proof.
  split_and!.
  - vm_compute. reflexivity.
  - cbn. lia.
  - reflexivity.
  - vm_compute. reflexivity.
  - vm_compute. reflexivity.
  - vm_compute. reflexivity.
Qed.

(** ** The object loader (C8) *)

Lemma padded_length n bs : length (padded n bs) = n.
Proof.
  unfold padded. rewrite length_take, length_app, length_replicate. lia.
Qed.

Lemma padded_exact bs rest : padded (length bs) (bs ++ rest) = bs.
Proof.
  unfold padded. rewrite <- app_assoc. by rewrite take_app_length.
Qed.

Lemma padded_nil n : padded n [] = replicate n x00.
Proof. unfold padded. cbn. rewrite take_ge; [done|]. by rewrite length_replicate. Qed.

(** A stream is in a consistent state when it is good or has nothing
    left. *)
Lemma read_vector_spec n s :
  good s = true ∨ remaining s = [] →
  ∃ s', read_vector n s = (padded n (remaining s), s')
        ∧ remaining s' = drop n (remaining s)
        ∧ (good s' = true ∨ remaining s' = []).
Proof.
  intros Hs. unfold read_vector, read.
  destruct (0 <? n)%nat eqn:Hn.
  - destruct (good s) eqn:Hg.
    + destruct (n <=? length (remaining s))%nat eqn:Hle.
      * apply Nat.leb_le in Hle.
        exists {| remaining := drop n (remaining s); good := true |}.
        split_and!; [|done|by left].
        f_equal. unfold padded.
        rewrite drop_ge by (rewrite length_replicate; lia).
        rewrite app_nil_r. by rewrite take_app_le.
      * apply Nat.leb_gt in Hle.
        exists {| remaining := []; good := false |}.
        split_and!; [|cbn|by right].
        -- f_equal. unfold padded. rewrite take_app_ge by lia.
           f_equal. rewrite drop_replicate, take_replicate. f_equal. lia.
        -- symmetry. apply drop_ge. lia.
    + destruct Hs as [|Hnil]; [done|]. exists s. rewrite Hnil.
      split_and!; [|by rewrite drop_nil|by right].
      by rewrite padded_nil.
  - apply Nat.ltb_ge in Hn. assert (n = 0)%nat as -> by lia.
    exists s. split_and!; [done|done|done].
Qed.

Lemma le32_take m bs : (4 ≤ m)%nat → le32 (take m bs) = le32 bs.
Proof.
  intros Hm. apply le32_ext. intros k Hk. apply lookup_take_lt. lia.
Qed.

Lemma le32_drop_take k m bs :
  (k + 4 ≤ m)%nat → le32 (drop k (take m bs)) = le32 (drop k bs).
Proof.
  intros Hm. apply le32_ext. intros i Hi.
  rewrite !lookup_drop. apply lookup_take_lt. lia.
Qed.

Lemma decode_header_take bs :
  decode_header (take sizeof_FileHeader bs) = decode_header bs.
Proof.
  unfold decode_header, sizeof_FileHeader.
  rewrite le32_take by lia. by rewrite !le32_drop_take by lia.
Qed.

(** The loader never reports a short read: a file with a complete header
    and the right magic yields an object whose sections have the declared
    sizes and hold what the file had, zero-filled where it ended. *)
Lemma load_object_file_spec path w contents :
  files w !! path = Some contents →
  (sizeof_FileHeader ≤ length contents)%nat →
  le32 contents = LINKER_MAGIC →
  let h := decode_header contents in
  let ts := Z.to_nat (text_size h) in
  let ds := Z.to_nat (data_size h) in
  let ns := Z.to_nat (symtable_count h) in
  let nr := Z.to_nat (reloc_count h) in
  let rest := drop sizeof_FileHeader contents in
  load_object_file path w
  = Ok {| filename := path; header := h;
          text_section := padded ts rest;
          data_section := padded ds (drop ts rest);
          symbols :=
            decode_symbol <$>
              records ns sizeof_SymbolEntry
                (padded (ns * sizeof_SymbolEntry) (drop ds (drop ts rest)));
          relocs :=
            decode_reloc <$>
              records nr sizeof_RelocEntry
                (padded (nr * sizeof_RelocEntry)
                   (drop (ns * sizeof_SymbolEntry) (drop ds (drop ts rest))));
          text_base_addr := 0; data_base_addr := 0 |}.
Proof.
  intros Hf Hlen Hmagic. cbv zeta.
  unfold load_object_file. rewrite Hf.
  assert ((length contents <? 4)%nat = false) as ->
    by (apply Nat.ltb_ge; unfold sizeof_FileHeader in Hlen; lia).
  unfold read at 1. cbn [good remaining].
  assert ((sizeof_FileHeader <=? length contents)%nat = true) as ->
    by (by apply Nat.leb_le).
  rewrite (drop_ge (replicate _ _))
    by (rewrite length_replicate; lia).
  rewrite app_nil_r.
  rewrite le32_take by (unfold sizeof_FileHeader; lia).
  rewrite Hmagic, Z.eqb_refl. cbn [negb].
  assert ((length contents <? sizeof_FileHeader)%nat = false) as ->
    by (apply Nat.ltb_ge; lia).
  rewrite decode_header_take.
  set (h := decode_header contents).
  set (rest := drop sizeof_FileHeader contents).
  destruct (read_vector_spec (Z.to_nat (text_size h))
              {| remaining := rest; good := true |})
    as (s1 & -> & Hr1 & Hg1); [by left|]. cbn [remaining] in Hr1.
  destruct (read_vector_spec (Z.to_nat (data_size h)) s1)
    as (s2 & -> & Hr2 & Hg2); [done|].
  destruct (read_vector_spec
              (Z.to_nat (symtable_count h) * sizeof_SymbolEntry) s2)
    as (s3 & -> & Hr3 & Hg3); [done|].
  destruct (read_vector_spec
              (Z.to_nat (reloc_count h) * sizeof_RelocEntry) s3)
    as (s4 & -> & Hr4 & Hg4); [done|].
  rewrite Hr3, Hr2, Hr1. done.
Qed.

Lemma length_records count size : ∀ bs, length (records count size bs) = count.
Proof. induction count as [|c IH]; intros bs; cbn; [done|by rewrite IH]. Qed.

(** C8 (as amended): the loader makes no short-read check.  For every file
    that holds a complete header with the right magic it returns an object
    and no error, however few bytes follow the header: the sections and
    tables have the declared sizes, are filled in the fixed order code,
    data, symbols, relocations with the bytes the file holds, and are zero
    where the file ends short. *)
Theorem load_ignores_truncation path w contents :
  files w !! path = Some contents →
  (sizeof_FileHeader ≤ length contents)%nat →
  le32 contents = LINKER_MAGIC →
  ∃ obj, load_object_file path w = Ok obj ∧ loaded_from contents obj.
Proof.
  intros Hf Hlen Hmagic. eexists. split.
  - by apply load_object_file_spec.
  - unfold loaded_from. cbn.
    rewrite !padded_length, !length_fmap, !length_records. done.
Qed.

(** C8, counterexample: a file whose header declares 4 bytes of code and
    that holds 2 bytes after the header is loaded without an error, as an
    object whose code is the 2 bytes followed by 2 zero bytes. *)
Lemma truncated_file_loads :
  (length (drop sizeof_FileHeader truncated_file)
   < Z.to_nat (text_size (decode_header truncated_file)))%nat
  ∧ ∃ obj, load_object_file "t.o" truncated_world = Ok obj
           ∧ text_section obj = [x01; x02; x00; x00].
Proof.
  split; [vm_compute; lia|]. eexists. split; [vm_compute; reflexivity|done].
Qed.

(** The amended C8 at the truncated file. *)
Lemma load_ignores_truncation_witness :
  files truncated_world !! "t.o" = Some truncated_file
  ∧ ∃ obj, load_object_file "t.o" truncated_world = Ok obj
           ∧ loaded_from truncated_file obj.
Proof.
  assert (files truncated_world !! "t.o" = Some truncated_file) as H
    by (vm_compute; reflexivity).
  split; [exact H|].
  apply (load_ignores_truncation "t.o" truncated_world truncated_file H).
  - vm_compute. lia.
  - vm_compute. reflexivity.
Defined.

(** A successful load comes from a file with a complete header and the
    right magic. *)
Lemma load_object_file_Ok path w obj :
  load_object_file path w = Ok obj →
  ∃ contents, files w !! path = Some contents
    ∧ (sizeof_FileHeader ≤ length contents)%nat
    ∧ le32 contents = LINKER_MAGIC.
Proof.
  unfold load_object_file. intros H.
  destruct (files w !! path) as [contents|]; [|done]. exists contents.
  destruct (length contents <? 4)%nat eqn:E4; [done|].
  apply Nat.ltb_ge in E4.
  destruct (read _ _ _) as [hdr file] eqn:Er.
  assert (le32 hdr = le32 contents) as Hh.
  { unfold read in Er. cbn [good remaining] in Er.
    destruct (_ <=? _)%nat; simplify_eq.
    - rewrite <- (le32_take sizeof_FileHeader contents)
        by (unfold sizeof_FileHeader; lia).
      apply le32_ext. intros k Hk. apply lookup_app_l.
      rewrite length_take. unfold sizeof_FileHeader. lia.
    - apply le32_ext. intros k Hk. apply lookup_app_l. lia. }
  rewrite Hh in H.
  destruct (le32 contents =? LINKER_MAGIC) eqn:Em; [|done].
  cbn [negb] in H.
  destruct (length contents <? sizeof_FileHeader)%nat eqn:E20; [done|].
  apply Nat.ltb_ge in E20. apply Z.eqb_eq in Em. done.
Qed.

Lemma load_object_file_well_formed path w obj :
  load_object_file path w = Ok obj → well_formed obj.
Proof.
  intros H.
  destruct (load_object_file_Ok _ _ _ H) as (contents & Hf & Hlen & Hm).
  rewrite (load_object_file_spec _ _ _ Hf Hlen Hm) in H. simplify_eq.
  unfold well_formed. cbn. rewrite !padded_length.
  unfold decode_header. cbn.
  pose proof (le32_range (drop 4 contents)).
  pose proof (le32_range (drop 8 contents)). lia.
Qed.

Lemma load_objects_well_formed input_files w : ∀ objects,
  load_objects input_files w = Ok objects → Forall well_formed objects.
Proof.
  induction input_files as [|path paths IH]; intros objects H.
  - simplify_eq/=. constructor.
  - cbn [load_objects] in H.
    destruct (load_object_file path w) as [obj| | |] eqn:E; try done.
    cbn in H.
    destruct (load_objects paths w) as [rest| | |]; try done.
    cbn in H. simplify_eq.
    constructor; [by eapply load_object_file_well_formed|by apply IH].
Qed.

Lemma decode_encode_header h rest :
  header_in_range h → decode_header (encode_header h ++ rest) = h.
Proof.
  intros (Hm & Ht & Hd & Hs & Hr). destruct h as [m t d s r].
  cbn [magic text_size data_size symtable_count reloc_count] in *.
  unfold decode_header, encode_header.
  cbn [magic text_size data_size symtable_count reloc_count].
  rewrite <- !app_assoc.
  change (drop 4 (bytes32 m ++ ?x)) with x.
  change (drop 8 (bytes32 m ++ bytes32 t ++ ?x)) with x.
  change (drop 12 (bytes32 m ++ bytes32 t ++ bytes32 d ++ ?x)) with x.
  change (drop 16 (bytes32 m ++ bytes32 t ++ bytes32 d ++ bytes32 s ++ ?x))
    with x.
  rewrite !le32_bytes32, !wrap32_small by done. done.
Qed.

(** Loading a file that holds exactly what its header declares. *)
Lemma load_object_file_exact path w h text data tbl :
  files w !! path = Some (encode_header h ++ text ++ data ++ tbl) →
  magic h = LINKER_MAGIC →
  header_in_range h →
  Z.of_nat (length text) = text_size h →
  Z.of_nat (length data) = data_size h →
  load_object_file path w
  = Ok {| filename := path; header := h;
          text_section := text; data_section := data;
          symbols :=
            decode_symbol <$>
              records (Z.to_nat (symtable_count h)) sizeof_SymbolEntry
                (padded (Z.to_nat (symtable_count h) * sizeof_SymbolEntry)
                   tbl);
          relocs :=
            decode_reloc <$>
              records (Z.to_nat (reloc_count h)) sizeof_RelocEntry
                (padded (Z.to_nat (reloc_count h) * sizeof_RelocEntry)
                   (drop (Z.to_nat (symtable_count h) * sizeof_SymbolEntry)
                      tbl));
          text_base_addr := 0; data_base_addr := 0 |}.
Proof.
  intros Hf Hmagic Hrange Htext Hdata.
  assert (length (encode_header h) = sizeof_FileHeader) as Hlh by done.
  rewrite (load_object_file_spec _ _ _ Hf).
  - rewrite decode_encode_header by done.
    rewrite <- Hlh at 1 2 3 4. rewrite drop_app_length.
    assert (Z.to_nat (text_size h) = length text) as -> by lia.
    assert (Z.to_nat (data_size h) = length data) as -> by lia.
    rewrite padded_exact, drop_app_length, padded_exact, drop_app_length.
    done.
  - rewrite length_app, Hlh. lia.
  - pose proof (decode_encode_header h (text ++ data ++ tbl) Hrange) as Hd.
    apply (f_equal magic) in Hd. unfold decode_header in Hd.
    cbn [magic] in Hd. by rewrite Hd.
Qed.

(** ** The image writer (C4) *)

Lemma foldl_app_concat {A} (f : A → list byte) (l : list A) : ∀ acc,
  foldl (λ out x, out ++ f x) acc l = acc ++ concat (f <$> l).
Proof.
  induction l as [|x l IH]; intros acc; cbn.
  - by rewrite app_nil_r.
  - by rewrite IH, app_assoc.
Qed.

(** The bytes written: all code, then all data. *)
Lemma image_concat objects :
  image objects
  = concat (text_section <$> objects) ++ concat (data_section <$> objects).
Proof. unfold image. by rewrite !foldl_app_concat. Qed.

Lemma length_concat_sections (f : LoadedObject → list byte)
    (size : LoadedObject → Z) objects :
  Forall (λ obj, size obj = Z.of_nat (length (f obj))) objects →
  Z.of_nat (length (concat (f <$> objects))) = sum_sizes size objects.
Proof.
  unfold sum_sizes. induction 1 as [|obj objects Ho _ IH]; cbn; [done|].
  rewrite length_app, Nat2Z.inj_add, IH, Ho. done.
Qed.

(** Layout keeps the active objects, but for their base addresses. *)
Lemma layout_keeps objects live gst tts tds :
  layout_and_define_symbols objects ∅ = Ok (live, gst, tts, tds) →
  ∃ needed active,
    resolve objects = Some (needed, active)
    ∧ Forall2 (λ obj obj', ∃ tb db, obj' = set_base_addrs obj tb db)
        (filter_active objects active) live.
Proof.
  intros H.
  destruct (layout_spec _ _ _ _ _ _ H)
    as (needed & active & Hr & _ & Hlen & _ & _ & Hlk).
  exists needed, active. split; [done|].
  apply Forall2_same_length_lookup_2; [done|].
  intros i obj obj' Ho Ho'. rewrite (Hlk _ _ Ho) in Ho'. simplify_eq. eauto.
Qed.

Lemma sum_sizes_Forall2 size (l l' : list LoadedObject) :
  Forall2 (λ obj obj', size obj' = size obj) l l' →
  sum_sizes size l' = sum_sizes size l.
Proof.
  unfold sum_sizes. induction 1 as [|o o' l l' Ho _ IH]; cbn; [done|].
  by rewrite Ho, IH.
Qed.

Lemma layout_live_well_formed objects live gst tts tds :
  layout_and_define_symbols objects ∅ = Ok (live, gst, tts, tds) →
  Forall well_formed objects →
  Forall well_formed live.
Proof.
  intros H Hwf. destruct (layout_keeps _ _ _ _ _ H) as (needed & active & _ & Hk).
  pose proof (Forall_filter_active _ _ active Hwf) as Hf.
  clear H Hwf. revert Hf Hk. generalize (filter_active objects active).
  intros kept Hf Hk. revert Hf.
  induction Hk as [|o o' l l' (tb & db & ->) _ IH]; intros Hf; [constructor|].
  apply Forall_cons in Hf as [Ho Hl]. constructor; [exact Ho|by apply IH].
Qed.

Lemma layout_totals objects live gst tts tds :
  layout_and_define_symbols objects ∅ = Ok (live, gst, tts, tds) →
  tts = wrap32 (sum_sizes code_size live)
  ∧ tds = wrap32 (sum_sizes data_size_of live).
Proof.
  intros H.
  destruct (layout_keeps _ _ _ _ _ H) as (needed & active & Hr & Hk).
  destruct (layout_spec _ _ _ _ _ _ H)
    as (needed' & active' & Hr' & _ & _ & -> & -> & _).
  rewrite Hr in Hr'. simplify_eq.
  split; f_equal; symmetry; apply sum_sizes_Forall2;
    (eapply Forall2_impl; [exact Hk|]); by intros o o' (tb & db & ->).
Qed.

(** The sizes of the patched objects are those of the live ones. *)
Lemma patched_sizes live gst patched :
  apply_relocations live gst = Ok patched →
  Forall well_formed live →
  Z.of_nat (length (concat (text_section <$> patched)))
  = sum_sizes code_size live
  ∧ Z.of_nat (length (concat (data_section <$> patched)))
    = sum_sizes data_size_of live.
Proof.
  intros H%apply_relocations_Forall2 Hwf.
  assert (Forall2 same_but_code live patched) as Hs.
  { eapply Forall2_impl; [exact H|]. intros o o' Ho.
    by destruct (apply_relocs_frame _ _ _ _ Ho). }
  clear H. unfold sum_sizes.
  induction Hs as [|o o' l l' Ho _ IH]; [done|].
  inversion_clear Hwf as [|? ? [Ht Hd] Hwf'].
  destruct (IH Hwf') as [IH1 IH2].
  destruct Ho as (_ & _ & Hdata & _ & _ & _ & _ & Hlen).
  cbn. rewrite !length_app, !Nat2Z.inj_add, IH1, IH2, Hdata, Hlen.
  unfold code_size, data_size_of. lia.
Qed.

Lemma link_objects_Ok input_files output_path w tts tds w' :
  link_objects input_files output_path w = (Ok (tts, tds), w') →
  ∃ objects live gst patched,
    load_objects input_files w = Ok objects
    ∧ layout_and_define_symbols objects ∅ = Ok (live, gst, tts, tds)
    ∧ apply_relocations live gst = Ok patched
    ∧ (output_path ∉ unwritable w)
    ∧ w' = {| files := <[output_path := image patched]> (files w);
              unwritable := unwritable w |}.
Proof.
  unfold link_objects, stage, write_output. intros H.
  destruct (load_objects input_files w) as [objects| | |] eqn:E1; try done.
  destruct (layout_and_define_symbols objects ∅)
    as [[[[live gst] tts'] tds']| | |] eqn:E2; try done.
  destruct (apply_relocations live gst) as [patched| | |] eqn:E3; try done.
  case_bool_decide; simplify_eq.
  exists objects, live, gst, patched. done.
Qed.

(** C4 (as amended): after a successful link the output file holds exactly
    the code bytes of the patched live modules in load order followed by
    their data bytes, with nothing before, between or after; its length
    is the sum of the live modules' code and data sizes, which is
    [total_code_size + total_data_size] whenever both sums are below 2^32
    (the two totals are 32-bit counters); no other file changes. *)
Theorem output_is_concatenation input_files output_path w tts tds w' :
  link_objects input_files output_path w = (Ok (tts, tds), w') →
  ∃ objects live gst patched,
    load_objects input_files w = Ok objects
    ∧ layout_and_define_symbols objects ∅ = Ok (live, gst, tts, tds)
    ∧ apply_relocations live gst = Ok patched
    ∧ flat_image w' output_path live patched tts tds
    ∧ ∀ path, path ≠ output_path → files w' !! path = files w !! path.
Proof.
  intros (objects & live & gst & patched & Hload & Hlay & Happ & _ & ->)
    %link_objects_Ok.
  exists objects, live, gst, patched. split_and!; [done..| |].
  - pose proof (layout_live_well_formed _ _ _ _ _ Hlay
                  (load_objects_well_formed _ _ _ Hload)) as Hwf.
    destruct (patched_sizes _ _ _ Happ Hwf) as [Ht Hd].
    destruct (layout_totals _ _ _ _ _ Hlay) as [Htts Htds].
    destruct (well_formed_sizes _ Hwf) as [Hc Hdn].
    pose proof (sum_sizes_nonneg _ _ Hc).
    pose proof (sum_sizes_nonneg _ _ Hdn).
    exists (image patched). cbn [files]. rewrite lookup_insert_eq.
    assert (Z.of_nat (length (image patched))
            = sum_sizes code_size live + sum_sizes data_size_of live) as Hlen
      by (rewrite image_concat, length_app, Nat2Z.inj_add; lia).
    split_and!; [done|apply image_concat|done..|].
    intros Hs1 Hs2. rewrite Hlen, Htts, Htds, !wrap32_small by lia. done.
  - intros path Hne. cbn [files]. by rewrite lookup_insert_ne.
Qed.

(** The amended C4 at the scenario of the specification: the image is the
    patched word of A followed by the code of B. *)
Lemma output_is_concatenation_witness :
  link_objects ["a.o"; "b.o"] "out.bin" (world_of [scenario_A; scenario_B])
  = (Ok (8, 0),
     {| files := <["out.bin" := [x04; x00; x00; x00; x00; x00; x00; x00]]>
                   (files (world_of [scenario_A; scenario_B]));
        unwritable := ∅ |})
  ∧ ∃ objects live gst patched,
      load_objects ["a.o"; "b.o"] (world_of [scenario_A; scenario_B])
      = Ok objects
      ∧ layout_and_define_symbols objects ∅ = Ok (live, gst, 8, 0)
      ∧ apply_relocations live gst = Ok patched
      ∧ flat_image
          {| files := <["out.bin" := [x04; x00; x00; x00; x00; x00; x00; x00]]>
                        (files (world_of [scenario_A; scenario_B]));
             unwritable := ∅ |}
          "out.bin" live patched 8 0
      ∧ ∀ path, path ≠ "out.bin" →
          files {| files := <["out.bin" :=
                                [x04; x00; x00; x00; x00; x00; x00; x00]]>
                              (files (world_of [scenario_A; scenario_B]));
                   unwritable := ∅ |} !! path
          = files (world_of [scenario_A; scenario_B]) !! path.
Proof.
  assert (link_objects ["a.o"; "b.o"] "out.bin"
            (world_of [scenario_A; scenario_B])
          = (Ok (8, 0),
             {| files := <["out.bin" :=
                             [x04; x00; x00; x00; x00; x00; x00; x00]]>
                           (files (world_of [scenario_A; scenario_B]));
                unwritable := ∅ |})) as H
    by (vm_compute; reflexivity).
  split; [exact H|]. exact (output_is_concatenation _ _ _ _ _ _ H).
Defined.

(** *** More than 4 GiB of code *)

Lemma length_big_text : Z.of_nat (length big_text) = 2147483648.
Proof.
  unfold big_text. rewrite length_replicate, Z2Nat.id; [reflexivity|].
  discriminate.
Qed.

Lemma well_formed_big_module name symbol :
  well_formed (big_module name symbol big_text).
Proof.
  split; [|reflexivity].
  change (2147483648 = Z.of_nat (length big_text)).
  exact (eq_sym length_big_text).
Qed.

Lemma well_formed_big_objects : Forall well_formed big_objects.
Proof.
  unfold big_objects, big_inputs.
  apply Forall_cons. split; [apply well_formed_big_module|].
  apply Forall_cons. split; [apply well_formed_big_module|].
  apply Forall_cons. split; [by split|]. apply Forall_nil_2.
Qed.

(** The three object files are loaded as the three objects. *)
Lemma big_load (text : list byte) :
  Z.of_nat (length text) = 2147483648 →
  load_objects ["f.o"; "g.o"; "main.o"] (world_of (big_inputs text))
  = Ok (big_inputs text).
Proof.
  intros Ht. cbn [load_objects].
  rewrite (load_object_file_exact "f.o" _
             (header (big_module "f.o" "f" text)) text []
             (encode_tables (big_module "f.o" "f" text)));
    [|vm_compute; reflexivity|reflexivity
     |unfold header_in_range; cbn; unfold LINKER_MAGIC; lia
     |exact Ht|reflexivity].
  rewrite (load_object_file_exact "g.o" _
             (header (big_module "g.o" "g" text)) text []
             (encode_tables (big_module "g.o" "g" text)));
    [|vm_compute; reflexivity|reflexivity
     |unfold header_in_range; cbn; unfold LINKER_MAGIC; lia
     |exact Ht|reflexivity].
  vm_compute. reflexivity.
Qed.

(** Layout and relocation of the three modules, whatever the bytes of the
    two big ones: the running code address wraps to 0 at the third. *)
Lemma big_layout (text : list byte) :
  layout_and_define_symbols (big_inputs text) ∅
  = Ok (big_live text, {["__START__" := 0; "f" := 0; "g" := 2147483648]}, 8, 0)
  ∧ apply_relocations (big_live text)
      {["__START__" := 0; "f" := 0; "g" := 2147483648]}
    = Ok (big_patched text).
Proof. split; vm_compute; reflexivity. Qed.

(** The link of the three files succeeds and reports 8 bytes of code and
    no data; the image holds both big modules and the 8 patched bytes of
    the entry module. *)
Lemma big_link (text : list byte) :
  Z.of_nat (length text) = 2147483648 →
  link_objects ["f.o"; "g.o"; "main.o"] "out.bin" (world_of (big_inputs text))
  = (Ok (8, 0),
     {| files := <["out.bin" := image (big_patched text)]>
                   (files (world_of (big_inputs text)));
        unwritable := ∅ |})
  ∧ Z.of_nat (length (image (big_patched text))) = 4294967304.
Proof.
  intros Ht. destruct (big_layout text) as [Hlay Happ]. split.
  - unfold link_objects. rewrite (big_load text Ht). cbn [stage].
    rewrite Hlay. cbn [stage]. rewrite Happ. cbn [stage]. reflexivity.
  - rewrite image_concat. unfold big_patched, big_live, big_inputs.
    cbn [fmap list_fmap concat text_section data_section set_text_section
         set_base_addrs big_module big_main mk_object].
    rewrite !length_app, !Nat2Z.inj_add, Ht. reflexivity.
Qed.

(** C3, counterexample: three well-formed object files, the first two with
    2 GiB of code each, link successfully and all are live.  The code
    sizes before the third module add up to 4294967296 and the total code
    size is 4294967304, but the third module's [code_base] is 0 and every
    [data_base] is 8. *)
Lemma layout_wraps_counterexample :
  Forall well_formed big_objects
  ∧ load_objects ["f.o"; "g.o"; "main.o"] (world_of big_objects)
    = Ok big_objects
  ∧ (∃ w', link_objects ["f.o"; "g.o"; "main.o"] "out.bin"
             (world_of big_objects) = (Ok (8, 0), w'))
  ∧ ∃ live gst,
      layout_and_define_symbols big_objects ∅ = Ok (live, gst, 8, 0)
      ∧ length live = length big_objects
      ∧ text_base_addr <$> live = [0; 2147483648; 0]
      ∧ data_base_addr <$> live = [8; 8; 8]
      ∧ sum_sizes code_size (take 2 big_objects) = 4294967296
      ∧ sum_sizes code_size big_objects = 4294967304.
Proof.
  split_and!.
  - apply well_formed_big_objects.
  - apply (big_load big_text length_big_text).
  - eexists. apply (big_link big_text length_big_text).
  - eexists _, _. split_and!.
    + apply (big_layout big_text).
    + reflexivity.
    + reflexivity.
    + reflexivity.
    + reflexivity.
    + reflexivity.
Qed.

(** C4, counterexample: the same three files link successfully; the totals
    computed and reported are 8 bytes of code and 0 bytes of data, and the
    output file is 4294967304 bytes long. *)
Lemma output_length_counterexample :
  Forall well_formed big_objects
  ∧ ∃ w' output,
      link_objects ["f.o"; "g.o"; "main.o"] "out.bin" (world_of big_objects)
      = (Ok (8, 0), w')
      ∧ files w' !! "out.bin" = Some output
      ∧ Z.of_nat (length output) = 4294967304.
Proof.
  split; [apply well_formed_big_objects|].
  destruct (big_link big_text length_big_text) as [Hlink Hlen].
  eexists _, _. split_and!; [exact Hlink| |exact Hlen].
  cbn [files]. apply lookup_insert_eq.
Qed.

(** ** Reachability and the output (C1) *)

(** The objects that [layout_and_define_symbols] hands on are the active
    ones, whatever table it starts from. *)
Lemma layout_keeps_active objects gst0 live gst tts tds needed active :
  resolve objects = Some (needed, active) →
  layout_and_define_symbols objects gst0 = Ok (live, gst, tts, tds) →
  Forall2 (λ obj obj', ∃ tb db, obj' = set_base_addrs obj tb db)
    (filter_active objects active) live.
Proof.
  intros Hr H.
  destruct (layout_spec _ _ _ _ _ _ H)
    as (needed' & active' & Hr' & _ & Hlen & _ & _ & Hlk).
  rewrite Hr in Hr'. simplify_eq.
  apply Forall2_same_length_lookup_2; [done|].
  intros i obj obj' Ho Ho'. rewrite (Hlk _ _ Ho) in Ho'. simplify_eq. eauto.
Qed.

(** C1: the live set computed by the resolver is the set of modules
    reachable from the entry symbol, and it is what the linker lays out
    and writes.  The loop returns a needed set that is exactly the least
    set containing [__START__] and closed under the relocation names of
    the modules exporting a needed symbol; a module is marked active iff
    it exports a needed symbol, iff it is reachable; the modules kept are
    those and no others, so a module whose exported symbols are all
    unreached is dropped.  The list that [layout_and_define_symbols]
    returns holds the kept modules, in input order, with their base
    addresses; and after a successful link of files loaded as [objects]
    the output file is the image of the kept modules, patched, and of no
    other module. *)
Theorem resolve_reachability (objects : list LoadedObject) :
  ∃ needed active,
    resolve objects = Some (needed, active)
    ∧ length active = length objects
    ∧ (∀ n, n ∈ needed ↔ reachable_symbol objects n)
    ∧ (∀ i obj, objects !! i = Some obj →
         (active !! i = Some true ↔
          ∃ sym, sym ∈ symbols obj ∧ sym_type sym = SYMBOL_DEFINED
                 ∧ sym_name sym ∈ needed))
    ∧ (∀ i obj, objects !! i = Some obj →
         (active !! i = Some true ↔ reachable_module objects obj))
    ∧ (∀ obj, obj ∈ filter_active objects active ↔
         obj ∈ objects ∧ reachable_module objects obj)
    ∧ (∀ obj,
         (∀ sym, sym ∈ symbols obj → sym_type sym = SYMBOL_DEFINED →
            ¬ reachable_symbol objects (sym_name sym)) →
         obj ∉ filter_active objects active)
    ∧ (∀ gst0 live gst tts tds,
         layout_and_define_symbols objects gst0 = Ok (live, gst, tts, tds) →
         Forall2 (λ obj obj', ∃ tb db, obj' = set_base_addrs obj tb db)
           (filter_active objects active) live)
    ∧ (∀ input_files output_path w tts tds w',
         load_objects input_files w = Ok objects →
         link_objects input_files output_path w = (Ok (tts, tds), w') →
         ∃ patched,
           Forall2 kept_as (filter_active objects active) patched
           ∧ files w' !! output_path
             = Some (concat (text_section <$> patched)
                     ++ concat (data_section <$> patched))).
Proof.
  destruct (resolve_closure objects)
    as (needed & active & Hr & Hlen & Hn & Ha & Hm & Hk & Hd).
  exists needed, active. split_and!; [done..| |].
  - intros gst0 live gst tts tds.
    exact (layout_keeps_active _ _ _ _ _ _ _ _ Hr).
  - intros input_files output_path w tts tds w' Hload
      (objects0 & live & gst & patched & Hload' & Hlay & Happ & _ & ->)
      %link_objects_Ok.
    rewrite Hload in Hload'. simplify_eq.
    exists patched. split.
    + pose proof (layout_keeps_active _ _ _ _ _ _ _ _ Hr Hlay) as Hkeep.
      apply apply_relocations_Forall2 in Happ.
      clear -Hkeep Happ. revert patched Happ.
      induction Hkeep as [|obj obj' kept live (tb & db & ->) _ IH];
        intros patched Happ; inversion Happ as [|? p ? ps Hp Hps]; subst;
        constructor; [|by apply IH].
      destruct (apply_relocs_frame _ _ _ _ Hp)
        as ((Hf & Hh & Hds & Hsy & Hrl & _ & _ & Hl) & _).
      unfold kept_as. by rewrite Hf, Hh, Hds, Hsy, Hrl, Hl.
    + cbn [files]. by rewrite lookup_insert_eq, image_concat.
Qed.

(** C1 at the scenario of the specification, with the dead module C given
    between A and B: the three files load, the link succeeds, and the
    output is the image of A and B. *)
Lemma resolve_reachability_witness :
  load_objects ["a.o"; "c.o"; "b.o"]
    (world_of [scenario_A; scenario_C; scenario_B])
  = Ok [scenario_A; scenario_C; scenario_B]
  ∧ link_objects ["a.o"; "c.o"; "b.o"] "out.bin"
      (world_of [scenario_A; scenario_C; scenario_B])
    = (Ok (8, 0),
       {| files := <["out.bin" := [x04; x00; x00; x00; x00; x00; x00; x00]]>
                     (files (world_of [scenario_A; scenario_C; scenario_B]));
          unwritable := ∅ |})
  ∧ ∃ patched,
      Forall2 kept_as [scenario_A; scenario_B] patched
      ∧ files {| files := <["out.bin" := [x04; x00; x00; x00;
                                          x00; x00; x00; x00]]>
                            (files (world_of
                                      [scenario_A; scenario_C; scenario_B]));
                 unwritable := ∅ |} !! "out.bin"
        = Some (concat (text_section <$> patched)
                ++ concat (data_section <$> patched)).
Proof.
  assert (load_objects ["a.o"; "c.o"; "b.o"]
            (world_of [scenario_A; scenario_C; scenario_B])
          = Ok [scenario_A; scenario_C; scenario_B]) as Hload
    by (vm_compute; reflexivity).
  assert (link_objects ["a.o"; "c.o"; "b.o"] "out.bin"
            (world_of [scenario_A; scenario_C; scenario_B])
          = (Ok (8, 0),
             {| files := <["out.bin" := [x04; x00; x00; x00;
                                         x00; x00; x00; x00]]>
                           (files (world_of
                                     [scenario_A; scenario_C; scenario_B]));
                unwritable := ∅ |})) as Hlink
    by (vm_compute; reflexivity).
  assert (∀ needed active,
            resolve [scenario_A; scenario_C; scenario_B]
            = Some (needed, active) → active = [true; false; true]) as Hact.
  { intros needed active.
    assert (snd <$> resolve [scenario_A; scenario_C; scenario_B]
            = Some [true; false; true]) as E by (vm_compute; reflexivity).
    intros Hr. rewrite Hr in E. cbn in E. by injection E. }
  split; [exact Hload|]. split; [exact Hlink|].
  destruct (resolve_reachability [scenario_A; scenario_C; scenario_B])
    as (needed & active & Hr & _ & _ & _ & _ & _ & _ & _ & Hout).
  apply Hact in Hr. subst active.
  exact (Hout _ _ _ _ _ _ Hload Hlink).
Defined.

(** * Further properties of the code *)

(** ** Outcomes of [layout_and_define_symbols] *)


(** ** Binding and relocation together *)

(** After a successful layout every relocation of a live module names a
    symbol that is in the table. *)
Lemma layout_defines_relocs objects live gst tts tds obj r :
  layout_and_define_symbols objects ∅ = Ok (live, gst, tts, tds) →
  obj ∈ live → r ∈ relocs obj →
  is_Some (gst !! reloc_symbol_name r).
Proof.
  intros H Hobj Hr.
  destruct (layout_and_define_symbols_Ok _ _ _ _ _ _ H)
    as (needed & active & Hres & _ & _ & _ & Hall).
  destruct (layout_keeps _ _ _ _ _ H) as (needed' & active' & Hres' & Hk).
  rewrite Hres in Hres'. simplify_eq.
  destruct (resolve_loop_sound objects _ _ _ _ _
              (marks_sound_initial objects) Hres)
    as ((Hlen & _) & (_ & Hrel)).
  apply list_elem_of_lookup in Hobj as (i & Hi).
  destruct (Forall2_lookup_r _ _ _ _ _ Hk Hi) as (obj0 & Ho0 & tb & db & ->).
  assert (obj0 ∈ filter_active objects active') as Hin
    by (by eapply list_elem_of_lookup_2).
  apply filter_active_elem in Hin as (j & Hj & Ha); [|done].
  apply Hall. by eapply Hrel.
Qed.

Lemma apply_reloc_in_code gst obj r :
  is_Some (gst !! reloc_symbol_name r) → window_in_code obj r →
  ∃ obj', apply_reloc gst obj r = Ok obj'.
Proof.
  intros [target Hg] [Hlo Hhi]. unfold apply_reloc. rewrite Hg.
  assert (wrap32 (reloc_offset r + 4) ≤ reloc_offset r + 4).
  { unfold wrap32. apply Z.mod_le; lia. }
  destruct (_ >? _) eqn:E.
  { rewrite Z.gtb_ltb in E. apply Z.ltb_lt in E. lia. }
  rewrite read32_in_bounds by done. eauto.
Qed.

Lemma apply_relocs_in_code gst rs : ∀ obj,
  (∀ r, r ∈ rs → is_Some (gst !! reloc_symbol_name r) ∧ window_in_code obj r) →
  ∃ obj', apply_relocs gst obj rs = Ok obj'.
Proof.
  induction rs as [|r rs IH]; intros obj Hall; [by eexists|].
  cbn [apply_relocs].
  destruct (apply_reloc_in_code gst obj r) as [obj1 E];
    [apply Hall; by left..|].
  rewrite E. cbn.
  destruct (apply_reloc_frame _ _ _ _ E) as ((_&_&_&_&_&_&_&Hlen) & _).
  apply IH. intros r' Hr'. destruct (Hall r') as [? [? ?]]; [by right|].
  split; [done|]. unfold window_in_code. rewrite Hlen. done.
Qed.

Lemma apply_relocations_in_code gst objects :
  (∀ obj r, obj ∈ objects → r ∈ relocs obj →
     is_Some (gst !! reloc_symbol_name r) ∧ window_in_code obj r) →
  ∃ objects', apply_relocations objects gst = Ok objects'.
Proof.
  induction objects as [|obj objects IH]; intros Hall; [by eexists|].
  cbn [apply_relocations].
  destruct (apply_relocs_in_code gst (relocs obj) obj) as [obj1 ->].
  { intros r Hr. apply Hall; [by left|done]. }
  destruct IH as [rest ->].
  { intros o r Ho Hr. apply Hall; [by right|done]. }
  cbn. eauto.
Qed.

(** The outcomes of one relocation: success, an UndefinedSymbol error for
    a name missing from the table, a RelocationOutOfBounds error, or an
    access outside the code. *)
Lemma apply_relocs_no_undefined gst rs : ∀ obj n,
  (∀ r, r ∈ rs → is_Some (gst !! reloc_symbol_name r)) →
  apply_relocs gst obj rs ≠ Err (UndefinedSymbol n).
Proof.
  induction rs as [|r rs IH]; intros obj n Hall; [done|].
  cbn [apply_relocs]. destruct (Hall r) as [t Ht]; [by left|].
  destruct (apply_reloc gst obj r) as [obj1|e| |] eqn:E; cbn; try done.
  - apply IH. intros r' Hr'. apply Hall. by right.
  - unfold apply_reloc in E. rewrite Ht in E.
    destruct (_ >? _); [by simplify_eq|].
    destruct (read32 _ _); done.
Qed.

(** X2: after a successful layout the relocation engine never reports an
    undefined symbol (every relocation of a live module names a symbol the
    binder has verified), and it succeeds whenever the window of every
    relocation of every live module lies within that module's code. *)
Theorem relocation_after_layout objects live gst tts tds :
  layout_and_define_symbols objects ∅ = Ok (live, gst, tts, tds) →
  (∀ n, apply_relocations live gst ≠ Err (UndefinedSymbol n))
  ∧ ((∀ obj r, obj ∈ live → r ∈ relocs obj → window_in_code obj r) →
     ∃ patched, apply_relocations live gst = Ok patched).
Proof.
  intros H. split.
  - intros n.
    assert (∀ obj r, obj ∈ live → r ∈ relocs obj →
              is_Some (gst !! reloc_symbol_name r)) as Hdef
      by (intros; by eapply layout_defines_relocs).
    clear H. induction live as [|obj live IH]; [done|].
    cbn [apply_relocations].
    pose proof (apply_relocs_no_undefined gst (relocs obj) obj n) as Hno.
    destruct (apply_relocs gst obj (relocs obj)) as [obj1|e| |]; cbn;
      try done.
    + destruct (apply_relocations live gst) as [rest|e| |] eqn:E; cbn;
        try done.
      intros ?. simplify_eq. eapply IH; [|done].
      intros o r Ho Hr. apply (Hdef o r); [by right|done].
    + intros ?. simplify_eq. apply Hno; [|done].
      intros r Hr. apply (Hdef obj r); [by left|done].
  - intros Hin. apply apply_relocations_in_code. intros obj r Ho Hr.
    split; [by eapply layout_defines_relocs|by apply Hin].
Qed.

(** X2 at the scenario of the specification. *)
Lemma relocation_after_layout_witness :
  layout_and_define_symbols [scenario_A; scenario_B] ∅
  = Ok ([set_base_addrs scenario_A 0 8; set_base_addrs scenario_B 4 8],
        {["__START__" := 0; "helper" := 4]}, 8, 0)
  ∧ ∃ patched,
      apply_relocations
        [set_base_addrs scenario_A 0 8; set_base_addrs scenario_B 4 8]
        {["__START__" := 0; "helper" := 4]} = Ok patched.
Proof.
  assert (layout_and_define_symbols [scenario_A; scenario_B] ∅
          = Ok ([set_base_addrs scenario_A 0 8; set_base_addrs scenario_B 4 8],
                {["__START__" := 0; "helper" := 4]}, 8, 0)) as H
    by (vm_compute; reflexivity).
  split; [exact H|].
  apply (proj2 (relocation_after_layout _ _ _ _ _ H)). clear H.
  intros obj r Ho Hr.
  apply elem_of_cons in Ho as [->|Ho].
  - apply list_elem_of_singleton in Hr as ->.
    split; [discriminate|]. apply Z.leb_le. reflexivity.
  - apply list_elem_of_singleton in Ho as ->. by apply elem_of_nil in Hr.
Defined.

(** ** Loading the input files *)

Lemma load_object_file_loaded path w obj :
  load_object_file path w = Ok obj →
  filename obj = path
  ∧ ∃ contents, files w !! path = Some contents ∧ loaded_from contents obj.
Proof.
  intros H.
  destruct (load_object_file_Ok _ _ _ H) as (contents & Hf & Hlen & Hm).
  pose proof H as H'.
  rewrite (load_object_file_spec _ _ _ Hf Hlen Hm) in H'. simplify_eq.
  split; [done|]. exists contents. split; [done|].
  unfold loaded_from. cbn.
  rewrite !padded_length, !length_fmap, !length_records. done.
Qed.

(** X3: the objects of a successful "Pass 0" are in the order of the input
    paths, one per path; each carries its path as its name and is what the
    loader makes of that file's contents. *)
Theorem load_objects_in_order input_files w objects :
  load_objects input_files w = Ok objects →
  Forall2 (λ path obj,
             filename obj = path
             ∧ ∃ contents, files w !! path = Some contents
                 ∧ loaded_from contents obj)
    input_files objects.
Proof.
  revert objects. induction input_files as [|path paths IH];
    intros objects H.
  - simplify_eq/=. constructor.
  - cbn [load_objects] in H.
    destruct (load_object_file path w) as [obj| | |] eqn:E; try done.
    cbn in H. destruct (load_objects paths w) as [rest| | |]; try done.
    cbn in H. simplify_eq.
    constructor; [by apply load_object_file_loaded|by apply IH].
Qed.

(** X3 at two files of the scenario. *)
Lemma load_objects_in_order_witness :
  load_objects ["b.o"; "a.o"] (world_of [scenario_A; scenario_B])
  = Ok [scenario_B; scenario_A]
  ∧ Forall2 (λ path obj,
               filename obj = path
               ∧ ∃ contents,
                   files (world_of [scenario_A; scenario_B]) !! path
                   = Some contents
                   ∧ loaded_from contents obj)
      ["b.o"; "a.o"] [scenario_B; scenario_A].
Proof.
  assert (load_objects ["b.o"; "a.o"] (world_of [scenario_A; scenario_B])
          = Ok [scenario_B; scenario_A]) as H
    by (vm_compute; reflexivity).
  split; [exact H|]. exact (load_objects_in_order _ _ _ H).
Defined.

Lemma load_objects_first_failure l1 l2 path w objects e :
  load_objects l1 w = Ok objects →
  load_object_file path w = Err e →
  load_objects (l1 ++ path :: l2) w = Err e.
Proof.
  revert objects. induction l1 as [|p l1 IH]; intros objects H1 He.
  - cbn. by rewrite He.
  - cbn [load_objects app] in *.
    destruct (load_object_file p w) as [obj| | |]; try done. cbn in *.
    destruct (load_objects l1 w) as [rest| | |]; try done.
    by rewrite (IH rest).
Qed.

(** X4: the input files are loaded in order before anything else happens.
    When the files before some path load and that path cannot be opened,
    the link fails with CouldNotOpen for it; when it holds at least 4 bytes
    that are not the magic number, the link fails with InvalidFormat for
    it; in both cases whatever the later files hold, and no file is
    written. *)
Theorem link_objects_load_failure l1 path l2 output_path w objects :
  load_objects l1 w = Ok objects →
  (files w !! path = None →
   link_objects (l1 ++ path :: l2) output_path w = (Err (CouldNotOpen path), w))
  ∧ (∀ contents, files w !! path = Some contents →
       (4 ≤ length contents)%nat → le32 contents ≠ LINKER_MAGIC →
       link_objects (l1 ++ path :: l2) output_path w
       = (Err (InvalidFormat path), w)).
Proof.
  intros H1. split.
  - intros Hf. unfold link_objects.
    rewrite (load_objects_first_failure _ _ _ _ _ (CouldNotOpen path) H1);
      [done|].
    unfold load_object_file. by rewrite Hf.
  - intros contents Hf Hlen Hm. unfold link_objects.
    rewrite (load_objects_first_failure _ _ _ _ _ (InvalidFormat path) H1);
      [done|].
    unfold load_object_file. rewrite Hf.
    assert ((length contents <? 4)%nat = false) as ->
      by (by apply Nat.ltb_ge).
    destruct (read _ _ _) as [hdr file] eqn:Er.
    assert (le32 hdr = le32 contents) as ->.
    { unfold read in Er. cbn [good remaining] in Er.
      destruct (_ <=? _)%nat; simplify_eq.
      - rewrite <- (le32_take sizeof_FileHeader contents)
          by (unfold sizeof_FileHeader; lia).
        apply le32_ext. intros k Hk. apply lookup_app_l.
        rewrite length_take. unfold sizeof_FileHeader. lia.
      - apply le32_ext. intros k Hk. apply lookup_app_l. lia. }
    apply Z.eqb_neq in Hm. by rewrite Hm.
Qed.

(** X4 where the second of two inputs does not exist. *)
Lemma link_objects_load_failure_witness :
  load_objects ["a.o"] (world_of [scenario_A]) = Ok [scenario_A]
  ∧ link_objects (["a.o"] ++ "b.o" :: ["c.o"]) "out.bin"
      (world_of [scenario_A])
    = (Err (CouldNotOpen "b.o"), world_of [scenario_A]).
Proof.
  assert (load_objects ["a.o"] (world_of [scenario_A]) = Ok [scenario_A])
    as H by (vm_compute; reflexivity).
  split; [exact H|].
  apply (proj1 (link_objects_load_failure _ "b.o" ["c.o"] "out.bin" _ _ H)).
  vm_compute. reflexivity.
Defined.

(** ** The command line *)

(** X5: [main] exits with status 0 exactly when it was given an output
    path and at least one input and the link succeeded, and then the
    output path holds a file; with fewer arguments it exits with status
    1; and whenever it exits with status 1 no file has changed. *)
Theorem main_exit_status argv w :
  ((length argv < 3)%nat → main argv w = (Ok 1, w))
  ∧ (∀ w', main argv w = (Ok 0, w') ↔
       ∃ prog output_path input1 inputs tts tds,
         argv = prog :: output_path :: input1 :: inputs
         ∧ link_objects (input1 :: inputs) output_path w = (Ok (tts, tds), w'))
  ∧ (∀ w', main argv w = (Ok 0, w') →
       ∃ output_path output,
         argv !! 1%nat = Some output_path
         ∧ files w' !! output_path = Some output)
  ∧ (∀ w', main argv w = (Ok 1, w') → w' = w).
Proof.
  assert (Hzero : ∀ w', main argv w = (Ok 0, w') ↔
            ∃ prog output_path input1 inputs tts tds,
              argv = prog :: output_path :: input1 :: inputs
              ∧ link_objects (input1 :: inputs) output_path w
                = (Ok (tts, tds), w')).
  { intros w'. unfold main. split.
    - destruct argv as [|prog [|out [|input1 inputs]]]; try done.
      destruct (link_objects (input1 :: inputs) out w) as [[[tts tds]|e| |] w1]
        eqn:E; intros ?; simplify_eq.
      by exists prog, out, input1, inputs, tts, tds.
    - intros (prog & out & input1 & inputs & tts & tds & -> & ->). done. }
  split_and!.
  - unfold main. destruct argv as [|prog [|out [|input1 inputs]]]; cbn;
      try done. lia.
  - exact Hzero.
  - intros w' (prog & out & input1 & inputs & tts & tds & -> & Hl)%Hzero.
    apply link_objects_Ok in Hl
      as (objects & live & gst & patched & _ & _ & _ & _ & ->).
    exists out, (image patched). split; [done|].
    cbn [files]. apply lookup_insert_eq.
  - intros w'. unfold main.
    destruct argv as [|prog [|out [|input1 inputs]]];
      try (intros ?; by simplify_eq).
    destruct (link_objects (input1 :: inputs) out w) as [[s|e| |] w1] eqn:E;
      intros ?; simplify_eq.
    eapply link_objects_failure; [exact E|done].
Qed.

(** ** More on patched words *)

Lemma testbit_opcode_mask k :
  0 ≤ k → Z.testbit 0xFC000000 k = (26 <=? k) && (k <? 32).
Proof.
  intros Hk. change 0xFC000000 with (Z.shiftl (Z.ones 6) 26).
  rewrite Z.shiftl_spec by done.
  destruct (26 <=? k) eqn:E1.
  - apply Z.leb_le in E1. destruct (k <? 32) eqn:E2.
    + apply Z.ltb_lt in E2. apply Z.ones_spec_low. lia.
    + apply Z.ltb_ge in E2. apply Z.ones_spec_high. lia.
  - apply Z.leb_gt in E1. apply Z.testbit_neg_r. lia.
Qed.

Lemma testbit_offset_mask k :
  0 ≤ k → Z.testbit 0x03FFFFFF k = (k <? 26).
Proof.
  intros Hk. change 0x03FFFFFF with (Z.ones 26).
  destruct (k <? 26) eqn:E.
  - apply Z.ltb_lt in E. apply Z.ones_spec_low. lia.
  - apply Z.ltb_ge in E. apply Z.ones_spec_high. lia.
Qed.

Lemma testbit_above_32 z k : 0 ≤ z < 2 ^ 32 → 32 ≤ k → Z.testbit z k = false.
Proof.
  intros Hz Hk. destruct (decide (z = 0)) as [->|Hne]; [apply Z.bits_0|].
  apply Z.bits_above_log2; [lia|].
  assert (Z.log2 z < 32) by (apply Z.log2_lt_pow2; lia). lia.
Qed.

(** X6: for a RelativeBranch relocation whose window no other relocation
    of its module overlaps, every bit of the patched word from bit 26 up
    is the bit of the word that was there (the 6 opcode bits survive), and
    the low 26 bits are the byte distance from the instruction to the
    target modulo 2^26. *)
Theorem relative_patch_bits objects (gst : gmap string Z) objects' (i : nat)
    obj obj' (j : nat) r :
  apply_relocations objects gst = Ok objects' →
  objects !! i = Some obj → objects' !! i = Some obj' →
  relocs obj !! j = Some r →
  (∀ j' r', relocs obj !! j' = Some r' → j' ≠ j → disjoint_windows r r') →
  reloc_type r = RELOC_RELATIVE →
  ∃ target existing word,
    gst !! reloc_symbol_name r = Some target
    ∧ read32 (text_section obj) (reloc_offset r) = Some existing
    ∧ read32 (text_section obj') (reloc_offset r) = Some word
    ∧ (∀ k, 26 ≤ k → Z.testbit word k = Z.testbit existing k)
    ∧ word mod 2 ^ 26
      = (target - (text_base_addr obj + reloc_offset r)) mod 2 ^ 26.
Proof.
  intros Happ Ho Ho' Hr Hdis Ht.
  pose proof (Forall2_lookup_lr _ _ _ _ _ _
                (apply_relocations_Forall2 _ _ _ Happ) Ho Ho') as Hrs.
  destruct (apply_relocs_site _ _ _ _ _ _ Hrs Hr Hdis)
    as (target & existing & Hg & Hrd & Hrd').
  assert (0 ≤ existing < 2 ^ 32) as He.
  { apply read32_Some in Hrd as (_ & _ & ->). apply le32_range. }
  destruct (patch_word_relative obj r existing target Ht He) as [Heq Hrange].
  rewrite wrap32_small in Hrd' by done. rewrite Heq in Hrd'.
  eexists target, existing, _. split_and!; [done..| |].
  - intros k Hk.
    rewrite Z.lor_spec, !Z.land_spec, testbit_opcode_mask,
      testbit_offset_mask by lia.
    assert ((k <? 26) = false) as -> by (apply Z.ltb_ge; lia).
    assert ((26 <=? k) = true) as -> by (apply Z.leb_le; lia).
    rewrite andb_false_r, orb_false_r. cbn [andb].
    destruct (k <? 32) eqn:E; [by rewrite andb_true_r|].
    apply Z.ltb_ge in E. rewrite andb_false_r.
    symmetry. by apply testbit_above_32.
  - rewrite <- !Z.land_ones by lia. apply Z.bits_inj'. intros k Hk.
    rewrite !Z.land_spec, Z.lor_spec, !Z.land_spec, testbit_opcode_mask
      by done.
    change (Z.ones 26) with 0x03FFFFFF. rewrite testbit_offset_mask by done.
    destruct (k <? 26) eqn:E.
    + apply Z.ltb_lt in E.
      assert ((26 <=? k) = false) as -> by (apply Z.leb_gt; lia).
      cbn [andb]. by rewrite andb_false_r, !andb_true_r.
    + by rewrite !andb_false_r.
Qed.

(** X6 at the scenario of the specification. *)
Lemma relative_patch_bits_witness :
  apply_relocations
    [set_base_addrs scenario_A 0 8; set_base_addrs scenario_B 4 8]
    {["__START__" := 0; "helper" := 4]}
  = Ok [set_text_section (set_base_addrs scenario_A 0 8) [x04; x00; x00; x00];
        set_base_addrs scenario_B 4 8]
  ∧ ∃ target existing word,
      ({["__START__" := 0; "helper" := 4]} : gmap string Z) !! "helper"
      = Some target
      ∧ read32 (zeros 4) 0 = Some existing
      ∧ read32 [x04; x00; x00; x00] 0 = Some word
      ∧ (∀ k, 26 ≤ k → Z.testbit word k = Z.testbit existing k)
      ∧ word mod 2 ^ 26 = (target - (0 + 0)) mod 2 ^ 26.
Proof.
  assert (apply_relocations
            [set_base_addrs scenario_A 0 8; set_base_addrs scenario_B 4 8]
            {["__START__" := 0; "helper" := 4]}
          = Ok [set_text_section (set_base_addrs scenario_A 0 8)
                  [x04; x00; x00; x00];
                set_base_addrs scenario_B 4 8]) as Happ
    by (vm_compute; reflexivity).
  split; [exact Happ|].
  refine (relative_patch_bits _ _ _ 0%nat _ _ 0%nat
            (reloc 0 "helper" RELOC_RELATIVE)
            Happ eq_refl eq_refl eq_refl _ eq_refl).
  clear Happ. intros j' r' Hr' Hne. destruct j' as [|j']; [by destruct Hne|].
  cbn in Hr'. destruct j'; discriminate Hr'.
Defined.

(** X7: a relocation whose type is neither Absolute nor RelativeBranch is
    applied all the same: when no other relocation of its module overlaps
    its window, the word at its offset is 0 after the engine has run. *)
Theorem unknown_relocation_type objects (gst : gmap string Z) objects'
    (i : nat) obj obj' (j : nat) r :
  apply_relocations objects gst = Ok objects' →
  objects !! i = Some obj → objects' !! i = Some obj' →
  relocs obj !! j = Some r →
  (∀ j' r', relocs obj !! j' = Some r' → j' ≠ j → disjoint_windows r r') →
  reloc_type r ≠ RELOC_ABSOLUTE → reloc_type r ≠ RELOC_RELATIVE →
  read32 (text_section obj') (reloc_offset r) = Some 0.
Proof.
  intros Happ Ho Ho' Hr Hdis Ha Hrel.
  pose proof (Forall2_lookup_lr _ _ _ _ _ _
                (apply_relocations_Forall2 _ _ _ Happ) Ho Ho') as Hrs.
  destruct (apply_relocs_site _ _ _ _ _ _ Hrs Hr Hdis)
    as (target & existing & Hg & Hrd & Hrd').
  rewrite Hrd'. unfold patch_word, value_to_write.
  apply Z.eqb_neq in Ha, Hrel. by rewrite Ha, Hrel.
Qed.

(** X7 for a relocation of type 7 in a module of its own. *)
Lemma unknown_relocation_type_witness :
  apply_relocations [unknown_type_module] {["__START__" := 0]}
  = Ok [set_text_section unknown_type_module [x00; x00; x00; x00]]
  ∧ read32 [x00; x00; x00; x00] 0 = Some 0.
Proof.
  assert (apply_relocations [unknown_type_module] {["__START__" := 0]}
          = Ok [set_text_section unknown_type_module [x00; x00; x00; x00]])
    as Happ by (vm_compute; reflexivity).
  split; [exact Happ|].
  refine (unknown_relocation_type _ _ _ 0%nat _ _ 0%nat
            (reloc 0 "__START__" 7) Happ eq_refl eq_refl eq_refl _ _ _).
  - clear Happ. intros j' r' Hr' Hne.
    destruct j' as [|j']; [by destruct Hne|].
    cbn in Hr'. destruct j'; discriminate Hr'.
  - discriminate.
  - discriminate.
Defined.

(** ** Addresses and the image *)






(** ** Dead modules and the order of the inputs *)

Lemma reachable_symbol_subseteq objects objects' n :
  (∀ obj, obj ∈ objects → obj ∈ objects') →
  reachable_symbol objects n → reachable_symbol objects' n.
Proof.
  intros Hsub. induction 1 as [|obj sym r Hobj Hsym Hty _ IH Hr];
    [constructor|].
  eapply reachable_reloc; eauto.
Qed.

Lemma filter_active_all objects : ∀ active,
  length active = length objects →
  (∀ i, (i < length objects)%nat → active !! i = Some true) →
  filter_active objects active = objects.
Proof.
  induction objects as [|o objects IH]; intros [|a active] Hlen Hall;
    try done.
  cbn in Hlen. pose proof (Hall 0%nat ltac:(cbn; lia)) as H0.
  simplify_eq/=. f_equal. apply IH; [lia|].
  intros i Hi. apply (Hall (S i)). lia.
Qed.

(** The modules the resolver keeps reach the same symbols as all the
    modules do. *)
Lemma reachable_symbol_kept objects needed active n :
  resolve objects = Some (needed, active) →
  reachable_symbol (filter_active objects active) n
  ↔ reachable_symbol objects n.
Proof.
  intros Hr.
  destruct (resolve_closure objects)
    as (needed' & active' & Hr' & Hlen & _ & _ & _ & Hkept & _).
  rewrite Hr in Hr'. simplify_eq. split.
  - apply reachable_symbol_subseteq. intros obj Hobj. by apply Hkept.
  - induction 1 as [|obj sym r Hobj Hsym Hty Hre IH Hrel]; [constructor|].
    eapply reachable_reloc; eauto. apply Hkept. split; [done|].
    exists sym. done.
Qed.

(** X9: dead modules have no influence.  Laying out only the modules the
    resolver keeps gives the same result (the same live modules with the
    same base addresses, the same symbol table, the same totals, or the
    same error) as laying out all the modules. *)
Theorem layout_of_live_only objects needed active gst0 :
  resolve objects = Some (needed, active) →
  layout_and_define_symbols (filter_active objects active) gst0
  = layout_and_define_symbols objects gst0.
Proof.
  intros Hr.
  destruct (resolve_closure objects)
    as (needed1 & active1 & Hr1 & Hlen1 & Hn1 & _ & _ & Hkept1 & _).
  rewrite Hr in Hr1. simplify_eq.
  set (kept := filter_active objects active1) in *.
  destruct (resolve_closure kept)
    as (needed2 & active2 & Hr2 & Hlen2 & Hn2 & _ & Hlive2 & _).
  assert (needed2 = needed1) as ->.
  { apply set_eq. intros n. rewrite Hn1, Hn2.
    exact (reachable_symbol_kept objects needed1 active1 n Hr). }
  assert (filter_active kept active2 = kept) as Hall.
  { apply filter_active_all; [done|]. intros i Hi.
    destruct (lookup_lt_is_Some_2 kept i Hi) as [obj Ho].
    apply (Hlive2 _ _ Ho).
    assert (obj ∈ kept) as Hin by (by eapply list_elem_of_lookup_2).
    apply Hkept1 in Hin as [_ (sym & Hsym & Hty & Hre)].
    exists sym. split_and!; [done..|].
    by apply (reachable_symbol_kept objects needed1 active1 _ Hr). }
  unfold layout_and_define_symbols. rewrite Hr, Hr2, Hall. done.
Qed.

(** X9 with an unused module between the two of the scenario. *)
Lemma layout_of_live_only_witness :
  resolve [scenario_A; scenario_C; scenario_B]
  = Some ({["__START__"; "helper"]}, [true; false; true])
  ∧ layout_and_define_symbols
      (filter_active [scenario_A; scenario_C; scenario_B] [true; false; true])
      ∅
    = layout_and_define_symbols [scenario_A; scenario_C; scenario_B] ∅.
Proof.
  assert (resolve [scenario_A; scenario_C; scenario_B]
          = Some ({["__START__"; "helper"]}, [true; false; true])) as H
    by (vm_compute; reflexivity).
  split; [exact H|]. exact (layout_of_live_only _ _ _ ∅ H).
Defined.

(** X10: which modules are live does not depend on the order of the input
    files: for two orders of the same modules the resolver computes the
    same needed set and keeps the same modules. *)
Theorem resolve_order_independent objects objects' needed active
    needed' active' :
  objects ≡ₚ objects' →
  resolve objects = Some (needed, active) →
  resolve objects' = Some (needed', active') →
  needed' = needed
  ∧ ∀ obj, obj ∈ filter_active objects' active'
           ↔ obj ∈ filter_active objects active.
Proof.
  intros Hp Hr Hr'.
  destruct (resolve_closure objects)
    as (n1 & a1 & Hr1 & _ & Hn1 & _ & _ & Hk1 & _).
  destruct (resolve_closure objects')
    as (n2 & a2 & Hr2 & _ & Hn2 & _ & _ & Hk2 & _).
  rewrite Hr in Hr1. rewrite Hr' in Hr2. simplify_eq.
  assert (∀ n, reachable_symbol objects n ↔ reachable_symbol objects' n)
    as Hsame.
  { intros n. split; apply reachable_symbol_subseteq; intros obj;
      by rewrite Hp. }
  split.
  - apply set_eq. intros n. by rewrite Hn1, Hn2, Hsame.
  - intros obj. rewrite Hk1, Hk2. unfold reachable_module.
    assert (obj ∈ objects ↔ obj ∈ objects') as -> by (by rewrite Hp).
    by setoid_rewrite Hsame.
Qed.

(** X10 at the scenario, in two orders. *)
Lemma resolve_order_independent_witness :
  resolve [scenario_A; scenario_C; scenario_B]
  = Some ({["__START__"; "helper"]}, [true; false; true])
  ∧ resolve [scenario_B; scenario_A; scenario_C]
    = Some ({["__START__"; "helper"]}, [true; true; false])
  ∧ ∀ obj,
      obj ∈ filter_active [scenario_B; scenario_A; scenario_C]
              [true; true; false]
      ↔ obj ∈ filter_active [scenario_A; scenario_C; scenario_B]
                [true; false; true].
Proof.
  assert (resolve [scenario_A; scenario_C; scenario_B]
          = Some ({["__START__"; "helper"]}, [true; false; true])) as H1
    by (vm_compute; reflexivity).
  assert (resolve [scenario_B; scenario_A; scenario_C]
          = Some ({["__START__"; "helper"]}, [true; true; false])) as H2
    by (vm_compute; reflexivity).
  split; [exact H1|]. split; [exact H2|].
  refine (proj2 (resolve_order_independent _ _ _ _ _ _ _ H1 H2)).
  clear H1 H2.
  etrans; [apply Permutation_skip, Permutation_swap|].
  apply Permutation_swap.
Defined.

(** ** When binding succeeds *)

Lemma define_symbols_NoDup (needed : gset string) obj syms : ∀ gst,
  NoDup (needed_names needed syms) →
  (∀ n, n ∈ needed_names needed syms → gst !! n = None) →
  ∃ gst', define_symbols needed obj syms gst = Ok gst'.
Proof.
  induction syms as [|sym syms IH]; intros gst Hnd Hnew; [by eexists|].
  cbn [define_symbols]. unfold needed_names in *.
  rewrite filter_cons in Hnd, Hnew.
  destruct (_ && _) eqn:Ht.
  - apply registers_true in Ht. rewrite decide_True in Hnd, Hnew by done.
    rewrite fmap_cons in Hnd, Hnew. apply NoDup_cons in Hnd as [Hnotin Hnd].
    rewrite (Hnew (sym_name sym)) by (by left).
    apply IH; [done|]. intros n Hn.
    rewrite lookup_insert_ne; [apply Hnew; by right|].
    intros <-. done.
  - assert (¬ (sym_type sym = SYMBOL_DEFINED ∧ sym_name sym ∈ needed)) as Hf.
    { intros Hp%registers_true. congruence. }
    rewrite decide_False in Hnd, Hnew by done. by apply IH.
Qed.

Lemma layout_loop_NoDup (needed : gset string) objects : ∀ cta cda gst,
  NoDup (concat ((λ obj, needed_names needed (symbols obj)) <$> objects)) →
  (∀ n, n ∈ concat ((λ obj, needed_names needed (symbols obj)) <$> objects)
     → gst !! n = None) →
  ∃ r, layout_loop needed objects cta cda gst = Ok r.
Proof.
  induction objects as [|obj objects IH]; intros cta cda gst Hnd Hnew;
    [by eexists|].
  cbn [layout_loop]. rewrite fmap_cons in Hnd, Hnew. cbn [concat] in Hnd, Hnew.
  apply NoDup_app in Hnd as (Hnd1 & Hdisj & Hnd2).
  destruct (define_symbols_NoDup needed (set_base_addrs obj cta cda)
              (symbols obj) gst Hnd1) as [gst1 E1].
  { intros n Hn. apply Hnew, elem_of_app. by left. }
  cbn [symbols set_base_addrs]. rewrite E1. cbn.
  destruct (define_symbols_spec _ _ _ _ _ E1) as (_ & _ & Htab1).
  destruct (IH (wrap32 (cta + text_size (header obj)))
              (wrap32 (cda + data_size (header obj))) gst1 Hnd2)
    as [[rest gst2] ->].
  { intros n Hn. destruct (gst1 !! n) as [a|] eqn:Hg; [|done].
    apply Htab1 in Hg as [Hg|(sym & Hsym & Hty & Hin & Hname & _)].
    - rewrite Hnew in Hg; [done|]. apply elem_of_app. by right.
    - destruct (Hdisj n); [|done]. apply needed_names_elem. eauto. }
  cbn. eauto.
Qed.

(** X11: binding succeeds exactly when, among the live modules, the
    exported symbols that are needed have pairwise different names and
    every needed name is the name of one of them. *)
Theorem layout_succeeds_iff objects needed active :
  resolve objects = Some (needed, active) →
  (∃ live gst tts tds,
     layout_and_define_symbols objects ∅ = Ok (live, gst, tts, tds))
  ↔ NoDup (concat ((λ obj, needed_names needed (symbols obj))
                     <$> filter_active objects active))
    ∧ ∀ n, n ∈ needed →
        ∃ obj sym, obj ∈ filter_active objects active ∧ sym ∈ symbols obj
          ∧ sym_type sym = SYMBOL_DEFINED ∧ sym_name sym = n.
Proof.
  intros Hr.
  set (kept := filter_active objects active).
  assert (wrap32 (total_size code_size kept) = total_size code_size kept)
    as Hw by (rewrite total_size_sum; apply wrap32_idemp).
  split.
  - intros (live & gst & tts & tds & H).
    destruct (layout_and_define_symbols_Ok _ _ _ _ _ _ H)
      as (needed' & active' & Hr' & -> & _ & Hl & Hall).
    rewrite Hr in Hr'. simplify_eq. fold kept in Hl.
    destruct (layout_loop_spec _ _ _ _ _ _ _ eq_refl Hw Hl)
      as (Hlen & Hlk & Hnd & _ & Htab).
    split; [done|]. intros n Hn. destruct (Hall n Hn) as [a Ha].
    apply Htab in Ha as [Ha|(i & obj' & sym & Hi & Hsym & Hty & _ & Hname & _)].
    { by rewrite lookup_empty in Ha. }
    destruct (lookup_lt_is_Some_2 kept i) as [obj Ho].
    { rewrite <- Hlen. by eapply lookup_lt_Some. }
    rewrite (Hlk _ _ Ho) in Hi. simplify_eq.
    exists obj, sym. split_and!; try done. by eapply list_elem_of_lookup_2.
  - intros [Hnd Hdef].
    destruct (layout_loop_NoDup needed kept 0 (total_size code_size kept) ∅ Hnd)
      as [[live gst] Hl]; [intros; apply lookup_empty|].
    destruct (layout_loop_spec _ _ _ _ _ _ _ eq_refl Hw Hl)
      as (Hlen & Hlk & _ & _ & Htab).
    exists live, gst, (total_size code_size kept),
      (total_size data_size_of kept).
    unfold layout_and_define_symbols. rewrite Hr. fold kept.
    change (λ obj, text_size (header obj)) with code_size.
    change (λ obj, data_size (header obj)) with data_size_of.
    rewrite Hl. cbn.
    destruct (verify_needed_cases needed gst) as [[-> _]|(n & _ & Hn & Hg)];
      [done|].
    destruct (Hdef n Hn) as (obj & sym & Hobj & Hsym & Hty & Hname).
    apply list_elem_of_lookup in Hobj as (i & Ho).
    assert (gst !! n = Some
              (final_addr
                 (set_base_addrs obj
                    (wrap32 (0 + sum_sizes code_size (take i kept)))
                    (wrap32 (total_size code_size kept
                             + sum_sizes data_size_of (take i kept)))) sym))
      as Hsome.
    { apply Htab. right. eexists i, _, sym.
      split; [by apply Hlk|]. split_and!; try done. by rewrite Hname. }
    congruence.
Qed.

(** X11 at the scenario of the specification. *)
Lemma layout_succeeds_iff_witness :
  resolve [scenario_A; scenario_B]
  = Some ({["__START__"; "helper"]}, [true; true])
  ∧ ((∃ live gst tts tds,
        layout_and_define_symbols [scenario_A; scenario_B] ∅
        = Ok (live, gst, tts, tds))
     ↔ NoDup (concat ((λ obj, needed_names {["__START__"; "helper"]}
                                (symbols obj))
                        <$> filter_active [scenario_A; scenario_B]
                              [true; true]))
       ∧ ∀ n, n ∈ ({["__START__"; "helper"]} : gset string) →
           ∃ obj sym,
             obj ∈ filter_active [scenario_A; scenario_B] [true; true]
             ∧ sym ∈ symbols obj
             ∧ sym_type sym = SYMBOL_DEFINED ∧ sym_name sym = n).
Proof.
  assert (resolve [scenario_A; scenario_B]
          = Some ({["__START__"; "helper"]}, [true; true])) as H
    by (vm_compute; reflexivity).
  split; [exact H|]. exact (layout_succeeds_iff _ _ _ H).
Defined.

(** ** The order of the relocations *)

Lemma write32_lookup_in buf off v (k : nat) :
  0 ≤ off → off + 4 ≤ Z.of_nat (length buf) →
  off ≤ Z.of_nat k < off + 4 →
  write32 buf off v !! k = bytes32 v !! (k - Z.to_nat off)%nat.
Proof.
  intros Hlo Hhi Hk. unfold write32.
  rewrite lookup_app_r by (rewrite length_take; lia).
  rewrite lookup_app_l by (rewrite length_take, length_bytes32; lia).
  f_equal. rewrite length_take. lia.
Qed.

Lemma write32_comm buf o1 v1 o2 v2 :
  0 ≤ o1 → o1 + 4 ≤ Z.of_nat (length buf) →
  0 ≤ o2 → o2 + 4 ≤ Z.of_nat (length buf) →
  o2 + 4 ≤ o1 ∨ o1 + 4 ≤ o2 →
  write32 (write32 buf o1 v1) o2 v2 = write32 (write32 buf o2 v2) o1 v1.
Proof.
  intros H1l H1h H2l H2h Hd. apply list_eq. intros k.
  destruct (decide (o1 ≤ Z.of_nat k < o1 + 4)) as [Hk1|Hk1].
  - rewrite write32_lookup_other by (rewrite ?length_write32; lia).
    rewrite !write32_lookup_in by (rewrite ?length_write32; lia). done.
  - rewrite (write32_lookup_other (write32 buf o2 v2) o1)
      by (rewrite ?length_write32; lia).
    destruct (decide (o2 ≤ Z.of_nat k < o2 + 4)) as [Hk2|Hk2].
    + rewrite !write32_lookup_in by (rewrite ?length_write32; lia). done.
    + rewrite !write32_lookup_other by (rewrite ?length_write32; lia). done.
Qed.

Lemma apply_reloc_intro gst obj r target existing :
  gst !! reloc_symbol_name r = Some target →
  read32 (text_section obj) (reloc_offset r) = Some existing →
  apply_reloc gst obj r
  = Ok (set_text_section obj
          (write32 (text_section obj) (reloc_offset r)
             (patch_word r existing (value_to_write obj r target)))).
Proof.
  intros Hg Hrd. unfold apply_reloc. rewrite Hg, Hrd.
  apply read32_Some in Hrd as (Hlo & Hhi & _).
  assert (wrap32 (reloc_offset r + 4) ≤ reloc_offset r + 4)
    by (unfold wrap32; apply Z.mod_le; lia).
  destruct (_ >? _) eqn:E; [|done].
  rewrite Z.gtb_ltb in E. apply Z.ltb_lt in E. lia.
Qed.

(** Two relocations on disjoint windows can be applied in either order. *)
Lemma apply_reloc_comm gst obj r1 r2 o1 o2 :
  disjoint_windows r1 r2 →
  apply_reloc gst obj r1 = Ok o1 → apply_reloc gst o1 r2 = Ok o2 →
  ∃ o1', apply_reloc gst obj r2 = Ok o1' ∧ apply_reloc gst o1' r1 = Ok o2.
Proof.
  intros Hd H1 H2.
  destruct (apply_reloc_Ok _ _ _ _ H1) as (t1 & e1 & Hg1 & Hrd1 & ->).
  destruct (apply_reloc_Ok _ _ _ _ H2) as (t2 & e2 & Hg2 & Hrd2 & ->).
  cbn [text_section set_text_section] in *.
  pose proof (read32_Some _ _ _ Hrd1) as (H1l & H1h & _).
  assert (read32 (text_section obj) (reloc_offset r2) = Some e2) as Hrd2'.
  { rewrite <- Hrd2. symmetry. apply read32_write32_other; [done..|].
    destruct Hd; lia. }
  pose proof (read32_Some _ _ _ Hrd2') as (H2l & H2h & _).
  eexists. split; [by apply apply_reloc_intro|].
  erewrite apply_reloc_intro; [|done|].
  - cbn [text_section set_text_section]. f_equal.
    unfold set_text_section. cbn. f_equal.
    unfold value_to_write. cbn. apply write32_comm; try done.
    destruct Hd; lia.
  - cbn [text_section set_text_section]. rewrite <- Hrd1.
    apply read32_write32_other; [done..|]. destruct Hd; lia.
Qed.

Lemma disjoint_windows_sym r r' : disjoint_windows r r' → disjoint_windows r' r.
Proof. unfold disjoint_windows. tauto. Qed.

Lemma pairwise_disjoint_perm rs rs' :
  rs ≡ₚ rs' → pairwise_disjoint rs → pairwise_disjoint rs'.
Proof.
  induction 1 as [|r l l' Hp IH|r1 r2 l|l l' l'' _ IH1 _ IH2]; cbn.
  - done.
  - intros [Hf Hl]. split; [by rewrite <- Hp|auto].
  - intros [[H21 Hf2]%Forall_cons [Hf1 Hl]].
    split_and!; [|done..]. apply Forall_cons. split; [|done].
    by apply disjoint_windows_sym.
  - auto.
Qed.

(** X12: the order of the relocation records of a module does not matter
    when their windows are pairwise disjoint: any reordering of the table
    that the engine applies successfully gives the same patched module. *)
Theorem apply_relocs_permutation gst rs rs' obj obj' :
  rs ≡ₚ rs' → pairwise_disjoint rs →
  apply_relocs gst obj rs = Ok obj' →
  apply_relocs gst obj rs' = Ok obj'.
Proof.
  intros Hp. revert obj obj'.
  induction Hp as [|r l l' Hp IH|r1 r2 l|l l' l'' Hp1 IH1 Hp2 IH2];
    intros obj obj' Hd H.
  - done.
  - cbn [apply_relocs] in *. destruct Hd as [_ Hd].
    destruct (apply_reloc gst obj r) as [o1| | |]; try done. cbn in *.
    by apply IH.
  - cbn [apply_relocs] in *. destruct Hd as [[Hd _]%Forall_cons _].
    destruct (apply_reloc gst obj r2) as [o1| | |] eqn:E1; try done.
    cbn in H.
    destruct (apply_reloc gst o1 r1) as [o2| | |] eqn:E2; try done.
    cbn in H.
    destruct (apply_reloc_comm _ _ _ _ _ _ Hd E1 E2) as (o1' & -> & E').
    cbn. rewrite E'. done.
  - apply IH2; [by eapply pairwise_disjoint_perm|]. by apply IH1.
Qed.

(** X12 for three relocations applied in two orders. *)
Lemma apply_relocs_permutation_witness :
  pairwise_disjoint (relocs three_relocs)
  ∧ apply_relocs {["__START__" := 16; "x" := 24]} three_relocs
      [reloc 8 "__START__" RELOC_ABSOLUTE; reloc 0 "x" RELOC_ABSOLUTE;
       reloc 4 "x" RELOC_RELATIVE]
    = Ok (set_text_section three_relocs
            [x18; x00; x00; x00; x04; x00; x00; x00; x10; x00; x00; x00]).
Proof.
  assert (pairwise_disjoint (relocs three_relocs)) as Hd.
  { cbn [pairwise_disjoint relocs three_relocs set_base_addrs mk_object].
    split_and!; try exact I;
      repeat (apply Forall_cons; split;
              [unfold disjoint_windows; cbn; lia|]);
      apply Forall_nil_2. }
  assert (apply_relocs {["__START__" := 16; "x" := 24]} three_relocs
            (relocs three_relocs)
          = Ok (set_text_section three_relocs
                  [x18; x00; x00; x00; x04; x00; x00; x00;
                   x10; x00; x00; x00])) as H
    by (vm_compute; reflexivity).
  split; [exact Hd|].
  refine (apply_relocs_permutation _ _ _ _ _ _ Hd H). clear.
  cbn. etrans; [apply Permutation_skip, Permutation_swap|].
  apply Permutation_swap.
Defined.

(** ** Object files and the loader: round trip *)

Lemma cstring_terminated bs rest :
  Forall (λ b, b ≠ x00) bs →
  cstring (bs ++ x00 :: rest)
  = string_of_list_ascii (ascii_of_byte <$> bs).
Proof.
  induction 1 as [|b bs Hb _ IH]; [done|]. cbn [app cstring fmap list_fmap].
  destruct (Byte.eqb b x00) eqn:E; [by apply Byte.byte_dec_bl in E|].
  cbn. by rewrite IH.
Qed.

Lemma length_list_byte_of_string s :
  length (list_byte_of_string s) = String.length s.
Proof.
  unfold list_byte_of_string. rewrite length_map.
  induction s as [|a s IH]; cbn; [done|by rewrite IH].
Qed.

Lemma length_encode_name s : length (encode_name s) = 64%nat.
Proof.
  unfold encode_name. rewrite length_take, length_app, length_replicate. lia.
Qed.

(** The name field of an encodable name reads back as the name. *)
Lemma cstring_encode_name s rest :
  encodable_name s → cstring (encode_name s ++ rest) = s.
Proof.
  intros [Hlen Hnz].
  unfold encode_name.
  pose proof (length_list_byte_of_string s) as Hl.
  assert (take 64 (list_byte_of_string s ++ replicate 64 x00)
          = list_byte_of_string s
            ++ x00 :: replicate (63 - String.length s) x00) as ->.
  { rewrite take_app_ge by lia. rewrite take_replicate. f_equal.
    replace ((64 - length (list_byte_of_string s)) `min` 64)%nat
      with (S (63 - String.length s)) by lia.
    done. }
  rewrite <- app_assoc. cbn [app]. rewrite cstring_terminated.
  - unfold list_byte_of_string.
    replace (ascii_of_byte <$> map byte_of_ascii (list_ascii_of_string s))
      with (list_ascii_of_string s).
    + apply string_of_list_ascii_of_string.
    + clear. induction (list_ascii_of_string s) as [|a l IH]; [done|].
      cbn. unfold ascii_of_byte at 1.
      rewrite Ascii.ascii_of_byte_of_ascii. by f_equal.
  - unfold list_byte_of_string. clear -Hnz.
    induction Hnz as [|a l Ha _ IH]; constructor; [|done].
    intros E. apply Ha. apply (f_equal Ascii.ascii_of_byte) in E.
    by rewrite Ascii.ascii_of_byte_of_ascii in E.
Qed.

Lemma length_encode_symbol sym :
  length (encode_symbol sym) = sizeof_SymbolEntry.
Proof.
  unfold encode_symbol. by rewrite !length_app, length_encode_name.
Qed.

Lemma length_encode_reloc r : length (encode_reloc r) = sizeof_RelocEntry.
Proof.
  unfold encode_reloc. by rewrite !length_app, length_encode_name.
Qed.

Lemma decode_encode_symbol sym rest :
  encodable_symbol sym → decode_symbol (encode_symbol sym ++ rest) = sym.
Proof.
  intros (Hn & Ht & Hs & Ho). destruct sym as [n t s o].
  cbn [sym_name sym_type sym_section sym_offset] in *.
  unfold decode_symbol, encode_symbol.
  cbn [sym_name sym_type sym_section sym_offset].
  rewrite <- !app_assoc. rewrite cstring_encode_name by done.
  pose proof (length_encode_name n) as Hl.
  assert (∀ x, drop 64 (encode_name n ++ x) = x) as D64.
  { intros x. rewrite <- Hl. apply drop_app_length. }
  assert (∀ x, drop 68 (encode_name n ++ bytes32 t ++ x) = x) as D68.
  { intros x. change 68%nat with (64 + 4)%nat. by rewrite <- drop_drop, D64. }
  assert (∀ x, drop 72 (encode_name n ++ bytes32 t ++ bytes32 s ++ x) = x)
    as D72.
  { intros x. change 72%nat with (68 + 4)%nat. by rewrite <- drop_drop, D68. }
  rewrite D64, D68, D72, !le32_bytes32.
  unfold uint32 in *. by rewrite !wrap32_small.
Qed.

Lemma decode_encode_reloc r rest :
  encodable_reloc r → decode_reloc (encode_reloc r ++ rest) = r.
Proof.
  intros (Ho & Hn & Ht). destruct r as [o n t].
  cbn [reloc_offset reloc_symbol_name reloc_type] in *.
  unfold decode_reloc, encode_reloc.
  cbn [reloc_offset reloc_symbol_name reloc_type].
  rewrite <- !app_assoc.
  change (drop 4 (bytes32 o ++ ?x)) with x.
  rewrite cstring_encode_name by done.
  pose proof (length_encode_name n) as Hl.
  assert (∀ x, drop 68 (bytes32 o ++ encode_name n ++ x) = x) as D68.
  { intros x. change 68%nat with (4 + 64)%nat. rewrite <- drop_drop.
    change (drop 4 (bytes32 o ++ ?y)) with y.
    rewrite <- Hl. apply drop_app_length. }
  rewrite D68, !le32_bytes32.
  unfold uint32 in *. by rewrite !wrap32_small.
Qed.

(** An array of records laid out one after the other is read back as
    the records. *)
Lemma records_concat {A} (enc : A → list byte) (dec : list byte → A)
    (size : nat) (xs : list A) : ∀ rest,
  (∀ x, length (enc x) = size) →
  (∀ x tail, x ∈ xs → dec (enc x ++ tail) = x) →
  dec <$> records (length xs) size (concat (enc <$> xs) ++ rest) = xs.
Proof.
  intros rest Hsize Hdec. induction xs as [|x xs IH]; [done|].
  cbn [length records fmap list_fmap concat].
  rewrite <- app_assoc.
  assert (drop size (enc x ++ concat (enc <$> xs) ++ rest)
          = concat (enc <$> xs) ++ rest) as ->
    by (rewrite <- (Hsize x); apply drop_app_length).
  f_equal.
  - apply Hdec. by left.
  - apply IH. intros y tail Hy. apply Hdec. by right.
Qed.

Lemma length_concat_fixed {A} (enc : A → list byte) (size : nat)
    (xs : list A) :
  (∀ x, length (enc x) = size) →
  length (concat (enc <$> xs)) = (length xs * size)%nat.
Proof.
  intros Hsize. induction xs as [|x xs IH]; [done|].
  cbn. rewrite length_app, Hsize, IH. lia.
Qed.

(** X13: round trip through the object format.  A file that lays out an
    object as the packed little-endian records of [ObjectFormat.h] (the
    header, the code, the data, the symbol records, the relocation
    records), with names terminated within their 64-byte fields, is loaded
    as that object: the loader fills in the path as file name and gives
    back the same header, code, data, symbols and relocations. *)
Theorem load_encode_object path w obj :
  files w !! path = Some (encode_object obj) →
  encodable obj →
  ∃ loaded,
    load_object_file path w = Ok loaded
    ∧ filename loaded = path
    ∧ header loaded = header obj
    ∧ text_section loaded = text_section obj
    ∧ data_section loaded = data_section obj
    ∧ symbols loaded = symbols obj
    ∧ relocs loaded = relocs obj.
Proof.
  intros Hf (Hmagic & Hrange & [Hts Hds] & Hns & Hnr & Hsyms & Hrels).
  unfold encode_object in Hf.
  rewrite (load_object_file_exact path w (header obj) (text_section obj)
             (data_section obj) (encode_tables obj) Hf Hmagic Hrange
             (eq_sym Hts) (eq_sym Hds)).
  rewrite Hns, Hnr, !Nat2Z.id. unfold encode_tables.
  set (S := concat (encode_symbol <$> symbols obj)).
  set (R := concat (encode_reloc <$> relocs obj)).
  assert (length (symbols obj) * sizeof_SymbolEntry = length S)%nat as ->
    by (symmetry; apply length_concat_fixed, length_encode_symbol).
  assert (length (relocs obj) * sizeof_RelocEntry = length R)%nat as ->
    by (symmetry; apply length_concat_fixed, length_encode_reloc).
  rewrite padded_exact, drop_app_length.
  assert (padded (length R) R = R) as ->
    by (rewrite <- (app_nil_r R) at 2; apply padded_exact).
  assert (decode_symbol <$> records (length (symbols obj))
            sizeof_SymbolEntry S = symbols obj) as ->.
  { subst S. rewrite <- (app_nil_r (concat _)).
    apply records_concat; [apply length_encode_symbol|].
    intros sym tail Hs. apply decode_encode_symbol.
    by apply (proj1 (Forall_forall _ _) Hsyms). }
  assert (decode_reloc <$> records (length (relocs obj))
            sizeof_RelocEntry R = relocs obj) as ->.
  { subst R. rewrite <- (app_nil_r (concat _)).
    apply records_concat; [apply length_encode_reloc|].
    intros r tail Hr. apply decode_encode_reloc.
    by apply (proj1 (Forall_forall _ _) Hrels). }
  eexists. split; [reflexivity|]. by split_and!.
Qed.

(** X13 at module A of the scenario. *)
Lemma load_encode_object_witness :
  files (world_of [scenario_A]) !! "a.o" = Some (encode_object scenario_A)
  ∧ ∃ loaded,
      load_object_file "a.o" (world_of [scenario_A]) = Ok loaded
      ∧ filename loaded = "a.o"
      ∧ header loaded = header scenario_A
      ∧ text_section loaded = text_section scenario_A
      ∧ data_section loaded = data_section scenario_A
      ∧ symbols loaded = symbols scenario_A
      ∧ relocs loaded = relocs scenario_A.
Proof.
  assert (files (world_of [scenario_A]) !! "a.o"
          = Some (encode_object scenario_A)) as H
    by (vm_compute; reflexivity).
  split; [exact H|].
  refine (load_encode_object "a.o" _ scenario_A H _). clear H.
  assert (∀ s, (String.length s <? 64)%nat = true →
               forallb (λ a, negb (Ascii.eqb a Ascii.zero))
                 (list_ascii_of_string s) = true →
               encodable_name s) as Hname.
  { intros s Hl Hz. split; [by apply Nat.ltb_lt|].
    apply Forall_forall. intros a Ha.
    rewrite forallb_forall in Hz. apply list_elem_of_In, Hz in Ha.
    intros ->. by rewrite Ascii.eqb_refl in Ha. }
  assert (∀ z, (0 <=? z) && (z <? 2 ^ 32) = true → uint32 z) as Hu.
  { intros z [?%Z.leb_le ?%Z.ltb_lt]%andb_true_iff. done. }
  assert (∀ sym, encodable_name (sym_name sym) → uint32 (sym_type sym) →
            uint32 (sym_section sym) → uint32 (sym_offset sym) →
            encodable_symbol sym) as Hsym by (by intros; split_and!).
  assert (∀ r, uint32 (reloc_offset r) →
            encodable_name (reloc_symbol_name r) → uint32 (reloc_type r) →
            encodable_reloc r) as Hrel by (by intros; split_and!).
  split_and!; try reflexivity.
  - unfold header_in_range. cbn. unfold LINKER_MAGIC. lia.
  - by split.
  - apply Forall_cons; split; [|apply Forall_cons; split; [|constructor]];
      apply Hsym; try (apply Hname; reflexivity); apply Hu; reflexivity.
  - apply Forall_cons; split; [|constructor].
    apply Hrel; try (apply Hname; reflexivity); apply Hu; reflexivity.
Defined.
